(** * Cubetto playset interface board (Primo)

    A shallow embedding of [Sketches/interface_board/interface_board.ino]:
    the magnet decoder [check_button], the packet set-up
    [initialise_packet], the frame-building part of [loop] and the radio
    interrupt handler [checkRadio], followed by the properties of the
    frame that is handed to the radio.

    The board is an AVR (ATmega32u4): [char] is a signed 8-bit integer,
    [int] a signed 16-bit integer, [long] a signed 32-bit integer, and
    memory is little-endian.  Integers are modelled as [Z] with the
    wrap-around of each C type written out where a value is stored.

    The GPIO expanders, the random number generator and the radio driver
    are outside the sketch: port readings, the number drawn at boot and the
    interrupt requests of the radio are inputs, and the calls made on the
    radio are logged.

    Every store into [packet] is logged as well.  A store at an index
    outside the array is undefined in C and its effect is not modelled: it
    marks the machine [overrun].  The properties of the frames the sketch
    sends are stated for machines that are not overrun, where the model
    and the sketch agree store for store. *)

From Stdlib Require Import ZArith Lia Bool.
From stdpp Require Import base list.

Local Open Scope Z_scope.

(** ** Constants of the sketch *)

Abbreviation PRIMO_MAGNET_NONE := 0 (only parsing).
Abbreviation PRIMO_MAGNET_FORWARD := 1 (only parsing).
Abbreviation PRIMO_MAGNET_RIGHT := 2 (only parsing).
Abbreviation PRIMO_MAGNET_LEFT := 3 (only parsing).
Abbreviation PRIMO_MAGNET_FUNCTION := 4 (only parsing).
Abbreviation PRIMO_MAGNET_ERR := 5 (only parsing).

Abbreviation PRIMO_NRF24L01_MAX_PACKET_SIZE := 32 (only parsing).
Abbreviation PRIMO_ID := 0xDE1D8758 (only parsing).

Abbreviation PRIMO_COMMAND_STOP := 0x00 (only parsing).
Abbreviation PRIMO_COMMAND_FORWARD := 0x01 (only parsing).
Abbreviation PRIMO_COMMAND_LEFT := 0x02 (only parsing).
Abbreviation PRIMO_COMMAND_RIGHT := 0x03 (only parsing).

Abbreviation PRIMO_MAX_BUTTON := 28 (only parsing).

(** ** Machine integers *)

(** Two's complement value of [z] in a signed type of [bits] bits. *)
Definition wrap_signed (bits z : Z) : Z :=
  let m := z mod 2 ^ bits in
  if m <? 2 ^ (bits - 1) then m else m - 2 ^ bits.

Definition to_char : Z -> Z := wrap_signed 8.
Definition to_int : Z -> Z := wrap_signed 16.
Definition to_long : Z -> Z := wrap_signed 32.
Definition to_uint32 (z : Z) : Z := z mod 2 ^ 32.

(** The four bytes [memcpy] reads from a 4-byte integer object, lowest
    address first (little-endian), each as an unsigned byte. *)
Definition bytes_of_long (z : Z) : list Z :=
  [Z.land z 0xFF; Z.land (Z.shiftr z 8) 0xFF;
   Z.land (Z.shiftr z 16) 0xFF; Z.land (Z.shiftr z 24) 0xFF].

(** The unsigned 32-bit value four little-endian bytes stand for. *)
Definition le32 (bs : list Z) : Z :=
  match bs with
  | [b0; b1; b2; b3] => b0 + 256 * b1 + 65536 * b2 + 16777216 * b3
  | _ => 0
  end.

(** ** The world outside the microcontroller *)

(** The four MCP23S17 GPIO expanders. *)
Inductive expander : Set := gpioExp1 | gpioExp2 | gpioExp3 | gpioExp4.

(** What the hall sensors show during one pass of [loop]: the value the
    [n]-th call of [readPort] of the pass returns when it is made on
    expander [e].  Readings may change from one call to the next. *)
Definition port_oracle : Type := nat -> expander -> Z.

(** What the sketch asks of the RF24 driver. *)
Inductive radio_op : Type :=
  | StartWrite (frame : list Z)
  | PowerDown.

(** ** Machine state *)

(** The globals of the sketch the frame depends on, the number of port
    reads made so far in the pass, two logs: every store made into
    [packet] (index and value, oldest first), and every request made to the
    radio driver (oldest first), and the mark [overrun]: whether a store has
    been made outside the 32 elements of [packet].

    Such a store is undefined in C.  On the board it is a write into
    whatever the linker placed around the array, which may be statics of
    the sketch itself ([ackMessageCount], [current_element], ...), so that
    later stores may go anywhere, the first eight bytes of the frame
    included.  The sketch does not fix that placement and the model does
    not guess it: once [overrun] is set, the other fields are what the
    sketch would hold if the stray stores had hit nothing it uses again,
    and no more.  What is stated of the frames the sketch sends is stated
    of machines that are not [overrun]; the theorems that exhibit a defect
    name the stores that leave the array. *)
Record machine : Type := Machine {
  packet : list Z;
  current_element : Z;
  terminated : Z;
  ackMessageCount : Z;
  port_reads : nat;
  stores : list (Z * Z);
  radio : list radio_op;
  overrun : bool
}.

Definition set_current_element (v : Z) (s : machine) : machine :=
  Machine (packet s) v (terminated s) (ackMessageCount s)
          (port_reads s) (stores s) (radio s) (overrun s).

Definition set_terminated (v : Z) (s : machine) : machine :=
  Machine (packet s) (current_element s) v (ackMessageCount s)
          (port_reads s) (stores s) (radio s) (overrun s).

Definition set_ackMessageCount (v : Z) (s : machine) : machine :=
  Machine (packet s) (current_element s) (terminated s) v
          (port_reads s) (stores s) (radio s) (overrun s).

Definition count_port_read (s : machine) : machine :=
  Machine (packet s) (current_element s) (terminated s) (ackMessageCount s)
          (S (port_reads s)) (stores s) (radio s) (overrun s).

Definition log_radio (op : radio_op) (s : machine) : machine :=
  Machine (packet s) (current_element s) (terminated s) (ackMessageCount s)
          (port_reads s) (stores s) (radio s ++ [op]) (overrun s).

(** An index of [static char packet[PRIMO_NRF24L01_MAX_PACKET_SIZE]]. *)
Definition in_packet (idx : Z) : bool :=
  (0 <=? idx) && (idx <? PRIMO_NRF24L01_MAX_PACKET_SIZE).

(** [packet[idx] = v].  Inside the array the element is replaced.  Outside
    it the store is undefined behaviour: the machine is marked [overrun]
    and the store kept in the log; where it lands is not modelled. *)
Definition write_packet (idx v : Z) (s : machine) : machine :=
  Machine (if (0 <=? idx) && (idx <? PRIMO_NRF24L01_MAX_PACKET_SIZE)
           then <[Z.to_nat idx := v]> (packet s) else packet s)
          (current_element s) (terminated s) (ackMessageCount s)
          (port_reads s) (stores s ++ [(idx, v)]) (radio s)
          (overrun s || negb (in_packet idx)).

(** ** A state monad for the sketch *)

Definition M (A : Type) : Type := machine -> A * machine.

Definition ret {A : Type} (a : A) : M A := fun s => (a, s).

Definition bind {A B : Type} (c : M A) (k : A -> M B) : M B :=
  fun s => k (fst (c s)) (snd (c s)).

Definition modify (f : machine -> machine) : M unit := fun s => (tt, f s).

Definition exec {A : Type} (c : M A) (s : machine) : machine := snd (c s).

Definition eval {A : Type} (c : M A) (s : machine) : A := fst (c s).

Declare Scope sketch_scope.
Delimit Scope sketch_scope with sketch.
Notation "'let*' x ':=' c 'in' k" := (bind c (fun x => k))
  (at level 10, x name, c at level 100, k at level 200) : sketch_scope.

(** [for (x = lo; x <= hi; x++) body(x)] with [n] iterations left. *)
Fixpoint for_up (n : nat) (x : Z) (body : Z -> M unit) : M unit :=
  match n with
  | O => ret tt
  | S n' => bind (body x) (fun _ => for_up n' (x + 1) body)
  end.

Definition for_range (lo hi : Z) (body : Z -> M unit) : M unit :=
  for_up (Z.to_nat (hi + 1 - lo)) lo body.

(** ** check_button *)

(** The "untwist bits" expression of [check_button]. *)
Definition untwist (button : Z) : Z :=
  Z.land button 0x01 + Z.shiftl (Z.land button 0x02) 1
  + Z.shiftr (Z.land button 0x04) 1.

(** The "convert to button codes" switch of [check_button]. *)
Definition convert_to_button_code (invert_magnet : bool) (button : Z) : Z :=
  match button with
  | 2 => if invert_magnet then PRIMO_MAGNET_FUNCTION else PRIMO_MAGNET_FUNCTION
  | 3 => if invert_magnet then PRIMO_MAGNET_RIGHT else PRIMO_MAGNET_FORWARD
  | 4 => if invert_magnet then PRIMO_MAGNET_FUNCTION else PRIMO_MAGNET_NONE
  | 5 => if invert_magnet then PRIMO_MAGNET_LEFT else PRIMO_MAGNET_LEFT
  | 6 => if invert_magnet then PRIMO_MAGNET_FORWARD else PRIMO_MAGNET_RIGHT
  | 7 => PRIMO_MAGNET_NONE
  | _ => PRIMO_MAGNET_NONE
  end.

Section Board.

Variable env : port_oracle.

(** [gpioExpN.readPort()] assigned to the [int] variable [hall_response]. *)
Definition readPort (e : expander) : M Z :=
  fun s => (to_int (env (port_reads s) e), count_port_read s).

Local Open Scope sketch_scope.

(** The locals of [check_button] after its first switch:
    [(hall_response, button, invert_magnet, twisted)]. *)
Definition select_button (button_to_check : Z) : M (Z * Z * bool * bool) :=
  match button_to_check with
  | 1 => let* hall_response := readPort gpioExp1 in
         ret (hall_response, Z.land hall_response 0x0F, false, false)
  | 2 => let* hall_response := readPort gpioExp1 in
         ret (hall_response, Z.land (Z.shiftr hall_response 4) 0x0F, false, false)
  | 3 => let* hall_response := readPort gpioExp1 in
         ret (hall_response, Z.land (Z.shiftr hall_response 8) 0x0F, false, false)
  | 4 => let* hall_response := readPort gpioExp1 in
         ret (hall_response, Z.land (Z.shiftr hall_response 12) 0x0F, false, false)
  | 5 => let* hall_response := readPort gpioExp2 in
         ret (hall_response, Z.land hall_response 0x0F, true, false)
  | 6 => let* hall_response := readPort gpioExp2 in
         ret (hall_response, Z.land (Z.shiftr hall_response 4) 0x0F, true, false)
  | 7 => let* hall_response := readPort gpioExp2 in
         ret (hall_response, Z.land (Z.shiftr hall_response 8) 0x0F, true, false)
  | 8 => let* hall_response := readPort gpioExp2 in
         ret (hall_response, Z.land (Z.shiftr hall_response 12) 0x0F, true, true)
  | 9 => let* hall_response := readPort gpioExp3 in
         ret (hall_response, Z.land hall_response 0x0F, false, false)
  | 10 => let* hall_response := readPort gpioExp3 in
          ret (hall_response, Z.land (Z.shiftr hall_response 4) 0x0F, false, false)
  | 11 => let* hall_response := readPort gpioExp3 in
          ret (hall_response, Z.land (Z.shiftr hall_response 8) 0x0F, false, false)
  | 12 => let* hall_response := readPort gpioExp3 in
          ret (hall_response, Z.land (Z.shiftr hall_response 12) 0x0F, false, false)
  | 13 => let* hall_response := readPort gpioExp4 in
          ret (hall_response, Z.land hall_response 0x0F, false, false)
  | 14 => let* hall_response := readPort gpioExp4 in
          ret (hall_response, Z.land (Z.shiftr hall_response 4) 0x0F, false, false)
  | 15 => let* hall_response := readPort gpioExp4 in
          ret (hall_response, Z.land (Z.shiftr hall_response 8) 0x0F, false, false)
  | 16 => let* hall_response := readPort gpioExp4 in
          ret (hall_response, Z.land (Z.shiftr hall_response 12) 0x0F, false, false)
  | _ => ret (0, 0, false, false)
  end.

Definition check_button (button_to_check : Z) : M Z :=
  let* selected := select_button button_to_check in
  let '(hall_response, button, invert_magnet, twisted) := selected in
  (* only bottom 3 bits have hall data *)
  let button := Z.land button 0x07 in
  (* untwist bits *)
  let button := if twisted : bool then untwist button else button in
  (* convert to button codes *)
  ret (convert_to_button_code invert_magnet button).

(** ** The frame-building part of loop *)

Definition get_terminated : M Z := fun s => (terminated s, s).

(** [packet[current_element++] = v], [current_element] being a [char]. *)
Definition append_packet (v : Z) : M unit :=
  modify (fun s =>
    set_current_element (to_char (current_element s + 1))
      (write_packet (current_element s) v s)).

(** Body of the loop over [function_element]. *)
Definition function_body (function_element : Z) : M unit :=
  let* magnet := check_button (12 + function_element) in
  match magnet with
  | PRIMO_MAGNET_FORWARD => append_packet PRIMO_COMMAND_FORWARD
  | PRIMO_MAGNET_RIGHT => append_packet PRIMO_COMMAND_RIGHT
  | PRIMO_MAGNET_LEFT => append_packet PRIMO_COMMAND_LEFT
  | _ => ret tt
  end.

(** [for (function_element = 1; function_element <= 4; function_element++)] *)
Definition expand_function : M unit := for_range 1 4 function_body.

(** Body of the loop over [button]. *)
Definition button_body (button : Z) : M unit :=
  let* t := get_terminated in
  if t =? 0 then
    let* magnet := check_button button in
    match magnet with
    | PRIMO_MAGNET_FORWARD => append_packet PRIMO_COMMAND_FORWARD
    | PRIMO_MAGNET_RIGHT => append_packet PRIMO_COMMAND_RIGHT
    | PRIMO_MAGNET_LEFT => append_packet PRIMO_COMMAND_LEFT
    | PRIMO_MAGNET_FUNCTION => expand_function
    | PRIMO_MAGNET_NONE => modify (set_terminated 1)
    | _ => ret tt
    end
  else append_packet PRIMO_COMMAND_STOP.

(** [for (button = 1; button <= PRIMO_MAX_BUTTON; button++)] *)
Definition scan_buttons : M unit := for_range 1 PRIMO_MAX_BUTTON button_body.

(** [while (current_element < PRIMO_MAX_BUTTON)
       packet[current_element++] = PRIMO_COMMAND_STOP;]
    with a bound on the number of iterations; [add_stops_exits] shows that
    the loop is left through its condition. *)
Fixpoint add_stops_fuel (fuel : nat) : M unit :=
  match fuel with
  | O => ret tt
  | S fuel' => fun s =>
      if current_element s <? PRIMO_MAX_BUTTON
      then bind (append_packet PRIMO_COMMAND_STOP) (fun _ => add_stops_fuel fuel') s
      else (tt, s)
  end.

Definition add_stops : M unit := add_stops_fuel 256.

(** From "button is released, now calculate the packet to send" to the end
    of the stop-filling loop.  The four reads at the start are the
    arguments of the [debug_printf] calls ([PRIMO_DEBUG_MODE] is defined). *)
Definition calculate_packet : M unit :=
  let* _ := modify (set_current_element 8) in
  let* _ := modify (set_terminated 0) in
  let* _ := readPort gpioExp1 in
  let* _ := readPort gpioExp2 in
  let* _ := readPort gpioExp3 in
  let* _ := readPort gpioExp4 in
  let* _ := scan_buttons in
  add_stops.

(** [radio.startWrite(packet, PRIMO_NRF24L01_MAX_PACKET_SIZE)] *)
Definition startWrite : M unit :=
  modify (fun s =>
    log_radio (StartWrite (take (Z.to_nat PRIMO_NRF24L01_MAX_PACKET_SIZE) (packet s))) s).

End Board.

(** ** checkRadio *)

(** The interrupt handler.  [tx], [fail] and [rx] are what
    [radio.whatHappened] reports and [payload] is what [radio.read] copies
    into the [uint32_t] counter. *)
Definition checkRadio (tx fail rx : bool) (payload : Z) : M unit :=
  bind (if tx || fail then modify (log_radio PowerDown) else ret tt) (fun _ =>
  if rx then modify (set_ackMessageCount (to_uint32 payload)) else ret tt).

(** One interrupt request of the radio, as the driver reports it. *)
Record irq : Type := Irq {
  irq_tx : bool;
  irq_fail : bool;
  irq_rx : bool;
  irq_payload : Z
}.

Definition serve (q : irq) : M unit :=
  checkRadio (irq_tx q) (irq_fail q) (irq_rx q) (irq_payload q).

(** The handler run once for each of the requests [qs], oldest first. *)
Definition serve_all (qs : list irq) : M unit :=
  fun s => (tt, fold_left (fun s' q => exec (serve q) s') qs s).

(** ** One pass of loop *)

(** One pass of [loop] from the release of the user-button to the reset of
    [terminated] that follows the two sends; [qs] are the interrupt requests
    the radio raises after the first send and before the second.  The LED
    scan that runs while the button is held and the LED replay after the
    sends call only [check_button], [write_led] and [delay]: they store
    nothing in [packet] and ask nothing of the radio, and are left out. *)
Definition loop_pass (env : port_oracle) (qs : list irq) : M unit :=
  bind (calculate_packet env) (fun _ =>
  bind startWrite (fun _ =>
  bind (serve_all qs) (fun _ =>
  bind startWrite (fun _ =>
  modify (set_terminated 0))))).

(** Port reads are counted from the release of the user-button. *)
Definition reset_port_reads (s : machine) : machine :=
  Machine (packet s) (current_element s) (terminated s) (ackMessageCount s)
          0%nat (stores s) (radio s) (overrun s).

(** One gesture: [env n e] is what the [n]-th [readPort] after the release
    of the user-button returns on expander [e]. *)
Definition loop (env : port_oracle) (qs : list irq) (s : machine) : machine :=
  exec (loop_pass env qs) (reset_port_reads s).

(** ** initialise_packet *)

(** [memcpy(&packet[at], &v, 4)] for a [long] [v]. *)
Definition memcpy_long (at_ : Z) (v : Z) : M unit :=
  let bs := bytes_of_long v in
  bind (modify (write_packet at_ (nth 0 bs 0))) (fun _ =>
  bind (modify (write_packet (at_ + 1) (nth 1 bs 0))) (fun _ =>
  bind (modify (write_packet (at_ + 2) (nth 2 bs 0))) (fun _ =>
  modify (write_packet (at_ + 3) (nth 3 bs 0))))).

(** Stores [vs] at consecutive indices from [at_] on. *)
Fixpoint write_run (at_ : Z) (vs : list Z) : M unit :=
  match vs with
  | [] => ret tt
  | v :: vs' => bind (modify (write_packet at_ v)) (fun _ => write_run (at_ + 1) vs')
  end.

(** [random_value] is what [random()] returns after the seeding from the
    floating analog input. *)
Definition initialise_packet (random_value : Z) : M unit :=
  let primo_id := to_long PRIMO_ID in
  let primo_random := to_long random_value in
  bind (memcpy_long 0 primo_id) (fun _ =>
  bind (memcpy_long 4 primo_random) (fun _ =>
  bind (write_run 8
          [PRIMO_COMMAND_FORWARD; PRIMO_COMMAND_LEFT;
           PRIMO_COMMAND_FORWARD; PRIMO_COMMAND_LEFT;
           PRIMO_COMMAND_FORWARD; PRIMO_COMMAND_LEFT;
           PRIMO_COMMAND_FORWARD; PRIMO_COMMAND_RIGHT;
           PRIMO_COMMAND_FORWARD; PRIMO_COMMAND_RIGHT;
           PRIMO_COMMAND_FORWARD; PRIMO_COMMAND_RIGHT;
           PRIMO_COMMAND_FORWARD; PRIMO_COMMAND_RIGHT;
           PRIMO_COMMAND_FORWARD; PRIMO_COMMAND_LEFT]) (fun _ =>
  write_run 24
          [PRIMO_COMMAND_STOP; PRIMO_COMMAND_STOP; PRIMO_COMMAND_STOP;
           PRIMO_COMMAND_STOP; PRIMO_COMMAND_STOP; PRIMO_COMMAND_STOP;
           PRIMO_COMMAND_STOP; PRIMO_COMMAND_STOP]))).

(** The statics of the sketch at reset: all zero. *)
Definition power_on : machine :=
  Machine (replicate 32 0) 0 0 0 0%nat [] [] false.

(** The part of [setup] that touches the modelled state. *)
Definition setup (random_value : Z) : machine :=
  exec (initialise_packet random_value) power_on.

(** ** A power cycle *)

(** What happens after [setup]: the user completes a gesture (the radio
    raising the interrupts [qs] between its two sends), or the radio raises
    an interrupt while the sketch waits for the user-button. *)
Inductive event : Type :=
  | Gesture (env : port_oracle) (qs : list irq)
  | RadioIrq (q : irq).

Definition step (s : machine) (e : event) : machine :=
  match e with
  | Gesture env qs => loop env qs s
  | RadioIrq q => exec (serve q) s
  end.

Definition run (es : list event) (s : machine) : machine :=
  fold_left step es s.

(** The frames handed to [radio.startWrite], oldest first. *)
Definition frames_sent (ops : list radio_op) : list (list Z) :=
  flat_map (fun op => match op with StartWrite f => [f] | PowerDown => [] end) ops.

(** The three movement commands. *)
Definition is_movement (c : Z) : bool := (c =? 1) || (c =? 2) || (c =? 3).

(** A valid command byte. *)
Definition is_command (c : Z) : bool := (c =? 0) || is_movement c.

(** The same readings on every read. *)
Definition steady (h1 h2 h3 h4 : Z) : port_oracle :=
  fun _ e =>
    match e with
    | gpioExp1 => h1 | gpioExp2 => h2 | gpioExp3 => h3 | gpioExp4 => h4
    end.

(** ** The decoder as the specification words it *)

(** Static wiring table: port group, bit offset of the nibble and the two
    orientation flags [(invert_magnet, twisted)] of a slot. *)
Definition slot_wiring (slot_index : Z) : option (expander * Z * bool * bool) :=
  if (1 <=? slot_index) && (slot_index <=? 4)
  then Some (gpioExp1, 4 * (slot_index - 1), false, false)
  else if (5 <=? slot_index) && (slot_index <=? 8)
  then Some (gpioExp2, 4 * (slot_index - 5), true, slot_index =? 8)
  else if (9 <=? slot_index) && (slot_index <=? 12)
  then Some (gpioExp3, 4 * (slot_index - 9), false, false)
  else if (13 <=? slot_index) && (slot_index <=? 16)
  then Some (gpioExp4, 4 * (slot_index - 13), false, false)
  else None.

(** The 4-bit nibble at bit [offset] of a 16-bit port value. *)
Definition nibble (port offset : Z) : Z := (port mod 65536) / 2 ^ offset mod 16.

(** Output bit 0 = input bit 0, output bit 1 = input bit 2, output bit 2 =
    input bit 1. *)
Definition twisted_permutation (code : Z) : Z :=
  Z.b2z (Z.testbit code 0) + 2 * Z.b2z (Z.testbit code 2)
  + 4 * Z.b2z (Z.testbit code 1).

Definition canonical_mapping (code : Z) : Z :=
  match code with
  | 0 => PRIMO_MAGNET_NONE
  | 2 => PRIMO_MAGNET_FUNCTION
  | 3 => PRIMO_MAGNET_FORWARD
  | 4 => PRIMO_MAGNET_NONE
  | 5 => PRIMO_MAGNET_LEFT
  | 6 => PRIMO_MAGNET_RIGHT
  | 7 => PRIMO_MAGNET_NONE
  | _ => PRIMO_MAGNET_NONE
  end.

Definition inverted_mapping (code : Z) : Z :=
  match code with
  | 2 => PRIMO_MAGNET_FUNCTION
  | 3 => PRIMO_MAGNET_RIGHT
  | 4 => PRIMO_MAGNET_FUNCTION
  | 5 => PRIMO_MAGNET_LEFT
  | 6 => PRIMO_MAGNET_FORWARD
  | 7 => PRIMO_MAGNET_NONE
  | _ => PRIMO_MAGNET_NONE
  end.

(** The corrected 3-bit code of a slot, given what its port group reads. *)
Definition corrected_code (ports : expander -> Z) (slot_index : Z) : Z :=
  match slot_wiring slot_index with
  | Some (group, offset, _, twisted) =>
      let code := nibble (ports group) offset mod 8 in
      if twisted then twisted_permutation code else code
  | None => 0
  end.

Definition slot_inverted (slot_index : Z) : bool :=
  match slot_wiring slot_index with
  | Some (_, _, invert_magnet, _) => invert_magnet
  | None => false
  end.

Definition read_slot (ports : expander -> Z) (slot_index : Z) : Z :=
  let code := corrected_code ports slot_index in
  if slot_inverted slot_index then inverted_mapping code
  else canonical_mapping code.

(** ** Invariants of the frame-building pass *)

(** The indices [lo], [lo + 1], ... ([n] of them). *)
Definition consecutive (lo : Z) (n : nat) : list Z :=
  map (fun k => lo + Z.of_nat k) (seq 0 n).

(** No Stop is followed by a non-Stop among the elements of [p] from index
    8 up to (excluding) [limit]. *)
Definition gapless_upto (p : list Z) (limit : Z) : Prop :=
  forall (i j : nat) (y : Z),
    8 <= Z.of_nat i -> (i < j)%nat -> Z.of_nat j < limit ->
    p !! i = Some PRIMO_COMMAND_STOP -> p !! j = Some y ->
    y = PRIMO_COMMAND_STOP.

(** No element of [p] from index 8 up to (excluding) [limit] is a Stop. *)
Definition stopless_upto (p : list Z) (limit : Z) : Prop :=
  forall (i : nat) (x : Z),
    8 <= Z.of_nat i < limit -> p !! i = Some x -> x <> PRIMO_COMMAND_STOP.

(** What holds of the machine [s] at any point of a pass that started in
    [s0] (with [current_element] at 8). *)
Record base_inv (s0 s : machine) : Prop := {
  bi_length : length (packet s) = 32%nat;
  bi_low : 8 <= current_element s;
  bi_untouched : forall i : nat,
      (i < 8)%nat \/ current_element s <= Z.of_nat i ->
      packet s !! i = packet s0 !! i;
  bi_radio : radio s = radio s0;
  bi_ack : ackMessageCount s = ackMessageCount s0;
  bi_valid : forall (i : nat) (x : Z),
      8 <= Z.of_nat i < current_element s ->
      packet s !! i = Some x -> is_command x = true;
  bi_gapless : gapless_upto (packet s) (current_element s);
  bi_stores : exists new : list (Z * Z),
      stores s = stores s0 ++ new /\
      map fst new = consecutive 8 (Z.to_nat (current_element s - 8)) /\
      Forall (fun st => is_command (snd st) = true) new
}.

(** During the scan of the buttons: [budget] bounds the appends still to
    come, and nothing but movement commands has been stored as long as
    [terminated] is clear. *)
Definition scan_inv (s0 : machine) (budget : Z) (s : machine) : Prop :=
  base_inv s0 s /\ 0 <= budget /\ current_element s + budget <= 126 /\
  (terminated s = 0 -> stopless_upto (packet s) (current_element s)).

(** The command region holds no Stop followed by a non-Stop. *)
Definition gapless (frame : list Z) : Prop :=
  gapless_upto frame PRIMO_NRF24L01_MAX_PACKET_SIZE.

(** The frame starts with [header], is 32 bytes long and carries command
    bytes from offset 8 on. *)
Definition frame_layout (header : list Z) (frame : list Z) : Prop :=
  length frame = 32%nat /\ take 8 frame = header /\
  Forall (fun c => is_command c = true) (drop 8 frame).

(** The wire format as the specification words it: 32 bytes, the protocol
    tag 0xDE1D8758 and the identity drawn at boot in little-endian order,
    then 24 command bytes. *)
Definition wire_frame (identity : Z) (frame : list Z) : Prop :=
  length frame = 32%nat /\
  take 4 frame = [0x58; 0x87; 0x1D; 0xDE] /\
  le32 (take 4 frame) = PRIMO_ID /\
  take 4 (drop 4 frame) = bytes_of_long (to_long identity) /\
  le32 (take 4 (drop 4 frame)) = to_uint32 identity /\
  length (drop 8 frame) = 24%nat /\
  Forall (fun c => c = PRIMO_COMMAND_STOP \/ c = PRIMO_COMMAND_FORWARD \/
                   c = PRIMO_COMMAND_LEFT \/ c = PRIMO_COMMAND_RIGHT)
         (drop 8 frame).

(** ** Independence from the radio *)

(** Two machines that differ at most in the acknowledgement counter and in
    the two logs. *)
Definition agree (s s' : machine) : Prop :=
  packet s = packet s' /\ current_element s = current_element s' /\
  terminated s = terminated s' /\ port_reads s = port_reads s'.

(** A computation whose result and whose effect on the packet, on
    [current_element], on [terminated] and on the port reads do not depend
    on the acknowledgement counter or on the logs. *)
Definition oblivious {A : Type} (c : M A) : Prop :=
  forall s s' : machine,
    agree s s' -> eval c s = eval c s' /\ agree (exec c s) (exec c s').

(** The gestures among the events, with no interrupt raised. *)
Fixpoint gestures_only (es : list event) : list event :=
  match es with
  | [] => []
  | Gesture env _ :: es' => Gesture env [] :: gestures_only es'
  | RadioIrq _ :: es' => gestures_only es'
  end.

(** ** Function expansion as the specification words it *)

(** The command an auxiliary slot contributes: Forward, Left and Right are
    appended, anything else is skipped. *)
Definition command_of_magnet (magnet : Z) : option Z :=
  if magnet =? PRIMO_MAGNET_FORWARD then Some PRIMO_COMMAND_FORWARD
  else if magnet =? PRIMO_MAGNET_LEFT then Some PRIMO_COMMAND_LEFT
  else if magnet =? PRIMO_MAGNET_RIGHT then Some PRIMO_COMMAND_RIGHT
  else None.


(** Appending the commands [cmds] one after the other. *)
Definition append_all (cmds : list Z) (s : machine) : machine :=
  fold_left (fun s' c => exec (append_packet c) s') cmds s.

(** The stores that appending [cmds] makes when [current_element] is
    [at_]. *)
Fixpoint place (at_ : Z) (cmds : list Z) : list (Z * Z) :=
  match cmds with
  | [] => []
  | c :: cmds' => (at_, c) :: place (to_char (at_ + 1)) cmds'
  end.

(** ** Observing one pass *)

(** The stores one gesture makes into [packet], oldest first. *)
Definition pass_stores (env : port_oracle) (s : machine) : list (Z * Z) :=
  drop (length (stores s)) (stores (loop env [] s)).

(** All stores of [st] land inside the 32-byte packet. *)
Definition stores_in_packet (st : list (Z * Z)) : bool :=
  forallb (fun x => (0 <=? fst x) && (fst x <? PRIMO_NRF24L01_MAX_PACKET_SIZE)) st.

(** The number of movement commands among the stores [st]. *)
Fixpoint count_movements (st : list (Z * Z)) : nat :=
  match st with
  | [] => 0%nat
  | x :: st' => if is_movement (snd x) then S (count_movements st')
                else count_movements st'
  end.

(** ** The LEDs, the delays and the rest of setup and loop *)

(** What the sketch asks of the hardware besides sending frames, in the
    order it asks: the user-button port set to input, the calls that
    configure the radio and the expanders, writes to expander pins and
    delays.  Serial output ([Serial.begin], [printf_begin], [debug_printf],
    [radio.printDetails]) is left out. *)
Inductive io_op : Type :=
  | ButtonInput
  | RadioBegin
  | EnableAckPayload
  | OpenWritingPipe (address : Z)
  | AttachInterrupt (number : Z)
  | ExpanderBegin (e : expander)
  | PinModeOutput (e : expander) (pin : Z)
  | DigitalWrite (e : expander) (pin value : Z)
  | Delay (ms : Z).

(** The machine of the frame together with the two globals of the LED
    replay and the log of the hardware requests, oldest first. *)
Record panel : Type := Panel {
  core : machine;
  movement_delay : Z;
  led_fn_terminate : Z;
  io : list io_op
}.

Definition set_core (m : machine) (p : panel) : panel :=
  Panel m (movement_delay p) (led_fn_terminate p) (io p).

Definition set_movement_delay (v : Z) (p : panel) : panel :=
  Panel (core p) v (led_fn_terminate p) (io p).

Definition set_led_fn_terminate (v : Z) (p : panel) : panel :=
  Panel (core p) (movement_delay p) v (io p).

Definition log_io (op : io_op) (p : panel) : panel :=
  Panel (core p) (movement_delay p) (led_fn_terminate p) (io p ++ [op]).

(** The state monad over [panel]. *)
Definition P (A : Type) : Type := panel -> A * panel.

Definition pret {A : Type} (a : A) : P A := fun p => (a, p).

Definition pbind {A B : Type} (c : P A) (k : A -> P B) : P B :=
  fun p => k (fst (c p)) (snd (c p)).

Definition pmodify (f : panel -> panel) : P unit := fun p => (tt, f p).

Definition pexec {A : Type} (c : P A) (p : panel) : panel := snd (c p).

Definition peval {A : Type} (c : P A) (p : panel) : A := fst (c p).

(** A computation on the machine of the frame, run inside the panel. *)
Definition lift {A : Type} (c : M A) : P A :=
  fun p => (fst (c (core p)), set_core (snd (c (core p))) p).

Declare Scope panel_scope.
Delimit Scope panel_scope with panel.
Notation "'let+' x ':=' c 'in' k" := (pbind c (fun x => k))
  (at level 10, x name, c at level 100, k at level 200) : panel_scope.
Notation "c ';;;' k" := (pbind c (fun _ => k))
  (at level 100, right associativity) : panel_scope.

(** [for (x = lo; x <= hi; x++) body(x)] with [n] iterations left. *)
Fixpoint pfor_up (n : nat) (x : Z) (body : Z -> P unit) : P unit :=
  match n with
  | O => pret tt
  | S n' => pbind (body x) (fun _ => pfor_up n' (x + 1) body)
  end.

Definition pfor_range (lo hi : Z) (body : Z -> P unit) : P unit :=
  pfor_up (Z.to_nat (hi + 1 - lo)) lo body.

(** [n] turns of a loop whose condition is an input of the sketch. *)
Fixpoint prepeat (n : nat) (c : P unit) : P unit :=
  match n with
  | O => pret tt
  | S n' => pbind c (fun _ => prepeat n' c)
  end.

Local Open Scope panel_scope.

Definition digitalWrite (e : expander) (pin value : Z) : P unit :=
  pmodify (log_io (DigitalWrite e pin value)).

Definition pinMode_OUTPUT (e : expander) (pin : Z) : P unit :=
  pmodify (log_io (PinModeOutput e pin)).

Definition delay (ms : Z) : P unit := pmodify (log_io (Delay ms)).

(** ** write_led *)

Definition write_led (led_number onoff : Z) : P unit :=
  match led_number with
  | 1 => digitalWrite gpioExp1 3 (1 - onoff)
  | 2 => digitalWrite gpioExp1 7 (1 - onoff)
  | 3 => digitalWrite gpioExp1 11 (1 - onoff)
  | 4 => digitalWrite gpioExp1 15 (1 - onoff)
  | 5 => digitalWrite gpioExp2 3 (1 - onoff)
  | 6 => digitalWrite gpioExp2 7 (1 - onoff)
  | 7 => digitalWrite gpioExp2 11 (1 - onoff)
  | 8 => digitalWrite gpioExp2 15 (1 - onoff)
  | 9 => digitalWrite gpioExp3 3 (1 - onoff)
  | 10 => digitalWrite gpioExp3 7 (1 - onoff)
  | 11 => digitalWrite gpioExp3 11 (1 - onoff)
  | 12 => digitalWrite gpioExp3 15 (1 - onoff)
  | 13 => digitalWrite gpioExp4 3 (1 - onoff)
  | 14 => digitalWrite gpioExp4 7 (1 - onoff)
  | 15 => digitalWrite gpioExp4 11 (1 - onoff)
  | 16 => digitalWrite gpioExp4 15 (1 - onoff)
  | _ => pret tt
  end.

(** [for (i = 1; i <= 16; i++) write_led(i, onoff);] *)
Definition write_all_leds (onoff : Z) : P unit :=
  pfor_range 1 16 (fun i => write_led i onoff).

(** ** setup *)

(** [const uint64_t pipe] *)
Abbreviation pipe := 0xE8E8F0F0E1 (only parsing).

(** Body of the loop over [led_loop]. *)
Definition led_loop_body (led_loop : Z) : P unit :=
  delay 100 ;;;
  write_all_leds 1 ;;;
  delay 100 ;;;
  write_all_leds 0.

(** [setup], [random_value] being what [random()] returns in
    [initialise_packet]. *)
Definition setup_board (random_value : Z) : P unit :=
  pmodify (log_io ButtonInput) ;;;
  pmodify (log_io RadioBegin) ;;;
  pmodify (log_io EnableAckPayload) ;;;
  pmodify (log_io (OpenWritingPipe pipe)) ;;;
  pmodify (log_io (AttachInterrupt 1)) ;;;
  pmodify (log_io (ExpanderBegin gpioExp1)) ;;;
  pmodify (log_io (ExpanderBegin gpioExp2)) ;;;
  pmodify (log_io (ExpanderBegin gpioExp3)) ;;;
  pmodify (log_io (ExpanderBegin gpioExp4)) ;;;
  pinMode_OUTPUT gpioExp1 3 ;;; pinMode_OUTPUT gpioExp1 7 ;;;
  pinMode_OUTPUT gpioExp1 11 ;;; pinMode_OUTPUT gpioExp1 15 ;;;
  pinMode_OUTPUT gpioExp2 3 ;;; pinMode_OUTPUT gpioExp2 7 ;;;
  pinMode_OUTPUT gpioExp2 11 ;;; pinMode_OUTPUT gpioExp2 15 ;;;
  pinMode_OUTPUT gpioExp3 3 ;;; pinMode_OUTPUT gpioExp3 7 ;;;
  pinMode_OUTPUT gpioExp3 11 ;;; pinMode_OUTPUT gpioExp3 15 ;;;
  pinMode_OUTPUT gpioExp4 3 ;;; pinMode_OUTPUT gpioExp4 7 ;;;
  pinMode_OUTPUT gpioExp4 11 ;;; pinMode_OUTPUT gpioExp4 15 ;;;
  lift (initialise_packet random_value) ;;;
  pfor_range 1 3 led_loop_body.

(** The statics of the sketch at reset: all zero, nothing asked yet. *)
Definition panel_power_on : panel := Panel power_on 0 0 [].

Definition boot (random_value : Z) : panel :=
  pexec (setup_board random_value) panel_power_on.

(** ** The LED phases of loop *)

(** Body of the loop over [button] that runs while the user-button is
    held: the LED of a slot is lit when a block is in it. *)
Definition led_scan_body (env : port_oracle) (button : Z) : P unit :=
  let+ magnet := lift (check_button env button) in
  match magnet with
  | PRIMO_MAGNET_FORWARD => write_led button 1
  | PRIMO_MAGNET_RIGHT => write_led button 1
  | PRIMO_MAGNET_LEFT => write_led button 1
  | PRIMO_MAGNET_FUNCTION => write_led button 1
  | PRIMO_MAGNET_NONE => write_led button 0
  | _ => pret tt
  end.

(** [for (button = 1; button <= 16; button++)], one turn of
    [while (PRIMO_BBIT)]. *)
Definition led_scan_round (env : port_oracle) : P unit :=
  pfor_range 1 16 (led_scan_body env).

Definition get_led_fn_terminate : P Z := fun p => (led_fn_terminate p, p).

Definition get_movement_delay : P Z := fun p => (movement_delay p, p).

(** Body of the first loop over [function_element] of the replay. *)
Definition replay_function_body (env : port_oracle) (function_element : Z)
  : P unit :=
  let+ t := get_led_fn_terminate in
  if t =? 0 then
    let+ magnet := lift (check_button env (12 + function_element)) in
    if magnet =? PRIMO_MAGNET_NONE
    then pmodify (set_led_fn_terminate 1)
    else
      write_led (12 + function_element) 0 ;;;
      let+ again := lift (check_button env (12 + function_element)) in
      if again =? PRIMO_MAGNET_FORWARD then delay 4500 else delay 3000
  else pret tt.

(** Body of the second loop over [function_element] of the replay: "turn
    function lights back on after function executed". *)
Definition relight_body (env : port_oracle) (function_element : Z) : P unit :=
  let+ magnet := lift (check_button env (12 + function_element)) in
  if magnet =? PRIMO_MAGNET_NONE then pret tt
  else write_led (12 + function_element) 1.

(** Body of the replay loop over [button]. *)
Definition replay_body (env : port_oracle) (button : Z) : P unit :=
  let+ t := lift get_terminated in
  if t =? 0 then
    let+ magnet := lift (check_button env button) in
    match magnet with
    | PRIMO_MAGNET_FORWARD =>
        write_led button 0 ;;; pmodify (set_movement_delay 4500)
    | PRIMO_MAGNET_RIGHT =>
        write_led button 0 ;;; pmodify (set_movement_delay 3000)
    | PRIMO_MAGNET_LEFT =>
        write_led button 0 ;;; pmodify (set_movement_delay 3000)
    | PRIMO_MAGNET_FUNCTION =>
        write_led button 0 ;;;
        pmodify (set_led_fn_terminate 0) ;;;
        pfor_range 1 4 (replay_function_body env) ;;;
        pfor_range 1 4 (relight_body env) ;;;
        pmodify (set_movement_delay 0)
    | PRIMO_MAGNET_NONE => lift (modify (set_terminated 1))
    | _ => pret tt
    end ;;;
    let+ d := get_movement_delay in
    delay d
  else pret tt.

(** From [led_fn_terminate = 0] to the end of the replay loop; [terminated]
    has been cleared just before. *)
Definition replay (env : port_oracle) : P unit :=
  pmodify (set_led_fn_terminate 0) ;;;
  pfor_range 1 12 (replay_body env).

(** ** loop, whole *)

(** One pass of [loop].  The user-button is an input: [rounds] is the number
    of turns [while (PRIMO_BBIT)] makes, [held] what the ports show during
    them, [env] and [qs] what they show and what the radio raises while the
    frame is built and sent (as in [loop]), [after] what the ports show
    during the replay; port reads are counted from the start of each of the
    three phases. *)
Definition loop_whole (held : port_oracle) (rounds : nat)
    (env : port_oracle) (qs : list irq) (after : port_oracle) : P unit :=
  write_all_leds 0 ;;;
  lift (modify reset_port_reads) ;;;
  prepeat rounds (led_scan_round held) ;;;
  lift (modify (loop env qs)) ;;;
  lift (modify reset_port_reads) ;;;
  replay after ;;;
  write_all_leds 0.

(** ** Observing the LEDs and the delays *)

Definition expander_eqb (e e' : expander) : bool :=
  match e, e' with
  | gpioExp1, gpioExp1 | gpioExp2, gpioExp2
  | gpioExp3, gpioExp3 | gpioExp4, gpioExp4 => true
  | _, _ => false
  end.

(** The value last written to [pin] of expander [e], if any. *)
Fixpoint pin_level (ops : list io_op) (e : expander) (pin : Z) : option Z :=
  match ops with
  | [] => None
  | op :: ops' =>
      match pin_level ops' e pin with
      | Some v => Some v
      | None =>
          match op with
          | DigitalWrite e' pin' v =>
              if expander_eqb e e' && (pin =? pin') then Some v else None
          | _ => None
          end
      end
  end.

(** The pin that drives the LED of a slot: bit 3 of the nibble its hall
    sensor is read from. *)
Definition led_pin (slot_index : Z) : option (expander * Z) :=
  match slot_wiring slot_index with
  | Some (group, offset, _, _) => Some (group, offset + 3)
  | None => None
  end.

(** The level last written to the LED of a slot: 0 lights it (the LEDs are
    driven low), 1 puts it out. *)
Definition led_level (ops : list io_op) (slot_index : Z) : option Z :=
  match led_pin slot_index with
  | Some (e, pin) => pin_level ops e pin
  | None => None
  end.

(** The sum of the delays asked for, in milliseconds. *)
Fixpoint total_delay (ops : list io_op) : Z :=
  match ops with
  | [] => 0
  | Delay ms :: ops' => ms + total_delay ops'
  | _ :: ops' => total_delay ops'
  end.

(** ** What the LED phases leave alone *)

(** Two machines with the same packet, the same logs, the same
    acknowledgement counter and the same mark [overrun]. *)
Definition same_frame (m m' : machine) : Prop :=
  packet m = packet m' /\ stores m = stores m' /\ radio m = radio m' /\
  ackMessageCount m = ackMessageCount m' /\ overrun m = overrun m'.

(** A computation of the panel that changes neither the packet, nor the
    logs of the machine, nor the acknowledgement counter. *)
Definition frame_safe {A : Type} (c : P A) : Prop :=
  forall p : panel, same_frame (core (pexec c p)) (core p).



(** ** Where a pass leaves the array *)

(** The highest value [current_element] can have after [j] turns of the
    scan loop: four appends for each of the slots 1 to 16, none in turn 17
    (which terminates the sequence at the latest), one Stop in each turn
    after it. *)
Definition scan_reach (j : Z) : Z :=
  if j <=? 16 then 8 + 4 * j else 55 + j.

(** ** The packet as its stores make it *)

(** [p] after the store [x] as [write_packet] makes it. *)
Definition store_at (p : list Z) (x : Z * Z) : list Z :=
  if (0 <=? fst x) && (fst x <? PRIMO_NRF24L01_MAX_PACKET_SIZE)
  then <[Z.to_nat (fst x) := snd x]> p else p.

(** [p] after the stores [st], oldest first. *)
Definition apply_stores (st : list (Z * Z)) (p : list Z) : list Z :=
  fold_left store_at st p.

(** The value of the last store of [st] that lands on the element [i] of
    the array, if there is one. *)
Fixpoint last_store (st : list (Z * Z)) (i : nat) : option Z :=
  match st with
  | [] => None
  | x :: st' =>
      match last_store st' i with
      | Some v => Some v
      | None =>
          if (0 <=? fst x) && (fst x <? PRIMO_NRF24L01_MAX_PACKET_SIZE)
             && (Z.to_nat (fst x) =? i)%nat
          then Some (snd x) else None
      end
  end.

(** Two machines with the same [current_element], [terminated] and count
    of port reads. *)
Definition same_control (s s' : machine) : Prop :=
  current_element s = current_element s' /\ terminated s = terminated s' /\
  port_reads s = port_reads s'.

(** The machine [s1] is [s] after the stores [new]: they are what the log
    has gained, the packet is the one of [s] with them made, and the
    machine is marked [overrun] if it was or if one of them left the
    array. *)
Definition made (new : list (Z * Z)) (s s1 : machine) : Prop :=
  stores s1 = stores s ++ new /\
  packet s1 = apply_stores new (packet s) /\
  overrun s1 = overrun s || negb (stores_in_packet new).

(** A computation that never looks at the packet: from two machines with
    the same control it returns the same result, ends with the same
    control and makes the same stores, which are all it does to the
    packet and to the mark [overrun]. *)
Definition packet_blind {A : Type} (c : M A) : Prop :=
  forall s s' : machine,
    same_control s s' ->
    eval c s = eval c s' /\ same_control (exec c s) (exec c s') /\
    exists new : list (Z * Z), made new s (exec c s) /\ made new s' (exec c s').

(** ** The replay of a row of movement blocks *)

(** The time the replay gives a movement block of the twelve slots. *)
Definition magnet_delay (magnet : Z) : Z :=
  if magnet =? PRIMO_MAGNET_FORWARD then 4500 else 3000.

(** The write that gives the LED of a slot the level [value]. *)
Definition led_write (slot_index value : Z) : list io_op :=
  match led_pin slot_index with
  | Some (e, pin) => [DigitalWrite e pin value]
  | None => []
  end.

(** What a row of [k] movement blocks followed by an empty slot asks of the
    pins and of the clock, the row starting in slot [x] and being read from
    the [r]-th port read on, [md] being [movement_delay] before it: for each
    block its LED is put out and its time waited, and at the empty slot the
    time of the last block is waited once more. *)
Fixpoint movement_row (env : port_oracle) (r : nat) (x : Z) (md : Z) (k : nat)
  : list io_op :=
  match k with
  | O => [Delay md]
  | S k' =>
      let d := magnet_delay (read_slot (env r) x) in
      led_write x 1 ++ Delay d :: movement_row env (S r) (x + 1) d k'
  end.

(** What the first [k] slots of the function line ask of the pins and of
    the clock when the replay comes to a Function block, the line being
    read from the [r]-th port read on and [fe] being the place in the line
    of its first slot: two reads for each slot, its LED put out after the
    first and the time fixed by the second. *)
Fixpoint function_row (env : port_oracle) (r : nat) (fe : Z) (k : nat)
  : list io_op :=
  match k with
  | O => []
  | S k' =>
      led_write (12 + fe) 1
      ++ Delay (magnet_delay (read_slot (env (S r)) (12 + fe)))
         :: function_row env (S (S r)) (fe + 1) k'
  end.

(** ** A run of interrupts *)

(** How many of the requests [qs] report a transmission done or failed. *)
Fixpoint power_downs (qs : list irq) : nat :=
  match qs with
  | [] => 0%nat
  | q :: qs' =>
      if irq_tx q || irq_fail q then S (power_downs qs') else power_downs qs'
  end.

(** The counter read at the last of the requests [qs] that reports a
    message received, if there is one. *)
Fixpoint last_received (qs : list irq) : option Z :=
  match qs with
  | [] => None
  | q :: qs' =>
      match last_received qs' with
      | Some v => Some v
      | None => if irq_rx q then Some (to_uint32 (irq_payload q)) else None
      end
  end.

(** ** Frames without a stale command *)

(** The last four bytes of the packet hold Stop. *)
Definition tail_is_stop (p : list Z) : Prop :=
  forall i : nat, (28 <= i < 32)%nat -> p !! i = Some PRIMO_COMMAND_STOP.

(** No store of [st] puts a movement at index 28 or beyond, which is where
    the stop-filling loop ends. *)
Definition late_stores_are_stops (st : list (Z * Z)) : bool :=
  forallb (fun x => (fst x <? PRIMO_MAX_BUTTON) || (snd x =? PRIMO_COMMAND_STOP)) st.


(** * Properties *)

(** ** Machine integers *)

Lemma land_low_bits (z n : Z) : 0 <= n -> Z.land z (Z.ones n) = z mod 2 ^ n.
Proof. intros Hn. now apply Z.land_ones. Qed.

Lemma land_7 (z : Z) : Z.land z 7 = z mod 8.
Proof. exact (land_low_bits z 3 ltac:(lia)). Qed.

Lemma land_15 (z : Z) : Z.land z 15 = z mod 16.
Proof. exact (land_low_bits z 4 ltac:(lia)). Qed.

Lemma to_int_cases (z : Z) :
  to_int z = z mod 65536 \/ to_int z = z mod 65536 - 65536.
Proof.
  unfold to_int, wrap_signed. change (2 ^ 16) with 65536.
  destruct (z mod 65536 <? 2 ^ (16 - 1)); auto.
Qed.

(** Shifting the sign-extended [int] right and masking with [0x0F] yields
    the nibble of the 16-bit port value. *)
Lemma shifted_nibble (h k : Z) :
  k = 0 \/ k = 4 \/ k = 8 \/ k = 12 ->
  Z.land (Z.shiftr (to_int h) k) 0x0F = nibble h k.
Proof.
  intros Hk. unfold nibble. rewrite land_15, Z.shiftr_div_pow2 by lia.
  destruct (to_int_cases h) as [-> | ->]; [reflexivity|].
  destruct Hk as [-> | [-> | [-> | ->]]].
  - change (2 ^ 0) with 1. rewrite !Z.div_1_r.
    replace (h mod 65536 - 65536) with (h mod 65536 + (-4096) * 16) by lia.
    now rewrite Z_mod_plus_full.
  - change (2 ^ 4) with 16.
    replace (h mod 65536 - 65536) with (h mod 65536 + (-4096) * 16) by lia.
    rewrite Z_div_plus_full by lia.
    replace (-4096) with ((-256) * 16) by lia. now rewrite Z_mod_plus_full.
  - change (2 ^ 8) with 256.
    replace (h mod 65536 - 65536) with (h mod 65536 + (-256) * 256) by lia.
    rewrite Z_div_plus_full by lia.
    replace (-256) with ((-16) * 16) by lia. now rewrite Z_mod_plus_full.
  - change (2 ^ 12) with 4096.
    replace (h mod 65536 - 65536) with (h mod 65536 + (-16) * 4096) by lia.
    rewrite Z_div_plus_full by lia.
    replace (-16) with ((-1) * 16) by lia. now rewrite Z_mod_plus_full.
Qed.

Lemma low_nibble (h : Z) : Z.land (to_int h) 0x0F = nibble h 0.
Proof.
  rewrite <- (shifted_nibble h 0) by lia. now rewrite Z.shiftr_0_r.
Qed.

Lemma three_bit_cases (c : Z) :
  0 <= c < 8 ->
  c = 0 \/ c = 1 \/ c = 2 \/ c = 3 \/ c = 4 \/ c = 5 \/ c = 6 \/ c = 7.
Proof. lia. Qed.

Ltac three_bit c H :=
  destruct (three_bit_cases c H) as [-> | [-> | [-> | [-> | [-> | [-> | [-> | ->]]]]]]].

Lemma untwist_is_twisted_permutation (c : Z) :
  0 <= c < 8 -> untwist c = twisted_permutation c.
Proof. intros H. three_bit c H; reflexivity. Qed.

Lemma untwist_range (c : Z) : 0 <= c < 8 -> 0 <= untwist c < 8.
Proof. intros H. three_bit c H; vm_compute; split; congruence. Qed.

(** ** check_button *)

Lemma convert_to_button_code_mapping (invert_magnet : bool) (code : Z) :
  convert_to_button_code invert_magnet code =
  if invert_magnet then inverted_mapping code else canonical_mapping code.
Proof.
  destruct invert_magnet, code as [|p|p]; try reflexivity;
    do 3 (try destruct p as [p|p|]); reflexivity.
Qed.

Lemma nibble_range (port offset : Z) : 0 <= nibble port offset < 16.
Proof. unfold nibble. apply Z.mod_pos_bound. lia. Qed.

Lemma button_cases (b : Z) :
  1 <= b <= 16 ->
  b = 1 \/ b = 2 \/ b = 3 \/ b = 4 \/ b = 5 \/ b = 6 \/ b = 7 \/ b = 8 \/
  b = 9 \/ b = 10 \/ b = 11 \/ b = 12 \/ b = 13 \/ b = 14 \/ b = 15 \/ b = 16.
Proof. lia. Qed.

Ltac each_button b H :=
  destruct (button_cases b H)
    as [-> | [-> | [-> | [-> | [-> | [-> | [-> | [-> |
       [-> | [-> | [-> | [-> | [-> | [-> | [-> | ->]]]]]]]]]]]]]]].

Section BoardFacts.

Variable env : port_oracle.

Lemma select_button_default (b : Z) :
  ~ (1 <= b <= 16) -> select_button env b = ret (0, 0, false, false).
Proof.
  intros Hb. destruct b as [|p|p]; try reflexivity.
  do 5 (try destruct p as [p|p|]); try reflexivity; exfalso; apply Hb; lia.
Qed.

Lemma slot_wiring_default (b : Z) : ~ (1 <= b <= 16) -> slot_wiring b = None.
Proof.
  intros Hb. unfold slot_wiring.
  repeat match goal with
  | |- context [?x <=? ?y] => destruct (Z.leb_spec x y)
  end; cbn; try reflexivity; exfalso; apply Hb; lia.
Qed.

(** [check_button] only reads: one port read for the buttons 1 to 16, none
    for any other argument. *)
Lemma check_button_exec (b : Z) (s : machine) :
  exec (check_button env b) s =
  if (1 <=? b) && (b <=? 16) then count_port_read s else s.
Proof.
  destruct (Z.leb_spec 1 b), (Z.leb_spec b 16); cbn [andb].
  - assert (H1 : 1 <= b <= 16) by lia. each_button b H1; reflexivity.
  - unfold check_button. rewrite select_button_default by lia. reflexivity.
  - unfold check_button. rewrite select_button_default by lia. reflexivity.
  - unfold check_button. rewrite select_button_default by lia. reflexivity.
Qed.

(** [check_button] computes [read_slot] on what the port shows at that
    moment. *)
Lemma check_button_eval (b : Z) (s : machine) :
  eval (check_button env b) s = read_slot (env (port_reads s)) b.
Proof.
  destruct (Z.leb_spec 1 b), (Z.leb_spec b 16).
  1: { assert (H1 : 1 <= b <= 16) by lia.
       each_button b H1;
       unfold eval, check_button, select_button, bind, ret, readPort;
       cbn [fst snd]; rewrite convert_to_button_code_mapping;
       unfold read_slot, corrected_code, slot_inverted;
       cbn [slot_wiring Z.leb Z.compare Pos.compare Pos.compare_cont andb Z.eqb Pos.eqb
            Z.sub Z.mul Z.add Z.opp Z.pos_sub Pos.mul Pos.add Pos.pred_double Z.double
            Z.succ_double Z.pred_double];
       rewrite ?land_7;
       first [ rewrite low_nibble | rewrite shifted_nibble by lia ];
       try reflexivity.
       rewrite untwist_is_twisted_permutation; [reflexivity|].
       apply Z.mod_pos_bound; lia. }
  all: unfold eval, check_button; rewrite select_button_default by lia;
       unfold read_slot, corrected_code, slot_inverted;
       rewrite slot_wiring_default by lia; reflexivity.
Qed.

End BoardFacts.

(** ** The state monad *)

Lemma exec_bind {A B : Type} (c : M A) (k : A -> M B) (s : machine) :
  exec (bind c k) s = exec (k (eval c s)) (exec c s).
Proof. reflexivity. Qed.

Lemma eval_bind {A B : Type} (c : M A) (k : A -> M B) (s : machine) :
  eval (bind c k) s = eval (k (eval c s)) (exec c s).
Proof. reflexivity. Qed.

Lemma exec_modify (f : machine -> machine) (s : machine) :
  exec (modify f) s = f s.
Proof. reflexivity. Qed.

Lemma for_up_S (n : nat) (x : Z) (body : Z -> M unit) :
  for_up (S n) x body = bind (body x) (fun _ => for_up n (x + 1) body).
Proof. reflexivity. Qed.

(** An invariant indexed by the number of iterations made carries through
    a counting loop. *)
Lemma for_up_invariant (Inv : nat -> machine -> Prop) (body : Z -> M unit) :
  forall (n k : nat) (x : Z) (s : machine),
    (forall (j : nat) (s' : machine),
        (j < n)%nat -> Inv (k + j)%nat s' ->
        Inv (k + S j)%nat (exec (body (x + Z.of_nat j)) s')) ->
    Inv k s -> Inv (k + n)%nat (exec (for_up n x body) s).
Proof.
  induction n as [|n IH]; intros k x s Hstep H0.
  - rewrite Nat.add_0_r. exact H0.
  - cbn [for_up]. rewrite exec_bind.
    replace (k + S n)%nat with (S k + n)%nat by lia.
    apply IH.
    + intros j s' Hj Hs'.
      replace (x + 1 + Z.of_nat j) with (x + Z.of_nat (S j)) by lia.
      replace (S k + S j)%nat with (k + S (S j))%nat by lia.
      apply Hstep; [lia|].
      replace (k + S j)%nat with (S k + j)%nat by lia. exact Hs'.
    + specialize (Hstep 0%nat s). rewrite Z.add_0_r, Nat.add_0_r in Hstep.
      replace (S k) with (k + 1)%nat by lia. apply Hstep; [lia | exact H0].
Qed.

(** ** Magnet codes *)

Lemma convert_to_button_code_range (invert_magnet : bool) (code : Z) :
  let m := convert_to_button_code invert_magnet code in
  m = PRIMO_MAGNET_NONE \/ m = PRIMO_MAGNET_FORWARD \/ m = PRIMO_MAGNET_RIGHT \/
  m = PRIMO_MAGNET_LEFT \/ m = PRIMO_MAGNET_FUNCTION.
Proof.
  destruct invert_magnet, code as [|p|p]; cbn; auto;
    do 3 (try destruct p as [p|p|]); cbn; auto 6.
Qed.

Lemma read_slot_range (ports : expander -> Z) (b : Z) :
  let m := read_slot ports b in
  m = PRIMO_MAGNET_NONE \/ m = PRIMO_MAGNET_FORWARD \/ m = PRIMO_MAGNET_RIGHT \/
  m = PRIMO_MAGNET_LEFT \/ m = PRIMO_MAGNET_FUNCTION.
Proof.
  unfold read_slot.
  rewrite <- convert_to_button_code_mapping.
  apply convert_to_button_code_range.
Qed.

Lemma check_button_range (env : port_oracle) (b : Z) (s : machine) :
  let m := eval (check_button env b) s in
  m = PRIMO_MAGNET_NONE \/ m = PRIMO_MAGNET_FORWARD \/ m = PRIMO_MAGNET_RIGHT \/
  m = PRIMO_MAGNET_LEFT \/ m = PRIMO_MAGNET_FUNCTION.
Proof. cbv zeta. rewrite check_button_eval. apply read_slot_range. Qed.

(** ** Stores through current_element *)

Lemma to_char_small (z : Z) : -128 <= z < 128 -> to_char z = z.
Proof.
  intros Hz. unfold to_char, wrap_signed.
  change (2 ^ 8) with 256. change (2 ^ (8 - 1)) with 128.
  destruct (Z.ltb_spec (z mod 256) 128) as [Hlt | Hge].
  - destruct (Z.le_gt_cases 0 z).
    + apply Z.mod_small. lia.
    + exfalso.
      assert (z mod 256 = z + 256); [|lia].
      symmetry. apply Z.mod_unique with (q := -1); lia.
  - destruct (Z.le_gt_cases 0 z).
    + rewrite Z.mod_small in Hge by lia. lia.
    + assert (z mod 256 = z + 256); [|lia].
      symmetry. apply Z.mod_unique with (q := -1); lia.
Qed.

Section AppendFacts.

Variables (v : Z) (s : machine).

Lemma append_packet_packet :
  packet (exec (append_packet v) s) =
  if (0 <=? current_element s) && (current_element s <? 32)
  then <[Z.to_nat (current_element s) := v]> (packet s) else packet s.
Proof. reflexivity. Qed.

Lemma append_packet_current_element :
  current_element (exec (append_packet v) s) = to_char (current_element s + 1).
Proof. reflexivity. Qed.

Lemma append_packet_terminated :
  terminated (exec (append_packet v) s) = terminated s.
Proof. reflexivity. Qed.

Lemma append_packet_radio : radio (exec (append_packet v) s) = radio s.
Proof. reflexivity. Qed.

Lemma append_packet_ackMessageCount :
  ackMessageCount (exec (append_packet v) s) = ackMessageCount s.
Proof. reflexivity. Qed.

Lemma append_packet_stores :
  stores (exec (append_packet v) s) = stores s ++ [(current_element s, v)].
Proof. reflexivity. Qed.

Lemma append_packet_port_reads :
  port_reads (exec (append_packet v) s) = port_reads s.
Proof. reflexivity. Qed.

End AppendFacts.

Section AppendLookup.

Variables (v : Z) (s : machine).

Lemma append_packet_lookup_ne (i : nat) :
  Z.of_nat i <> current_element s ->
  packet (exec (append_packet v) s) !! i = packet s !! i.
Proof.
  intros Hi. rewrite append_packet_packet.
  destruct (Z.leb_spec 0 (current_element s)); [|reflexivity].
  destruct (current_element s <? 32); [|reflexivity].
  apply list_lookup_insert_ne. lia.
Qed.

Lemma append_packet_lookup_eq (i : nat) (x : Z) :
  length (packet s) = 32%nat -> Z.of_nat i = current_element s ->
  packet (exec (append_packet v) s) !! i = Some x -> x = v.
Proof.
  intros Hlen Hi. rewrite append_packet_packet.
  destruct (Z.leb_spec 0 (current_element s)); [|lia]. cbn [andb].
  destruct (Z.ltb_spec (current_element s) 32).
  - replace (Z.to_nat (current_element s)) with i by lia.
    rewrite list_lookup_insert_eq by lia. congruence.
  - rewrite lookup_ge_None_2 by lia. discriminate.
Qed.

Lemma append_packet_length :
  length (packet (exec (append_packet v) s)) = length (packet s).
Proof.
  rewrite append_packet_packet.
  destruct ((0 <=? current_element s) && (current_element s <? 32));
    [apply length_insert | reflexivity].
Qed.

End AppendLookup.

Lemma consecutive_snoc (lo : Z) (n : nat) :
  consecutive lo (S n) = consecutive lo n ++ [lo + Z.of_nat n].
Proof.
  unfold consecutive. rewrite seq_S, map_app. reflexivity.
Qed.

Lemma base_inv_refl (s : machine) :
  length (packet s) = 32%nat -> current_element s = 8 -> base_inv s s.
Proof.
  intros Hlen Hcur. split.
  - exact Hlen.
  - lia.
  - reflexivity.
  - reflexivity.
  - reflexivity.
  - intros i x Hi. lia.
  - intros i j y Hi Hij Hj. lia.
  - exists []. rewrite app_nil_r, Hcur. repeat split. constructor.
Qed.

(** One store through [current_element] keeps the invariant when the byte
    is a command and a movement is never stored after a Stop. *)
Lemma append_packet_base_inv (s0 s : machine) (v : Z) :
  base_inv s0 s -> current_element s <= 126 -> is_command v = true ->
  (v <> PRIMO_COMMAND_STOP -> stopless_upto (packet s) (current_element s)) ->
  base_inv s0 (exec (append_packet v) s).
Proof.
  intros [Hlen Hlo Hun Hra Hack Hval Hgap Hst] Hhi Hv Hmov.
  assert (Hcur : current_element (exec (append_packet v) s) = current_element s + 1).
  { rewrite append_packet_current_element. apply to_char_small. lia. }
  split.
  - rewrite append_packet_length. exact Hlen.
  - lia.
  - intros i Hi. rewrite append_packet_lookup_ne by lia. apply Hun. lia.
  - exact Hra.
  - exact Hack.
  - intros i x Hi Hx.
    destruct (Z.eq_dec (Z.of_nat i) (current_element s)) as [E | N].
    + apply append_packet_lookup_eq in Hx; [congruence | exact Hlen | exact E].
    + rewrite append_packet_lookup_ne in Hx by exact N.
      apply (Hval i); [lia | exact Hx].
  - intros i j y Hi Hij Hj Hzero Hy.
    rewrite append_packet_lookup_ne in Hzero by lia.
    destruct (Z.eq_dec (Z.of_nat j) (current_element s)) as [E | N].
    + apply append_packet_lookup_eq in Hy; [| exact Hlen | exact E].
      destruct (Z.eq_dec v 0) as [Hv0 | Hv0]; [congruence|].
      exfalso. apply (Hmov Hv0 i 0); [lia | exact Hzero | reflexivity].
    + rewrite append_packet_lookup_ne in Hy by exact N.
      apply (Hgap i j y); try assumption; lia.
  - destruct Hst as (new & Hnew & Hidx & Hcmd).
    exists (new ++ [(current_element s, v)]). split; [|split].
    + rewrite append_packet_stores, Hnew, app_assoc. reflexivity.
    + rewrite map_app, Hidx, Hcur. cbn [map fst].
      replace (Z.to_nat (current_element s + 1 - 8))
        with (S (Z.to_nat (current_element s - 8))) by lia.
      rewrite consecutive_snoc. f_equal. f_equal. lia.
    + apply Forall_app. split; [exact Hcmd|]. constructor; [exact Hv | constructor].
Qed.

(** The invariant looks at the packet, [current_element], the two logs and
    the acknowledgement counter only. *)
Lemma base_inv_ext (s0 s s' : machine) :
  packet s' = packet s -> current_element s' = current_element s ->
  radio s' = radio s -> ackMessageCount s' = ackMessageCount s ->
  stores s' = stores s ->
  base_inv s0 s -> base_inv s0 s'.
Proof.
  intros Hp Hc Hr Ha Hs [Hlen Hlo Hun Hra Hack Hval Hgap Hst].
  split; rewrite ?Hp, ?Hc, ?Hr, ?Ha, ?Hs; assumption.
Qed.

Lemma is_movement_command (v : Z) : is_movement v = true -> is_command v = true.
Proof. intros H. unfold is_command. rewrite H. apply orb_true_r. Qed.

Lemma is_movement_nonzero (v : Z) : is_movement v = true -> v <> 0.
Proof. intros H ->. discriminate H. Qed.

Lemma scan_inv_intro (s0 : machine) (b : Z) (s : machine) :
  base_inv s0 s -> 0 <= b -> current_element s + b <= 126 ->
  (terminated s = 0 -> stopless_upto (packet s) (current_element s)) ->
  scan_inv s0 b s.
Proof. intros. unfold scan_inv. auto. Qed.

Section ScanFacts.

Variable env : port_oracle.
Variable s0 : machine.

Lemma scan_inv_weaken (b b' : Z) (s : machine) :
  scan_inv s0 b s -> 0 <= b' <= b -> scan_inv s0 b' s.
Proof.
  intros (Hb & H0 & Hhi & Hterm) Hle. apply scan_inv_intro; try assumption; lia.
Qed.

Lemma scan_inv_check_button (b k : Z) (s : machine) :
  scan_inv s0 b s -> scan_inv s0 b (exec (check_button env k) s).
Proof.
  intros H. rewrite check_button_exec.
  destruct ((1 <=? k) && (k <=? 16)); [|exact H].
  destruct H as (Hb & H0 & Hhi & Hterm).
  apply scan_inv_intro; try assumption.
  apply (base_inv_ext s0 s); try reflexivity. exact Hb.
Qed.

Lemma check_button_terminated (k : Z) (s : machine) :
  terminated (exec (check_button env k) s) = terminated s.
Proof.
  rewrite check_button_exec. destruct ((1 <=? k) && (k <=? 16)); reflexivity.
Qed.

Lemma scan_inv_append_movement (b v : Z) (s : machine) :
  0 <= b ->
  scan_inv s0 (b + 1) s -> terminated s = 0 -> is_movement v = true ->
  scan_inv s0 b (exec (append_packet v) s).
Proof.
  intros Hpos (Hb & H0 & Hhi & Hterm) Ht Hv.
  assert (Hcur : current_element (exec (append_packet v) s) = current_element s + 1).
  { rewrite append_packet_current_element. apply to_char_small.
    pose proof (bi_low _ _ Hb). lia. }
  apply scan_inv_intro.
  - apply append_packet_base_inv; try assumption; [lia | | auto].
    now apply is_movement_command.
  - lia.
  - lia.
  - intros _ i x Hi Hx.
    destruct (Z.eq_dec (Z.of_nat i) (current_element s)) as [E | N].
    + apply append_packet_lookup_eq in Hx; [| apply (bi_length _ _ Hb) | exact E].
      subst x. now apply is_movement_nonzero.
    + rewrite append_packet_lookup_ne in Hx by exact N.
      apply (Hterm Ht i); [lia | exact Hx].
Qed.

Lemma scan_inv_append_stop (b : Z) (s : machine) :
  0 <= b ->
  scan_inv s0 (b + 1) s -> terminated s <> 0 ->
  scan_inv s0 b (exec (append_packet PRIMO_COMMAND_STOP) s).
Proof.
  intros Hpos (Hb & H0 & Hhi & Hterm) Ht.
  assert (Hcur : current_element (exec (append_packet 0) s) = current_element s + 1).
  { rewrite append_packet_current_element. apply to_char_small.
    pose proof (bi_low _ _ Hb). lia. }
  apply scan_inv_intro.
  - apply append_packet_base_inv; try assumption; [lia | reflexivity | congruence].
  - lia.
  - lia.
  - rewrite append_packet_terminated. intros Ht'. contradiction.
Qed.

Lemma scan_inv_set_terminated (b : Z) (s : machine) :
  scan_inv s0 b s -> scan_inv s0 b (set_terminated 1 s).
Proof.
  intros (Hb & H0 & Hhi & Hterm). apply scan_inv_intro; try assumption.
  - apply (base_inv_ext s0 s); try reflexivity. exact Hb.
  - cbn. discriminate.
Qed.

Lemma function_body_unfold (fe : Z) (s : machine) :
  exec (function_body env fe) s =
  exec (match eval (check_button env (12 + fe)) s with
        | PRIMO_MAGNET_FORWARD => append_packet PRIMO_COMMAND_FORWARD
        | PRIMO_MAGNET_RIGHT => append_packet PRIMO_COMMAND_RIGHT
        | PRIMO_MAGNET_LEFT => append_packet PRIMO_COMMAND_LEFT
        | _ => ret tt
        end) (exec (check_button env (12 + fe)) s).
Proof. reflexivity. Qed.

Lemma button_body_unfold (button : Z) (s : machine) :
  exec (button_body env button) s =
  if terminated s =? 0
  then exec (match eval (check_button env button) s with
             | PRIMO_MAGNET_FORWARD => append_packet PRIMO_COMMAND_FORWARD
             | PRIMO_MAGNET_RIGHT => append_packet PRIMO_COMMAND_RIGHT
             | PRIMO_MAGNET_LEFT => append_packet PRIMO_COMMAND_LEFT
             | PRIMO_MAGNET_FUNCTION => expand_function env
             | PRIMO_MAGNET_NONE => modify (set_terminated 1)
             | _ => ret tt
             end) (exec (check_button env button) s)
  else exec (append_packet PRIMO_COMMAND_STOP) s.
Proof.
  unfold button_body. rewrite exec_bind.
  change (eval get_terminated s) with (terminated s).
  change (exec get_terminated s) with s.
  destruct (terminated s =? 0); reflexivity.
Qed.

(** One auxiliary slot appends at most one movement. *)
Lemma scan_inv_function_body (b fe : Z) (s : machine) :
  0 <= b ->
  scan_inv s0 (b + 1) s /\ terminated s = 0 ->
  scan_inv s0 b (exec (function_body env fe) s) /\
  terminated (exec (function_body env fe) s) = 0.
Proof.
  intros Hpos [H Ht]. rewrite function_body_unfold.
  pose proof (scan_inv_check_button (b + 1) (12 + fe) s H) as H1.
  pose proof (check_button_terminated (12 + fe) s) as Ht1. rewrite Ht in Ht1.
  destruct (check_button_range env (12 + fe) s) as [E | [E | [E | [E | E]]]];
    rewrite E; cbv iota.
  - split; [|exact Ht1]. apply (scan_inv_weaken (b + 1)); [exact H1 | lia].
  - split; [|exact Ht1]. now apply scan_inv_append_movement.
  - split; [|exact Ht1]. now apply scan_inv_append_movement.
  - split; [|exact Ht1]. now apply scan_inv_append_movement.
  - split; [|exact Ht1]. apply (scan_inv_weaken (b + 1)); [exact H1 | lia].
Qed.

(** The expansion of a Function block appends at most four movements. *)
Lemma scan_inv_expand_function (b : Z) (s : machine) :
  0 <= b ->
  scan_inv s0 (b + 4) s -> terminated s = 0 ->
  scan_inv s0 b (exec (expand_function env) s) /\
  terminated (exec (expand_function env) s) = 0.
Proof.
  intros Hpos H Ht.
  pose (Inv := fun (j : nat) (s' : machine) =>
                 scan_inv s0 (b + 4 - Z.of_nat j) s' /\ terminated s' = 0).
  assert (HI : Inv (0 + 4)%nat (exec (expand_function env) s)).
  { unfold expand_function, for_range.
    change (Z.to_nat (4 + 1 - 1)) with 4%nat.
    apply for_up_invariant.
    - intros j s' Hj Hs'. unfold Inv in *.
      apply scan_inv_function_body; [lia|].
      replace (b + 4 - Z.of_nat (0 + S j) + 1) with (b + 4 - Z.of_nat (0 + j)) by lia.
      exact Hs'.
    - unfold Inv. rewrite Z.sub_0_r. auto. }
  unfold Inv in HI. replace (b + 4 - Z.of_nat (0 + 4)) with b in HI by lia.
  exact HI.
Qed.

(** One button appends at most four bytes. *)
Lemma scan_inv_button_body (b button : Z) (s : machine) :
  0 <= b ->
  scan_inv s0 (b + 4) s -> scan_inv s0 b (exec (button_body env button) s).
Proof.
  intros Hb H. rewrite button_body_unfold.
  destruct (Z.eqb_spec (terminated s) 0) as [Ht | Ht].
  - pose proof (scan_inv_check_button (b + 4) button s H) as H1.
    pose proof (check_button_terminated button s) as Ht1. rewrite Ht in Ht1.
    destruct (check_button_range env button s) as [E | [E | [E | [E | E]]]];
      rewrite E; cbv iota.
    + apply scan_inv_set_terminated. apply (scan_inv_weaken (b + 4)); [exact H1 | lia].
    + apply scan_inv_append_movement; try easy.
      apply (scan_inv_weaken (b + 4)); [exact H1 | lia].
    + apply scan_inv_append_movement; try easy.
      apply (scan_inv_weaken (b + 4)); [exact H1 | lia].
    + apply scan_inv_append_movement; try easy.
      apply (scan_inv_weaken (b + 4)); [exact H1 | lia].
    + now apply scan_inv_expand_function.
  - apply scan_inv_append_stop; [exact Hb | | exact Ht].
    apply (scan_inv_weaken (b + 4)); [exact H | lia].
Qed.

Lemma scan_inv_scan_buttons (s : machine) :
  scan_inv s0 112 s -> scan_inv s0 0 (exec (scan_buttons env) s).
Proof.
  intros H.
  pose (Inv := fun (j : nat) (s' : machine) => scan_inv s0 (112 - 4 * Z.of_nat j) s').
  change (Inv (0 + 28)%nat (exec (scan_buttons env) s)).
  unfold scan_buttons, for_range. change (Z.to_nat (28 + 1 - 1)) with 28%nat.
  apply for_up_invariant.
  - intros j s' Hj Hs'. unfold Inv in *. apply scan_inv_button_body; [lia|].
    replace (112 - 4 * Z.of_nat (0 + S j) + 4) with (112 - 4 * Z.of_nat (0 + j)) by lia.
    exact Hs'.
  - exact H.
Qed.

End ScanFacts.

(** ** The stop-filling loop and the whole pass *)

Lemma add_stops_fuel_unfold (fuel : nat) (s : machine) :
  exec (add_stops_fuel (S fuel)) s =
  if current_element s <? PRIMO_MAX_BUTTON
  then exec (add_stops_fuel fuel) (exec (append_packet PRIMO_COMMAND_STOP) s)
  else s.
Proof.
  unfold exec. cbn [add_stops_fuel].
  destruct (current_element s <? 28); reflexivity.
Qed.

Lemma add_stops_fuel_spec (s0 : machine) :
  forall (fuel : nat) (s : machine),
    base_inv s0 s -> current_element s <= 126 ->
    28 - current_element s <= Z.of_nat fuel ->
    base_inv s0 (exec (add_stops_fuel fuel) s) /\
    current_element (exec (add_stops_fuel fuel) s) = Z.max (current_element s) 28.
Proof.
  induction fuel as [|fuel IH]; intros s Hb Hhi Hfuel.
  - split; [exact Hb|]. change (exec (add_stops_fuel 0) s) with s. lia.
  - rewrite add_stops_fuel_unfold.
    destruct (Z.ltb_spec (current_element s) 28) as [Hlt | Hge].
    + assert (Hcur : current_element (exec (append_packet 0) s) = current_element s + 1).
      { rewrite append_packet_current_element. apply to_char_small.
        pose proof (bi_low _ _ Hb). lia. }
      destruct (IH (exec (append_packet 0) s)) as [Hb' Hc'].
      * apply append_packet_base_inv; [exact Hb | lia | reflexivity | congruence].
      * lia.
      * lia.
      * split; [exact Hb'|]. rewrite Hc', Hcur. lia.
    + split; [exact Hb | lia].
Qed.

(** The [while] loop is left because its condition fails: the bound on the
    iterations of [add_stops] is never what stops it. *)
Lemma add_stops_exits (s0 s : machine) :
  base_inv s0 s -> current_element s <= 126 ->
  base_inv s0 (exec add_stops s) /\
  current_element (exec add_stops s) = Z.max (current_element s) 28 /\
  (current_element (exec add_stops s) <? PRIMO_MAX_BUTTON) = false.
Proof.
  intros Hb Hhi. pose proof (bi_low _ _ Hb).
  destruct (add_stops_fuel_spec s0 256 s Hb Hhi) as [Hb' Hc].
  { change (Z.of_nat 256) with 256. lia. }
  unfold add_stops. split; [exact Hb' | split; [exact Hc|]].
  rewrite Hc. apply Z.ltb_ge. lia.
Qed.

(** The pass changes nothing below index 8, stores through
    [current_element] at the indices 8, 9, ... without a hole, leaves
    [current_element] at 28 or more, and calls nothing on the radio. *)
Lemma calculate_packet_base_inv (env : port_oracle) (s : machine) :
  length (packet s) = 32%nat ->
  base_inv s (exec (calculate_packet env) s) /\
  28 <= current_element (exec (calculate_packet env) s).
Proof.
  intros Hlen.
  set (s1 := count_port_read (count_port_read (count_port_read (count_port_read
               (set_terminated 0 (set_current_element 8 s)))))).
  assert (Hunfold : exec (calculate_packet env) s
                    = exec add_stops (exec (scan_buttons env) s1)).
  { unfold calculate_packet. rewrite !exec_bind. reflexivity. }
  rewrite Hunfold. clear Hunfold.
  assert (H1 : scan_inv s1 112 s1).
  { apply scan_inv_intro; [apply base_inv_refl; [exact Hlen | reflexivity] | lia | cbn; lia |].
    intros _ i x Hi. cbn in Hi. lia. }
  apply (scan_inv_scan_buttons env) in H1.
  destruct H1 as (Hb & _ & Hhi & _).
  destruct (add_stops_exits s1 _ Hb) as (Hb' & Hc & _); [lia|].
  split; [|lia].
  destruct Hb' as [? ? ? ? ? ? ? ?]. split; assumption.
Qed.

(** ** The pass does not look at the radio *)

Create HintDb oblivious.

Lemma oblivious_ret {A : Type} (a : A) : oblivious (ret a).
Proof. intros s s' H. split; [reflexivity | exact H]. Qed.

Lemma oblivious_bind {A B : Type} (c : M A) (k : A -> M B) :
  oblivious c -> (forall a, oblivious (k a)) -> oblivious (bind c k).
Proof.
  intros Hc Hk s s' H. destruct (Hc s s' H) as [He Ha].
  rewrite !eval_bind, !exec_bind, He. apply Hk. exact Ha.
Qed.

Lemma oblivious_for_up (body : Z -> M unit) :
  (forall x, oblivious (body x)) -> forall n x, oblivious (for_up n x body).
Proof.
  intros Hbody. induction n as [|n IH]; intros x; cbn [for_up].
  - apply oblivious_ret.
  - apply oblivious_bind; [apply Hbody | intros _; apply IH].
Qed.

Lemma oblivious_readPort (env : port_oracle) (e : expander) :
  oblivious (readPort env e).
Proof.
  intros s s' (Hp & Hc & Ht & Hr). unfold eval, exec, readPort; cbn.
  rewrite Hr. repeat split; cbn; congruence.
Qed.

Lemma oblivious_check_button (env : port_oracle) (b : Z) :
  oblivious (check_button env b).
Proof.
  intros s s' H. rewrite !check_button_eval, !check_button_exec.
  destruct H as (Hp & Hc & Ht & Hr). rewrite Hr.
  split; [reflexivity|].
  destruct ((1 <=? b) && (b <=? 16)); repeat split; cbn; congruence.
Qed.

Lemma oblivious_append_packet (v : Z) : oblivious (append_packet v).
Proof.
  intros s s' (Hp & Hc & Ht & Hr). split; [reflexivity|].
  unfold agree.
  rewrite !append_packet_packet, !append_packet_current_element,
    !append_packet_terminated, !append_packet_port_reads, Hp, Hc.
  auto.
Qed.

Lemma oblivious_set_terminated (v : Z) : oblivious (modify (set_terminated v)).
Proof.
  intros s s' (Hp & Hc & Ht & Hr). split; [reflexivity|].
  repeat split; cbn; congruence.
Qed.

Lemma oblivious_get_terminated : oblivious get_terminated.
Proof. intros s s' H. split; [apply H | exact H]. Qed.

#[local] Hint Resolve oblivious_ret oblivious_readPort oblivious_check_button
  oblivious_append_packet oblivious_set_terminated oblivious_get_terminated
  : oblivious.

Lemma oblivious_function_body (env : port_oracle) (fe : Z) :
  oblivious (function_body env fe).
Proof.
  unfold function_body. apply oblivious_bind; [auto with oblivious|].
  intros m. destruct m as [|p|p]; auto with oblivious;
    do 2 (try destruct p as [p|p|]); auto with oblivious.
Qed.

Lemma oblivious_expand_function (env : port_oracle) :
  oblivious (expand_function env).
Proof. apply oblivious_for_up. apply oblivious_function_body. Qed.

#[local] Hint Resolve oblivious_expand_function : oblivious.

Lemma oblivious_button_body (env : port_oracle) (button : Z) :
  oblivious (button_body env button).
Proof.
  unfold button_body. apply oblivious_bind; [auto with oblivious|].
  intros t. destruct (t =? 0); [|auto with oblivious].
  apply oblivious_bind; [auto with oblivious|].
  intros m. destruct m as [|p|p]; auto with oblivious;
    do 3 (try destruct p as [p|p|]); auto with oblivious.
Qed.

Lemma oblivious_scan_buttons (env : port_oracle) : oblivious (scan_buttons env).
Proof. apply oblivious_for_up. apply oblivious_button_body. Qed.

Lemma oblivious_add_stops_fuel (fuel : nat) : oblivious (add_stops_fuel fuel).
Proof.
  induction fuel as [|fuel IH]; [apply oblivious_ret|].
  intros s s' H.
  assert (Hc : current_element s = current_element s') by apply H.
  unfold eval, exec. cbn [add_stops_fuel]. rewrite <- Hc.
  destruct (current_element s <? 28).
  - apply (oblivious_bind (append_packet 0) (fun _ => add_stops_fuel fuel));
      [auto with oblivious | intros _; exact IH | exact H].
  - split; [reflexivity | exact H].
Qed.

(** The packet a pass leaves depends on the packet it finds and on the
    port readings only. *)
Lemma calculate_packet_packet_only (env : port_oracle) (s s' : machine) :
  packet s = packet s' -> port_reads s = port_reads s' ->
  packet (exec (calculate_packet env) s) = packet (exec (calculate_packet env) s').
Proof.
  intros Hp Hr.
  pose (rest := bind (readPort env gpioExp1) (fun _ =>
                bind (readPort env gpioExp2) (fun _ =>
                bind (readPort env gpioExp3) (fun _ =>
                bind (readPort env gpioExp4) (fun _ =>
                bind (scan_buttons env) (fun _ => add_stops)))))).
  assert (Hrest : oblivious rest).
  { unfold rest.
    do 4 (apply oblivious_bind; [apply oblivious_readPort | intros _]).
    apply oblivious_bind; [apply oblivious_scan_buttons | intros _].
    apply oblivious_add_stops_fuel. }
  assert (Hu : forall m, exec (calculate_packet env) m
                         = exec rest (set_terminated 0 (set_current_element 8 m))).
  { intros m. unfold calculate_packet, rest. rewrite !exec_bind. reflexivity. }
  rewrite !Hu. apply Hrest. repeat split; cbn; assumption.
Qed.

(** ** The radio log *)

Lemma frames_sent_app (ops ops' : list radio_op) :
  frames_sent (ops ++ ops') = frames_sent ops ++ frames_sent ops'.
Proof. unfold frames_sent. apply flat_map_app. Qed.

Lemma reset_port_reads_packet (s : machine) :
  packet (reset_port_reads s) = packet s.
Proof. reflexivity. Qed.

(** ** The interrupt handler *)

Lemma checkRadio_spec (tx fail rx : bool) (payload : Z) (s : machine) :
  let s' := exec (checkRadio tx fail rx payload) s in
  radio s' = radio s ++ (if tx || fail then [PowerDown] else []) /\
  ackMessageCount s' = (if rx then to_uint32 payload else ackMessageCount s) /\
  packet s' = packet s /\ current_element s' = current_element s /\
  terminated s' = terminated s /\ stores s' = stores s /\
  port_reads s' = port_reads s.
Proof.
  destruct tx, fail, rx; cbn; rewrite ?app_nil_r; repeat split; reflexivity.
Qed.

Lemma serve_spec (q : irq) (s : machine) :
  let s' := exec (serve q) s in
  packet s' = packet s /\ frames_sent (radio s') = frames_sent (radio s).
Proof.
  destruct q as [tx fail rx payload].
  destruct (checkRadio_spec tx fail rx payload s) as (Hra & _ & Hpk & _).
  cbv zeta. unfold serve. cbn [irq_tx irq_fail irq_rx irq_payload].
  split; [exact Hpk|]. rewrite Hra, frames_sent_app.
  destruct (tx || fail); cbn; apply app_nil_r.
Qed.

Lemma serve_all_cons (q : irq) (qs : list irq) (s : machine) :
  exec (serve_all (q :: qs)) s = exec (serve_all qs) (exec (serve q) s).
Proof. reflexivity. Qed.

Lemma serve_all_spec : forall (qs : list irq) (s : machine),
  packet (exec (serve_all qs) s) = packet s /\
  frames_sent (radio (exec (serve_all qs) s)) = frames_sent (radio s).
Proof.
  induction qs as [|q qs IH]; intros s; [split; reflexivity|].
  rewrite serve_all_cons.
  destruct (IH (exec (serve q) s)) as [H1 H2].
  destruct (serve_spec q s) as [H3 H4].
  rewrite H1, H2. split; assumption.
Qed.

(** ** One gesture *)

Lemma send_twice (qs : list irq) (s1 : machine) :
  let frame := take (Z.to_nat PRIMO_NRF24L01_MAX_PACKET_SIZE) (packet s1) in
  let s2 := exec (serve_all qs) (log_radio (StartWrite frame) s1) in
  exec (bind startWrite (fun _ =>
        bind (serve_all qs) (fun _ =>
        bind startWrite (fun _ => modify (set_terminated 0))))) s1
  = set_terminated 0
      (log_radio
         (StartWrite (take (Z.to_nat PRIMO_NRF24L01_MAX_PACKET_SIZE) (packet s2)))
         s2).
Proof. reflexivity. Qed.

Lemma loop_unfold (env : port_oracle) (qs : list irq) (s : machine) :
  loop env qs s =
  let s1 := exec (calculate_packet env) (reset_port_reads s) in
  let frame := take (Z.to_nat PRIMO_NRF24L01_MAX_PACKET_SIZE) (packet s1) in
  let s2 := exec (serve_all qs) (log_radio (StartWrite frame) s1) in
  set_terminated 0
    (log_radio
       (StartWrite (take (Z.to_nat PRIMO_NRF24L01_MAX_PACKET_SIZE) (packet s2)))
       s2).
Proof.
  unfold loop, loop_pass. rewrite exec_bind. apply send_twice.
Qed.

Lemma after_send_twice (qs : list irq) (s1 : machine) :
  let frame := take (Z.to_nat PRIMO_NRF24L01_MAX_PACKET_SIZE) (packet s1) in
  let s2 := exec (serve_all qs) (log_radio (StartWrite frame) s1) in
  let s3 := set_terminated 0
              (log_radio
                 (StartWrite (take (Z.to_nat PRIMO_NRF24L01_MAX_PACKET_SIZE) (packet s2)))
                 s2) in
  packet s3 = packet s1 /\
  frames_sent (radio s3) = frames_sent (radio s1) ++ [frame; frame].
Proof.
  intros frame s2 s3.
  destruct (serve_all_spec qs (log_radio (StartWrite frame) s1)) as [Hpk Hfr].
  fold s2 in Hpk, Hfr.
  assert (Hpk' : packet s2 = packet s1) by (rewrite Hpk; reflexivity).
  split; [exact Hpk'|].
  unfold s3. cbn [radio set_terminated log_radio].
  rewrite frames_sent_app, Hfr, Hpk'. fold frame.
  cbn [radio log_radio]. rewrite frames_sent_app, <- app_assoc. reflexivity.
Qed.

Lemma after_quiet_send_twice (s1 : machine) :
  let frame := take (Z.to_nat PRIMO_NRF24L01_MAX_PACKET_SIZE) (packet s1) in
  let s2 := exec (serve_all []) (log_radio (StartWrite frame) s1) in
  let s3 := set_terminated 0
              (log_radio
                 (StartWrite (take (Z.to_nat PRIMO_NRF24L01_MAX_PACKET_SIZE) (packet s2)))
                 s2) in
  radio s3 = radio s1 ++ [StartWrite frame; StartWrite frame] /\
  ackMessageCount s3 = ackMessageCount s1.
Proof.
  cbn. rewrite <- app_assoc. split; reflexivity.
Qed.

Lemma loop_packet (env : port_oracle) (qs : list irq) (s : machine) :
  packet (loop env qs s)
  = packet (exec (calculate_packet env) (reset_port_reads s)).
Proof. rewrite loop_unfold. apply after_send_twice. Qed.

Lemma base_inv_frame_layout (header : list Z) (s0 s : machine) :
  base_inv s0 s -> frame_layout header (packet s0) ->
  frame_layout header (packet s).
Proof.
  intros Hb (Hlen0 & Hhead & Hcmd). split; [apply (bi_length _ _ Hb) | split].
  - rewrite <- Hhead. apply list_eq. intros i.
    destruct (Nat.lt_ge_cases i 8) as [Hi | Hi].
    + rewrite !lookup_take_lt by exact Hi. apply (bi_untouched _ _ Hb). lia.
    + rewrite !lookup_take_ge by exact Hi. reflexivity.
  - apply Forall_lookup. intros i x Hx. rewrite lookup_drop in Hx.
    destruct (Z.lt_ge_cases (Z.of_nat (8 + i)) (current_element s)) as [Hi | Hi].
    + apply (bi_valid _ _ Hb (8 + i)%nat); [lia | exact Hx].
    + rewrite (bi_untouched _ _ Hb) in Hx by lia.
      rewrite Forall_lookup in Hcmd. apply (Hcmd i).
      rewrite lookup_drop. exact Hx.
Qed.

(** What one gesture does to the packet and to the radio. *)
Lemma loop_spec (env : port_oracle) (qs : list irq) (s : machine) :
  length (packet s) = 32%nat ->
  let s1 := exec (calculate_packet env) (reset_port_reads s) in
  base_inv s s1 /\
  packet (loop env qs s) = packet s1 /\
  frames_sent (radio (loop env qs s))
  = frames_sent (radio s) ++ [packet s1; packet s1].
Proof.
  intros Hlen s1.
  destruct (calculate_packet_base_inv env (reset_port_reads s) Hlen) as [Hb _].
  fold s1 in Hb.
  assert (Hb' : base_inv s s1).
  { destruct Hb as [? ? ? ? ? ? ? ?]. split; assumption. }
  rewrite loop_unfold. fold s1. clearbody s1.
  destruct (after_send_twice qs s1) as (H1 & H2).
  cbv zeta in H1, H2 |- *.
  rewrite H1, H2, (bi_radio _ _ Hb').
  rewrite take_ge by (rewrite (bi_length _ _ Hb'); cbn; lia).
  split; [exact Hb' | split; reflexivity].
Qed.

(** With no interrupt in between, the two sends are next to each other in
    the radio log and the acknowledgement counter is left alone. *)
Lemma loop_quiet_spec (env : port_oracle) (s : machine) :
  length (packet s) = 32%nat ->
  let s1 := exec (calculate_packet env) (reset_port_reads s) in
  radio (loop env [] s) = radio s ++ [StartWrite (packet s1); StartWrite (packet s1)] /\
  ackMessageCount (loop env [] s) = ackMessageCount s.
Proof.
  intros Hlen s1.
  destruct (calculate_packet_base_inv env (reset_port_reads s) Hlen) as [Hb _].
  fold s1 in Hb.
  rewrite loop_unfold. fold s1. clearbody s1.
  destruct (after_quiet_send_twice s1) as (H1 & H2).
  cbv zeta in H1, H2 |- *.
  rewrite H1, H2, (bi_radio _ _ Hb), (bi_ack _ _ Hb).
  rewrite take_ge by (rewrite (bi_length _ _ Hb); cbn; lia).
  split; reflexivity.
Qed.

(** ** A power cycle *)

Lemma setup_packet (random_value : Z) :
  packet (setup random_value) =
  bytes_of_long (to_long PRIMO_ID) ++ bytes_of_long (to_long random_value) ++
  [1; 2; 1; 2; 1; 2; 1; 3; 1; 3; 1; 3; 1; 3; 1; 2; 0; 0; 0; 0; 0; 0; 0; 0].
Proof.
  unfold setup, initialise_packet. generalize (to_long random_value). intros z.
  reflexivity.
Qed.

Lemma run_app (es es' : list event) (s : machine) :
  run (es ++ es') s = run es' (run es s).
Proof. unfold run. apply fold_left_app. Qed.

Lemma run_length : forall (es : list event) (s : machine),
  length (packet s) = 32%nat -> length (packet (run es s)) = 32%nat.
Proof.
  induction es as [|e es IH]; intros s Hlen; [exact Hlen|].
  change (run (e :: es) s) with (run es (step s e)). apply IH.
  destruct e as [env qs | q]; cbn [step].
  - destruct (loop_spec env qs s Hlen) as (Hb & Hp & _). rewrite Hp.
    apply (bi_length _ _ Hb).
  - destruct (serve_spec q s) as [Hp _]. rewrite Hp. exact Hlen.
Qed.

Lemma run_frame_layout (header : list Z) :
  forall (es : list event) (s : machine),
    frame_layout header (packet s) ->
    Forall (frame_layout header) (frames_sent (radio s)) ->
    frame_layout header (packet (run es s)) /\
    Forall (frame_layout header) (frames_sent (radio (run es s))).
Proof.
  induction es as [|e es IH]; intros s Hp Hsent; [auto|].
  change (run (e :: es) s) with (run es (step s e)).
  destruct e as [env qs | q]; cbn [step].
  - assert (Hlen : length (packet s) = 32%nat) by apply Hp.
    destruct (loop_spec env qs s Hlen) as (Hb & Hpk & Hfr).
    assert (Hf : frame_layout header (packet (loop env qs s))).
    { rewrite Hpk. exact (base_inv_frame_layout header _ _ Hb Hp). }
    apply IH; [exact Hf|].
    rewrite Hfr. apply Forall_app. split; [exact Hsent|].
    rewrite <- Hpk. revert Hf. generalize (packet (loop env qs s)). intros f Hf.
    constructor; [exact Hf|]. constructor; [exact Hf|]. constructor.
  - destruct (serve_spec q s) as [Hpk Hfr].
    apply IH; [rewrite Hpk; exact Hp | rewrite Hfr; exact Hsent].
Qed.

(** Radio events change neither the packet nor the frames that are sent. *)
Lemma run_erasure :
  forall (es : list event) (s s' : machine),
    length (packet s) = 32%nat -> packet s = packet s' ->
    packet (run es s) = packet (run (gestures_only es) s') /\
    exists sent : list (list Z),
      frames_sent (radio (run es s)) = frames_sent (radio s) ++ sent /\
      frames_sent (radio (run (gestures_only es) s'))
      = frames_sent (radio s') ++ sent.
Proof.
  induction es as [|e es IH]; intros s s' Hlen Hp.
  - split; [exact Hp|]. exists []. rewrite !app_nil_r. auto.
  - change (run (e :: es) s) with (run es (step s e)).
    destruct e as [env qs | q]; cbn [step gestures_only].
    + change (run (Gesture env [] :: gestures_only es) s')
        with (run (gestures_only es) (loop env [] s')).
      assert (Hlen' : length (packet s') = 32%nat) by (rewrite <- Hp; exact Hlen).
      destruct (loop_spec env qs s Hlen) as (Hb & Hpk & Hfr).
      destruct (loop_spec env [] s' Hlen') as (_ & Hpk' & Hfr').
      assert (Hsame : packet (loop env qs s) = packet (loop env [] s')).
      { rewrite Hpk, Hpk'. apply calculate_packet_packet_only; [exact Hp | reflexivity]. }
      destruct (IH (loop env qs s) (loop env [] s')) as (Hfin & sent & H1 & H2).
      * rewrite Hpk. apply (bi_length _ _ Hb).
      * exact Hsame.
      * split; [exact Hfin|].
        exists ([packet (loop env qs s); packet (loop env qs s)] ++ sent).
        rewrite H1, H2, Hfr, Hfr', <- !app_assoc.
        rewrite <- Hpk, <- Hpk', <- Hsame.
        generalize (packet (loop env qs s)). intros f. split; reflexivity.
    + destruct (serve_spec q s) as [Hpk Hfr].
      destruct (IH (exec (serve q) s) s') as (Hfin & sent & H1 & H2).
      * rewrite Hpk. exact Hlen.
      * rewrite Hpk. exact Hp.
      * split; [exact Hfin|]. exists sent. split; [|exact H2].
        rewrite H1, Hfr. reflexivity.
Qed.

(** ** Function expansion *)

Lemma append_all_cons (c : Z) (cmds : list Z) (s : machine) :
  append_all (c :: cmds) s = append_all cmds (exec (append_packet c) s).
Proof. reflexivity. Qed.



Lemma append_all_spec : forall (cmds : list Z) (s : machine),
  stores (append_all cmds s) = stores s ++ place (current_element s) cmds /\
  port_reads (append_all cmds s) = port_reads s /\
  terminated (append_all cmds s) = terminated s.
Proof.
  induction cmds as [|c cmds IH]; intros s.
  - cbn. rewrite app_nil_r. auto.
  - rewrite append_all_cons.
    destruct (IH (exec (append_packet c) s)) as (H1 & H2 & H3).
    rewrite H1, H2, H3, append_packet_stores, append_packet_current_element,
      <- app_assoc.
    repeat split; reflexivity.
Qed.




(** ** The wire format *)

Lemma land_255 (z : Z) : Z.land z 0xFF = z mod 256.
Proof. exact (land_low_bits z 8 ltac:(lia)). Qed.

Lemma le32_bytes_of_long (z : Z) : le32 (bytes_of_long z) = to_uint32 z.
Proof.
  unfold le32, bytes_of_long, to_uint32.
  rewrite !land_255, !Z.shiftr_div_pow2 by lia.
  change (2 ^ 8) with 256. change (2 ^ 16) with 65536.
  change (2 ^ 24) with 16777216. change (2 ^ 32) with 4294967296.
  Z.div_mod_to_equations. lia.
Qed.

Lemma to_uint32_to_long (z : Z) : to_uint32 (to_long z) = to_uint32 z.
Proof.
  unfold to_uint32, to_long, wrap_signed.
  destruct (z mod 2 ^ 32 <? 2 ^ (32 - 1)).
  - apply Z.mod_mod. lia.
  - change (2 ^ 32) with 4294967296.
    replace (z mod 4294967296 - 4294967296)
      with (z mod 4294967296 + (-1) * 4294967296) by lia.
    rewrite Z_mod_plus_full. apply Z.mod_mod. lia.
Qed.

Lemma is_command_cases (c : Z) :
  is_command c = true ->
  c = PRIMO_COMMAND_STOP \/ c = PRIMO_COMMAND_FORWARD \/
  c = PRIMO_COMMAND_LEFT \/ c = PRIMO_COMMAND_RIGHT.
Proof.
  unfold is_command, is_movement.
  destruct (Z.eqb_spec c 0), (Z.eqb_spec c 1), (Z.eqb_spec c 2), (Z.eqb_spec c 3);
    auto; discriminate.
Qed.

Lemma setup_frame_layout (random_value : Z) :
  frame_layout
    (bytes_of_long (to_long PRIMO_ID) ++ bytes_of_long (to_long random_value))
    (packet (setup random_value)).
Proof.
  rewrite setup_packet. generalize (to_long random_value). intros z.
  split; [reflexivity | split; [reflexivity|]].
  cbn [bytes_of_long app drop]. repeat constructor.
Qed.

(** * The frame, the decoder and the session *)

Lemma run_wire_frame (random_value : Z) (es : list event) :
  Forall (wire_frame random_value)
         (frames_sent (radio (run es (setup random_value)))).
Proof.
  set (header := bytes_of_long (to_long PRIMO_ID) ++ bytes_of_long (to_long random_value)).
  destruct (run_frame_layout header es (setup random_value)) as [_ Hall].
  - apply setup_frame_layout.
  - constructor.
  - eapply Forall_impl; [exact Hall|]. intros frame (Hlen & Hhead & Hcmd).
    assert (H03 : take 4 frame = bytes_of_long (to_long PRIMO_ID)).
    { change 4%nat with (Nat.min 4 8). rewrite <- take_take, Hhead. reflexivity. }
    assert (H47 : take 4 (drop 4 frame) = bytes_of_long (to_long random_value)).
    { rewrite take_drop_commute. change (4 + 4)%nat with 8%nat.
      rewrite Hhead. reflexivity. }
    split; [exact Hlen|]. split; [rewrite H03; reflexivity|].
    split; [rewrite H03; reflexivity|]. split; [exact H47|].
    split; [rewrite H47, le32_bytes_of_long; apply to_uint32_to_long|].
    split; [rewrite length_drop, Hlen; reflexivity|].
    eapply Forall_impl; [exact Hcmd|]. intros c. apply is_command_cases.
Qed.

(** C1 (fails on the code). As long as no store of the power cycle has left
    the array, every frame handed to the radio, whatever gestures and radio
    events occur in whatever order, is exactly 32 bytes long; bytes 0 to 3
    are the little-endian bytes 58 87 1D DE of the protocol tag 0xDE1D8758;
    bytes 4 to 7 are the little-endian bytes of the identity drawn at boot,
    the same in every frame; bytes 8 to 31 are 24 command bytes, each 0
    (Stop), 1 (Forward), 2 (Left) or 3 (Right).  Beyond that the sketch
    gives no frame its layout: with a Function block in each of the slots 1
    to 12 over a function line of Forward blocks, the first pass after
    power-on makes its 25th store at index 32 and 38 more behind it, all
    outside the array, before the first frame is handed over; what these
    stores hit, the tag and the identity included, is not for the sketch to
    say. *)
Theorem frames_have_wire_layout_until_overrun (random_value : Z) :
  (forall es : list event,
     overrun (run es (setup random_value)) = false ->
     Forall (wire_frame random_value)
            (frames_sent (radio (run es (setup random_value))))) /\
  (let board := steady 0x2222 0x2222 0x2222 0x3333 in
   let s := exec (calculate_packet board) (reset_port_reads (setup random_value)) in
   overrun (setup random_value) = false /\
   radio s = [] /\
   overrun s = true /\
   drop 24 (pass_stores board (setup random_value))
   = map (fun i => (i, PRIMO_COMMAND_FORWARD)) (consecutive 32 28)
     ++ map (fun i => (i, PRIMO_COMMAND_STOP)) (consecutive 60 11) /\
   overrun (run [Gesture board []] (setup random_value)) = true).
Proof.
  split; [intros es _; apply run_wire_frame|].
  vm_compute. repeat split; reflexivity.
Qed.

(** Twelve movement blocks over a function line of Function blocks, an
    acknowledgement, then eight Function blocks over an empty function
    line: no store leaves the array, and the four frames have the layout. *)
Lemma frames_have_wire_layout_until_overrun_witness :
  overrun (run [Gesture (steady 0x3333 0x3333 0x3333 0x2222) [];
                RadioIrq (Irq true false true 1);
                Gesture (steady 0x2222 0x2222 0 0) []] (setup 7)) = false /\
  Forall (wire_frame 7)
    (frames_sent
       (radio (run [Gesture (steady 0x3333 0x3333 0x3333 0x2222) [];
                    RadioIrq (Irq true false true 1);
                    Gesture (steady 0x2222 0x2222 0 0) []] (setup 7)))).
Proof.
  assert (H : overrun (run [Gesture (steady 0x3333 0x3333 0x3333 0x2222) [];
                            RadioIrq (Irq true false true 1);
                            Gesture (steady 0x2222 0x2222 0 0) []] (setup 7))
              = false) by (vm_compute; reflexivity).
  split; [exact H|].
  exact (proj1 (frames_have_wire_layout_until_overrun 7) _ H).
Defined.

(** C5. For every button, port reading and machine state, [check_button]
    returns what the specification's tables give for the corrected 3-bit
    code of that slot (the inverted table for slots 5 to 8, the canonical
    one otherwise), the code being in 0..7; the decoding switch agrees with
    the tables on every integer code; and a code outside 2..6 -- so 0, 1, 7
    and every undefined code -- yields None, never a movement or Function. *)
Theorem check_button_decodes_by_tables
    (env : port_oracle) (button_to_check : Z) (s : machine)
    (invert_magnet : bool) (code : Z) :
  (let corrected := corrected_code (env (port_reads s)) button_to_check in
   0 <= corrected < 8 /\
   eval (check_button env button_to_check) s =
   if slot_inverted button_to_check
   then inverted_mapping corrected else canonical_mapping corrected) /\
  convert_to_button_code invert_magnet code =
    (if invert_magnet then inverted_mapping code else canonical_mapping code) /\
  canonical_mapping 0 = PRIMO_MAGNET_NONE /\
  canonical_mapping 2 = PRIMO_MAGNET_FUNCTION /\
  canonical_mapping 3 = PRIMO_MAGNET_FORWARD /\
  canonical_mapping 4 = PRIMO_MAGNET_NONE /\
  canonical_mapping 5 = PRIMO_MAGNET_LEFT /\
  canonical_mapping 6 = PRIMO_MAGNET_RIGHT /\
  canonical_mapping 7 = PRIMO_MAGNET_NONE /\
  inverted_mapping 2 = PRIMO_MAGNET_FUNCTION /\
  inverted_mapping 3 = PRIMO_MAGNET_RIGHT /\
  inverted_mapping 4 = PRIMO_MAGNET_FUNCTION /\
  inverted_mapping 5 = PRIMO_MAGNET_LEFT /\
  inverted_mapping 6 = PRIMO_MAGNET_FORWARD /\
  inverted_mapping 7 = PRIMO_MAGNET_NONE /\
  (convert_to_button_code invert_magnet code = PRIMO_MAGNET_NONE \/ 2 <= code <= 6) /\
  convert_to_button_code invert_magnet 0 = PRIMO_MAGNET_NONE /\
  convert_to_button_code invert_magnet 1 = PRIMO_MAGNET_NONE /\
  convert_to_button_code invert_magnet 7 = PRIMO_MAGNET_NONE /\
  convert_to_button_code invert_magnet code <> PRIMO_MAGNET_ERR.
Proof.
  split; [|split; [apply convert_to_button_code_mapping|]].
  - cbv zeta. split; [|apply check_button_eval].
    unfold corrected_code. destruct (slot_wiring button_to_check) as [[[[g o] i] t]|]; [|lia].
    assert (H : 0 <= nibble (env (port_reads s) g) o mod 8 < 8)
      by (apply Z.mod_pos_bound; lia).
    destruct t; [|exact H].
    rewrite <- untwist_is_twisted_permutation by exact H.
    apply untwist_range. exact H.
  - repeat (split; [reflexivity|]).
    split; [|split; [destruct invert_magnet; reflexivity|
             split; [destruct invert_magnet; reflexivity|
             split; [destruct invert_magnet; reflexivity|]]]].
    + destruct code as [|p|p]; auto; do 3 (try destruct p as [p|p|]); auto;
        right; lia.
    + destruct (convert_to_button_code_range invert_magnet code)
        as [E | [E | [E | [E | E]]]]; rewrite E; discriminate.
Qed.

(** C6. On the masked 3-bit code the untwist expression of [check_button]
    is the bit permutation out0 = in0, out1 = in2, out2 = in1: it agrees
    with that permutation, its result is again a 3-bit code with those
    three bits, and applying it twice gives the code back.  It is applied
    to slot 8, the one slot whose [twisted] flag is set. *)
Theorem untwist_permutes_bits (button : Z) (env : port_oracle) (s : machine) :
  let code := Z.land button 0x07 in
  Z.testbit (untwist code) 0 = Z.testbit code 0 /\
  Z.testbit (untwist code) 1 = Z.testbit code 2 /\
  Z.testbit (untwist code) 2 = Z.testbit code 1 /\
  0 <= untwist code < 8 /\
  untwist code = twisted_permutation code /\
  untwist (untwist code) = code /\
  eval (check_button env 8) s =
  inverted_mapping
    (untwist (Z.land (Z.land (Z.shiftr (to_int (env (port_reads s) gpioExp2)) 12) 0x0F) 0x07)).
Proof.
  cbv zeta. rewrite land_7.
  assert (H : 0 <= button mod 8 < 8) by (apply Z.mod_pos_bound; lia).
  split; [|split; [|split; [|split; [|split; [|split]]]]].
  - three_bit (button mod 8) H; reflexivity.
  - three_bit (button mod 8) H; reflexivity.
  - three_bit (button mod 8) H; reflexivity.
  - apply untwist_range. exact H.
  - apply untwist_is_twisted_permutation. exact H.
  - three_bit (button mod 8) H; reflexivity.
  - unfold eval, check_button, select_button, bind, ret, readPort. cbn [fst snd].
    apply convert_to_button_code_mapping.
Qed.





(** C9. Whatever happened before in the power cycle, a gesture hands the
    frame it has just built to [radio.startWrite] exactly twice and sends
    nothing else: the frame is 32 bytes long and the same in both calls,
    also when the radio interrupts between the two.  With no interrupt in
    between, the two calls are next to each other in the radio log, and the
    acknowledgement counter is not touched as long as no store has left
    the array.  No outcome is waited for or acted upon: dropping every radio
    event from the history, and from the gesture itself, changes no byte of
    the frame. *)
Theorem gesture_sends_frame_twice
    (random_value : Z) (es : list event) (env : port_oracle) (qs : list irq) :
  let before := run es (setup random_value) in
  let after := run (es ++ [Gesture env qs]) (setup random_value) in
  let quiet := run (es ++ [Gesture env []]) (setup random_value) in
  let frame := packet (exec (calculate_packet env) (reset_port_reads before)) in
  length frame = 32%nat /\
  frames_sent (radio after) = frames_sent (radio before) ++ [frame; frame] /\
  packet after = frame /\
  radio quiet = radio before ++ [StartWrite frame; StartWrite frame] /\
  (overrun quiet = false -> ackMessageCount quiet = ackMessageCount before) /\
  frame = packet (run (gestures_only (es ++ [Gesture env qs])) (setup random_value)).
Proof.
  intros before after quiet frame.
  assert (Hlen0 : length (packet (setup random_value)) = 32%nat)
    by apply setup_frame_layout.
  assert (Hlen : length (packet before) = 32%nat) by (apply run_length; exact Hlen0).
  assert (Hafter : after = loop env qs before).
  { unfold after. rewrite run_app. reflexivity. }
  assert (Hquiet : quiet = loop env [] before).
  { unfold quiet. rewrite run_app. reflexivity. }
  destruct (loop_spec env qs before Hlen) as (Hb & Hpk & Hfr).
  destruct (loop_quiet_spec env before Hlen) as (Hra & Hack).
  fold frame in Hpk, Hfr, Hra.
  split; [apply (bi_length _ _ Hb)|].
  split; [rewrite Hafter; exact Hfr|].
  split; [rewrite Hafter; exact Hpk|].
  split; [rewrite Hquiet; exact Hra|].
  split; [intros _; rewrite Hquiet; exact Hack|].
  destruct (run_erasure (es ++ [Gesture env qs]) (setup random_value)
              (setup random_value) Hlen0 eq_refl) as [Hsame _].
  rewrite <- Hsame. fold after. rewrite Hafter. symmetry. exact Hpk.
Qed.

(** C10. [checkRadio] asks the radio to power down exactly when the event
    reports transmit-ok or transmit-failed, and asks nothing else of it (no
    frame is sent); on data-received it stores the 32-bit payload in the
    acknowledgement counter and otherwise leaves the counter alone; it
    changes nothing else, and the frame the next gesture sends is the same
    with or without the event. *)
Theorem checkRadio_powers_down_and_counts
    (tx fail rx : bool) (payload : Z) (s : machine)
    (env : port_oracle) (qs : list irq) :
  let s' := exec (checkRadio tx fail rx payload) s in
  radio s' = radio s ++ (if tx || fail then [PowerDown] else []) /\
  frames_sent (radio s') = frames_sent (radio s) /\
  ackMessageCount s' = (if rx then payload mod 2 ^ 32 else ackMessageCount s) /\
  0 <= payload mod 2 ^ 32 < 2 ^ 32 /\
  packet s' = packet s /\ current_element s' = current_element s /\
  terminated s' = terminated s /\ stores s' = stores s /\
  port_reads s' = port_reads s /\
  packet (loop env qs s') = packet (loop env qs s).
Proof.
  intros s'.
  destruct (checkRadio_spec tx fail rx payload s)
    as (Hra & Hack & Hpk & Hcur & Hterm & Hst & Hreads).
  fold s' in Hra, Hack, Hpk, Hcur, Hterm, Hst, Hreads.
  split; [exact Hra|].
  split; [rewrite Hra, frames_sent_app; destruct (tx || fail); cbn;
          apply app_nil_r|].
  split; [exact Hack|].
  split; [apply Z.mod_pos_bound; lia|].
  split; [exact Hpk|]. split; [exact Hcur|]. split; [exact Hterm|].
  split; [exact Hst|]. split; [exact Hreads|].
  rewrite !loop_packet.
  apply calculate_packet_packet_only; [exact Hpk | reflexivity].
Qed.

(** ** What a pass stores, in general *)

(** Once [terminated] is set, every further turn of the scan stores one
    Stop and moves [current_element] on. *)
Lemma scan_after_termination (env : port_oracle) :
  forall (n : nat) (x : Z) (s : machine),
    terminated s <> 0 ->
    exec (for_up n x (button_body env)) s
    = append_all (replicate n PRIMO_COMMAND_STOP) s.
Proof.
  induction n as [|n IH]; intros x s Ht; [reflexivity|].
  cbn [for_up replicate]. rewrite exec_bind, append_all_cons, button_body_unfold.
  destruct (Z.eqb_spec (terminated s) 0) as [E | _]; [contradiction|].
  apply IH. rewrite append_packet_terminated. exact Ht.
Qed.

(** Whatever else is on the board, an empty first slot makes the pass store
    27 Stops, at the indices 8 to 34: the last three stores are beyond the
    packet. *)
Lemma empty_first_slot_stores_past_packet (env : port_oracle) (s : machine) :
  read_slot (env 4%nat) 1 = PRIMO_MAGNET_NONE ->
  stores (exec (calculate_packet env) (reset_port_reads s))
  = stores s ++ map (fun i => (i, PRIMO_COMMAND_STOP)) (consecutive 8 27).
Proof.
  intros Hnone.
  set (s1 := count_port_read (count_port_read (count_port_read (count_port_read
               (set_terminated 0 (set_current_element 8 (reset_port_reads s))))))).
  assert (Hunfold : exec (calculate_packet env) (reset_port_reads s)
                    = exec add_stops (exec (scan_buttons env) s1)).
  { unfold calculate_packet. rewrite !exec_bind. reflexivity. }
  rewrite Hunfold. clear Hunfold.
  set (s2 := set_terminated 1 (count_port_read s1)).
  assert (Hscan : exec (scan_buttons env) s1
                  = append_all (replicate 27 PRIMO_COMMAND_STOP) s2).
  { unfold scan_buttons, for_range. change (Z.to_nat (28 + 1 - 1)) with 28%nat.
    rewrite (for_up_S 27), exec_bind, button_body_unfold.
    change (terminated s1) with 0. cbn [Z.eqb].
    rewrite check_button_eval, check_button_exec.
    change (port_reads s1) with 4%nat. rewrite Hnone. cbn [Z.leb Z.compare Pos.compare Pos.compare_cont andb].
    rewrite exec_modify. apply scan_after_termination. discriminate. }
  rewrite Hscan.
  destruct (append_all_spec (replicate 27 0) s2) as (Hst & _ & _).
  assert (Hcur : current_element (append_all (replicate 27 0) s2) = 35).
  { unfold s2, s1. generalize s. intros m. reflexivity. }
  unfold add_stops. rewrite (add_stops_fuel_unfold 255), Hcur. cbn [Z.ltb Z.compare Pos.compare Pos.compare_cont].
  rewrite Hst. reflexivity.
Qed.

(** The figure-of-eight board of the sketch's test pattern, cut short by an
    empty slot 12: eleven commands, then Stop up to the end of the frame. *)
Example figure_of_eight_board :
  drop 8 (packet (loop (steady 0x5353 0x5656 0x0363 0) [] (setup 0)))
  = [1; 2; 1; 2; 1; 2; 1; 3; 1; 3; 1] ++ replicate 13 PRIMO_COMMAND_STOP.
Proof. vm_compute. reflexivity. Qed.


(** The stores of a pass go to the indices 8, 9, ..., [current_element] - 1
    without a hole, [current_element] ending at 28 or more whatever the
    ports read: a store lands outside the packet as soon as it ends
    above 32. *)
Lemma calculate_packet_store_indices (env : port_oracle) (s : machine) :
  length (packet s) = 32%nat ->
  let s' := exec (calculate_packet env) s in
  28 <= current_element s' /\
  exists new : list (Z * Z),
    stores s' = stores s ++ new /\
    map fst new = consecutive 8 (Z.to_nat (current_element s' - 8)).
Proof.
  intros Hlen s'.
  destruct (calculate_packet_base_inv env s Hlen) as [Hb Hcur].
  split; [exact Hcur|].
  destruct (bi_stores _ _ Hb) as (new & H1 & H2 & _).
  exists new. split; assumption.
Qed.

(** A pass that finds Stop in the last four bytes of the packet leaves a
    command region without a gap. *)
Lemma calculate_packet_gapless (env : port_oracle) (s : machine) :
  length (packet s) = 32%nat ->
  (forall i : nat, (28 <= i < 32)%nat -> packet s !! i = Some PRIMO_COMMAND_STOP) ->
  gapless (packet (exec (calculate_packet env) s)).
Proof.
  intros Hlen Htail.
  destruct (calculate_packet_base_inv env s Hlen) as [Hb Hcur].
  intros i j y Hi Hij Hj Hzero Hy.
  destruct (Z.lt_ge_cases (Z.of_nat j) (current_element (exec (calculate_packet env) s)))
    as [Hin | Hout].
  - exact (bi_gapless _ _ Hb i j y Hi Hij Hin Hzero Hy).
  - rewrite (bi_untouched _ _ Hb) in Hy by lia.
    rewrite Htail in Hy by lia. congruence.
Qed.

(** In particular the first frame after power-on has no gap. *)
Lemma first_frame_gapless (random_value : Z) (env : port_oracle) :
  gapless (packet (loop env [] (setup random_value))).
Proof.
  rewrite loop_packet. apply calculate_packet_gapless.
  - rewrite reset_port_reads_packet.
    destruct (setup_frame_layout random_value) as [Hlen _]. exact Hlen.
  - intros i Hi. rewrite reset_port_reads_packet, setup_packet.
    generalize (to_long random_value). intros z.
    assert (Hc : i = 28%nat \/ i = 29%nat \/ i = 30%nat \/ i = 31%nat) by lia.
    destruct Hc as [-> | [-> | [-> | ->]]]; reflexivity.
Qed.

(** ** Where the sketch departs from its specification *)

(** C8 (fails on the code). With nothing on the board (every port reads 0)
    the pass after power-on stores Stop at the indices 8 to 34: slot 1
    terminates the sequence and each of the 27 remaining turns of the
    28-button loop stores one Stop, the last three at indices 32, 33 and 34,
    beyond the 32-byte packet. *)
Theorem empty_board_stores_past_packet :
  pass_stores (steady 0 0 0 0) (setup 0)
  = map (fun i => (i, PRIMO_COMMAND_STOP)) (consecutive 8 27) /\
  In (34, PRIMO_COMMAND_STOP) (pass_stores (steady 0 0 0 0) (setup 0)) /\
  stores_in_packet (pass_stores (steady 0 0 0 0) (setup 0)) = false.
Proof.
  assert (H : pass_stores (steady 0 0 0 0) (setup 0)
              = map (fun i => (i, PRIMO_COMMAND_STOP)) (consecutive 8 27))
    by (vm_compute; reflexivity).
  split; [exact H|]. rewrite H. split; [|reflexivity].
  vm_compute. tauto.
Qed.

(** C3 (fails on the code). With a Function block in each of the slots 1
    to 12 and Forward blocks in the four slots of the function line, the
    pass appends 52 movement commands, at the indices 8 to 59, and then
    eleven Stops up to index 70: nothing is truncated at 24 commands and 39
    stores land beyond the packet. *)
Theorem function_blocks_overflow_frame :
  let st := pass_stores (steady 0x2222 0x2222 0x2222 0x3333) (setup 0) in
  map snd st = replicate 52 PRIMO_COMMAND_FORWARD ++ replicate 11 PRIMO_COMMAND_STOP /\
  map fst st = consecutive 8 63 /\
  count_movements st = 52%nat /\
  stores_in_packet st = false /\
  current_element (loop (steady 0x2222 0x2222 0x2222 0x3333) [] (setup 0)) = 71.
Proof. vm_compute. repeat split; reflexivity. Qed.

(** C4 (fails on the code). With a movement block in every slot and no
    Function block anywhere, the scan, which runs over the buttons 1 to 28,
    decodes the slots 13 to 16 as well and appends their four commands after
    those of the slots 1 to 12: the frame carries 16 commands.  With the
    function line empty the same board gives 12. *)
Theorem auxiliary_slots_scanned_as_primary :
  let ports := steady 0x3333 0x3333 0x3333 0x3333 in
  forallb (fun b => negb (read_slot (ports 0%nat) b =? PRIMO_MAGNET_FUNCTION))
          [1; 2; 3; 4; 5; 6; 7; 8; 9; 10; 11; 12; 13; 14; 15; 16] = true /\
  drop 8 (packet (loop ports [] (setup 0)))
  = [1; 1; 1; 1; 3; 3; 3; 2; 1; 1; 1; 1; 1; 1; 1; 1; 0; 0; 0; 0; 0; 0; 0; 0] /\
  drop 8 (packet (loop (steady 0x3333 0x3333 0x3333 0) [] (setup 0)))
  = [1; 1; 1; 1; 3; 3; 3; 2; 1; 1; 1; 1; 0; 0; 0; 0; 0; 0; 0; 0; 0; 0; 0; 0] /\
  count_movements (pass_stores ports (setup 0)) = 16%nat.
Proof. vm_compute. repeat split; reflexivity. Qed.

(** C2 (fails on the code). Two gestures after power-on.  The first board
    decodes to 21 commands (Function blocks in the slots 1 to 3, 15 and 16,
    movement blocks in all other slots), stored at the indices 8 to 28.  The
    second board has Function blocks in the slots 1 to 8 and nothing else:
    its pass stores Stop at the indices 8 to 27 only, because the
    stop-filling loop runs up to [PRIMO_MAX_BUTTON] = 28 and not up to the
    packet size, and makes no store outside the packet.  Byte 28 keeps the
    Forward command of the first pass: the second frame has Stop at the
    bytes 8 to 27 followed by Forward at byte 28. *)
Theorem stale_command_follows_stop :
  let first := steady 0x3222 0x3333 0x3333 0x2233 in
  let second := steady 0x2222 0x2222 0 0 in
  let s1 := run [Gesture first []] (setup 0) in
  let s2 := run [Gesture first []; Gesture second []] (setup 0) in
  count_movements (pass_stores first (setup 0)) = 21%nat /\
  pass_stores second s1
  = map (fun i => (i, PRIMO_COMMAND_STOP)) (consecutive 8 20) /\
  stores_in_packet (pass_stores second s1) = true /\
  frames_sent (radio s2)
  = [ [0x58; 0x87; 0x1D; 0xDE; 0; 0; 0; 0;
       1; 1; 1; 1; 1; 1; 1; 3; 3; 3; 2; 1; 1; 1; 1; 1; 1; 1; 1; 1; 1; 0; 0; 0];
      [0x58; 0x87; 0x1D; 0xDE; 0; 0; 0; 0;
       1; 1; 1; 1; 1; 1; 1; 3; 3; 3; 2; 1; 1; 1; 1; 1; 1; 1; 1; 1; 1; 0; 0; 0];
      [0x58; 0x87; 0x1D; 0xDE; 0; 0; 0; 0] ++ replicate 20 PRIMO_COMMAND_STOP
        ++ [PRIMO_COMMAND_FORWARD; 0; 0; 0];
      [0x58; 0x87; 0x1D; 0xDE; 0; 0; 0; 0] ++ replicate 20 PRIMO_COMMAND_STOP
        ++ [PRIMO_COMMAND_FORWARD; 0; 0; 0] ] /\
  packet s2 !! 27%nat = Some PRIMO_COMMAND_STOP /\
  packet s2 !! 28%nat = Some PRIMO_COMMAND_FORWARD /\
  ~ gapless (packet s2).
Proof.
  cbv zeta.
  assert (H : packet (run [Gesture (steady 0x3222 0x3333 0x3333 0x2233) [];
                          Gesture (steady 0x2222 0x2222 0 0) []] (setup 0))
              = [0x58; 0x87; 0x1D; 0xDE; 0; 0; 0; 0] ++ replicate 20 0 ++ [1; 0; 0; 0])
    by (vm_compute; reflexivity).
  split; [vm_compute; reflexivity|].
  split; [vm_compute; reflexivity|].
  split; [vm_compute; reflexivity|].
  split; [vm_compute; reflexivity|]. rewrite H.
  split; [reflexivity|]. split; [reflexivity|].
  intros Hgap.
  specialize (Hgap 27%nat 28%nat 1 ltac:(lia) ltac:(lia) ltac:(lia) eq_refl eq_refl).
  discriminate Hgap.
Qed.

(** * The LEDs and the replay *)

(** ** The monad over the panel *)

Lemma pexec_pbind {A B : Type} (c : P A) (k : A -> P B) (p : panel) :
  pexec (pbind c k) p = pexec (k (peval c p)) (pexec c p).
Proof. reflexivity. Qed.

Lemma pexec_pret {A : Type} (a : A) (p : panel) : pexec (pret a) p = p.
Proof. reflexivity. Qed.

Lemma pexec_pmodify (f : panel -> panel) (p : panel) :
  pexec (pmodify f) p = f p.
Proof. reflexivity. Qed.

Lemma pexec_lift {A : Type} (c : M A) (p : panel) :
  pexec (lift c) p = set_core (exec c (core p)) p.
Proof. reflexivity. Qed.

Lemma peval_lift {A : Type} (c : M A) (p : panel) :
  peval (lift c) p = eval c (core p).
Proof. reflexivity. Qed.

Lemma pfor_up_S (n : nat) (x : Z) (body : Z -> P unit) :
  pfor_up (S n) x body = pbind (body x) (fun _ => pfor_up n (x + 1) body).
Proof. reflexivity. Qed.

(** An invariant indexed by the number of iterations made carries through
    a counting loop of the panel. *)
Lemma pfor_up_invariant (Inv : nat -> panel -> Prop) (body : Z -> P unit) :
  forall (n k : nat) (x : Z) (p : panel),
    (forall (j : nat) (p' : panel),
        (j < n)%nat -> Inv (k + j)%nat p' ->
        Inv (k + S j)%nat (pexec (body (x + Z.of_nat j)) p')) ->
    Inv k p -> Inv (k + n)%nat (pexec (pfor_up n x body) p).
Proof.
  induction n as [|n IH]; intros k x p Hstep H0.
  - rewrite Nat.add_0_r. exact H0.
  - rewrite pfor_up_S, pexec_pbind.
    replace (k + S n)%nat with (S k + n)%nat by lia.
    apply IH.
    + intros j p' Hj Hp'.
      replace (x + 1 + Z.of_nat j) with (x + Z.of_nat (S j)) by lia.
      replace (S k + S j)%nat with (k + S (S j))%nat by lia.
      apply Hstep; [lia|].
      replace (k + S j)%nat with (S k + j)%nat by lia. exact Hp'.
    + specialize (Hstep 0%nat p). rewrite Z.add_0_r, Nat.add_0_r in Hstep.
      replace (S k) with (k + 1)%nat by lia. apply Hstep; [lia | exact H0].
Qed.

(** ** write_led *)

Lemma write_led_outside (led_number onoff : Z) :
  ~ (1 <= led_number <= 16) -> write_led led_number onoff = pret tt.
Proof.
  intros Hn. destruct led_number as [|q|q]; try reflexivity.
  do 5 (try destruct q as [q|q|]); try reflexivity; exfalso; apply Hn; lia.
Qed.

Lemma led_pin_inside (n : Z) :
  1 <= n <= 16 ->
  exists (e : expander) (pin : Z),
    led_pin n = Some (e, pin) /\ 3 <= pin <= 15.
Proof.
  intros Hn. each_button n Hn; eexists; eexists; (split; [reflexivity | lia]).
Qed.

Lemma led_pin_outside (n : Z) : ~ (1 <= n <= 16) -> led_pin n = None.
Proof.
  intros Hn. unfold led_pin. rewrite slot_wiring_default by exact Hn. reflexivity.
Qed.

Lemma write_led_exec (led_number onoff : Z) (p : panel) :
  pexec (write_led led_number onoff) p =
  match led_pin led_number with
  | Some (e, pin) => log_io (DigitalWrite e pin (1 - onoff)) p
  | None => p
  end.
Proof.
  destruct (Z.le_gt_cases 1 led_number) as [H1 | H1];
    [destruct (Z.le_gt_cases led_number 16) as [H2 | H2]|].
  - assert (Hn : 1 <= led_number <= 16) by lia. each_button led_number Hn; reflexivity.
  - rewrite write_led_outside, led_pin_outside by lia. reflexivity.
  - rewrite write_led_outside, led_pin_outside by lia. reflexivity.
Qed.

Lemma expander_eqb_eq (e e' : expander) : expander_eqb e e' = true <-> e = e'.
Proof. destruct e, e'; cbn; split; congruence. Qed.

Lemma pin_level_snoc (ops : list io_op) (op : io_op) (e : expander) (pin : Z) :
  pin_level (ops ++ [op]) e pin =
  match op with
  | DigitalWrite e' pin' v =>
      if expander_eqb e e' && (pin =? pin') then Some v else pin_level ops e pin
  | _ => pin_level ops e pin
  end.
Proof.
  induction ops as [|o ops IH].
  - destruct op; reflexivity.
  - cbn [app pin_level]. rewrite IH.
    destruct op; try reflexivity.
    destruct (expander_eqb e e0 && (pin =? pin0)); reflexivity.
Qed.

Lemma led_pin_injective (n m : Z) (x : expander * Z) :
  led_pin n = Some x -> led_pin m = Some x -> n = m.
Proof.
  intros Hn Hm.
  assert (In : 1 <= n <= 16).
  { destruct (Z.le_gt_cases 1 n), (Z.le_gt_cases n 16); try lia;
      rewrite led_pin_outside in Hn by lia; discriminate. }
  assert (Im : 1 <= m <= 16).
  { destruct (Z.le_gt_cases 1 m), (Z.le_gt_cases m 16); try lia;
      rewrite led_pin_outside in Hm by lia; discriminate. }
  rewrite <- Hm in Hn. clear Hm.
  each_button n In; each_button m Im; first [reflexivity | discriminate Hn].
Qed.

(** The level of one LED after a write to an LED. *)
Lemma led_level_write_led (led_number onoff : Z) (p : panel) (n : Z) :
  1 <= led_number <= 16 ->
  led_level (io (pexec (write_led led_number onoff) p)) n =
  if n =? led_number then Some (1 - onoff) else led_level (io p) n.
Proof.
  intros Hl. rewrite write_led_exec.
  destruct (led_pin_inside led_number Hl) as (e & pin & Hpin & _).
  rewrite Hpin. cbn [io log_io]. unfold led_level.
  destruct (Z.eqb_spec n led_number) as [-> | Hne].
  - rewrite Hpin, pin_level_snoc.
    assert (E : expander_eqb e e = true) by now apply expander_eqb_eq.
    rewrite E, Z.eqb_refl. reflexivity.
  - destruct (led_pin n) as [[e' pin']|] eqn:Hn; [|reflexivity].
    rewrite pin_level_snoc.
    destruct (expander_eqb e' e && (pin' =? pin)) eqn:Hsame; [|reflexivity].
    exfalso. apply Hne. apply andb_true_iff in Hsame. destruct Hsame as [He Hp].
    apply expander_eqb_eq in He. apply Z.eqb_eq in Hp. subst.
    exact (led_pin_injective _ _ _ Hn Hpin).
Qed.

Lemma write_led_keeps (led_number onoff : Z) (p : panel) :
  let p' := pexec (write_led led_number onoff) p in
  core p' = core p /\ movement_delay p' = movement_delay p /\
  led_fn_terminate p' = led_fn_terminate p /\
  total_delay (io p') = total_delay (io p).
Proof.
  cbv zeta. rewrite write_led_exec.
  destruct (led_pin led_number) as [[e pin]|]; [|auto].
  cbn [core movement_delay led_fn_terminate io log_io].
  repeat split. induction (io p) as [|o ops IH]; [reflexivity|].
  cbn [app total_delay]. rewrite IH. reflexivity.
Qed.


(** After the loop over all LEDs, each LED has the level asked for,
    whatever it had before; nothing else of the panel changes. *)
Lemma write_all_leds_spec (onoff : Z) (p : panel) :
  let p' := pexec (write_all_leds onoff) p in
  (forall n, 1 <= n <= 16 -> led_level (io p') n = Some (1 - onoff)) /\
  core p' = core p /\ movement_delay p' = movement_delay p /\
  led_fn_terminate p' = led_fn_terminate p /\
  total_delay (io p') = total_delay (io p).
Proof.
  pose (Inv := fun (j : nat) (q : panel) =>
    (forall n, 1 <= n <= Z.of_nat j -> led_level (io q) n = Some (1 - onoff)) /\
    core q = core p /\ movement_delay q = movement_delay p /\
    led_fn_terminate q = led_fn_terminate p /\
    total_delay (io q) = total_delay (io p)).
  change (Inv (0 + 16)%nat (pexec (write_all_leds onoff) p)).
  unfold write_all_leds, pfor_range. change (Z.to_nat (16 + 1 - 1)) with 16%nat.
  apply pfor_up_invariant.
  - intros j q Hj (Hlev & Hc & Hm & Hl & Ht).
    destruct (write_led_keeps (1 + Z.of_nat j) onoff q) as (Hc' & Hm' & Hl' & Ht').
    split; [|rewrite Hc', Hm', Hl', Ht'; auto].
    intros n Hn. rewrite led_level_write_led by lia.
    destruct (Z.eqb_spec n (1 + Z.of_nat j)); [reflexivity|].
    apply Hlev. lia.
  - split; [intros n Hn; lia | auto].
Qed.

(** ** The LED scan *)

Lemma port_reads_iter (j : nat) (m : machine) :
  port_reads (Nat.iter j count_port_read m) = (port_reads m + j)%nat.
Proof.
  induction j as [|j IH]; [cbn; lia|].
  rewrite Nat.iter_succ. cbn [port_reads count_port_read]. rewrite IH. lia.
Qed.

(** One turn of the scan: one port read, and the LED of the slot lit or
    put out. *)
Lemma led_scan_body_exec (env : port_oracle) (button : Z) (p : panel) :
  1 <= button <= 16 ->
  pexec (led_scan_body env button) p =
  pexec (write_led button
           (if read_slot (env (port_reads (core p))) button =? PRIMO_MAGNET_NONE
            then 0 else 1))
        (set_core (count_port_read (core p)) p).
Proof.
  intros Hb. unfold led_scan_body.
  rewrite pexec_pbind, peval_lift, pexec_lift, check_button_eval, check_button_exec.
  destruct (Z.leb_spec 1 button); [|lia].
  destruct (Z.leb_spec button 16); [|lia]. cbn [andb].
  destruct (read_slot_range (env (port_reads (core p))) button)
    as [E | [E | [E | [E | E]]]]; rewrite E; reflexivity.
Qed.

Lemma led_scan_round_spec (env : port_oracle) (p : panel) :
  let r := port_reads (core p) in
  let p' := pexec (led_scan_round env) p in
  (forall n, 1 <= n <= 16 ->
     led_level (io p') n =
     Some (if read_slot (env (r + Z.to_nat (n - 1))%nat) n =? PRIMO_MAGNET_NONE
           then 1 else 0)) /\
  core p' = Nat.iter 16 count_port_read (core p) /\
  movement_delay p' = movement_delay p /\
  led_fn_terminate p' = led_fn_terminate p /\
  total_delay (io p') = total_delay (io p).
Proof.
  intros r.
  pose (Inv := fun (j : nat) (q : panel) =>
    (forall n, 1 <= n <= Z.of_nat j ->
       led_level (io q) n =
       Some (if read_slot (env (r + Z.to_nat (n - 1))%nat) n =? 0 then 1 else 0)) /\
    core q = Nat.iter j count_port_read (core p) /\
    movement_delay q = movement_delay p /\
    led_fn_terminate q = led_fn_terminate p /\
    total_delay (io q) = total_delay (io p)).
  change (Inv (0 + 16)%nat (pexec (led_scan_round env) p)).
  unfold led_scan_round, pfor_range. change (Z.to_nat (16 + 1 - 1)) with 16%nat.
  apply pfor_up_invariant.
  - intros j q Hj (Hlev & Hc & Hm & Hl & Ht).
    rewrite led_scan_body_exec by lia.
    set (q1 := set_core (count_port_read (core q)) q).
    set (v := if read_slot (env (port_reads (core q))) (1 + Z.of_nat j) =? 0
              then 0 else 1).
    destruct (write_led_keeps (1 + Z.of_nat j) v q1) as (Hc' & Hm' & Hl' & Ht').
    assert (Hreads : port_reads (core q) = (r + j)%nat).
    { rewrite Hc, port_reads_iter. reflexivity. }
    split; [|rewrite Hc', Hm', Hl', Ht'; unfold q1;
             cbn [core set_core movement_delay led_fn_terminate io];
             rewrite Hc; auto].
    intros n Hn. rewrite led_level_write_led by lia.
    destruct (Z.eqb_spec n (1 + Z.of_nat j)) as [-> | Hne].
    + unfold v. rewrite Hreads.
      replace (Z.to_nat (1 + Z.of_nat j - 1)) with j by lia.
      destruct (read_slot (env (r + j)%nat) (1 + Z.of_nat j) =? 0); reflexivity.
    + unfold q1. cbn [io set_core]. apply Hlev. lia.
  - split; [intros n Hn; lia | auto].
Qed.

(** ** The LED phases never touch the frame *)

Lemma same_frame_refl (m : machine) : same_frame m m.
Proof. repeat split. Qed.

Lemma same_frame_trans (m1 m2 m3 : machine) :
  same_frame m1 m2 -> same_frame m2 m3 -> same_frame m1 m3.
Proof.
  intros (A1 & A2 & A3 & A4 & A5) (B1 & B2 & B3 & B4 & B5).
  repeat split; congruence.
Qed.

Lemma frame_safe_pret {A : Type} (a : A) : frame_safe (pret a).
Proof. intros p. apply same_frame_refl. Qed.

Lemma frame_safe_pbind {A B : Type} (c : P A) (k : A -> P B) :
  frame_safe c -> (forall a, frame_safe (k a)) -> frame_safe (pbind c k).
Proof.
  intros Hc Hk p. rewrite pexec_pbind.
  eapply same_frame_trans; [apply Hk | apply Hc].
Qed.

Lemma frame_safe_pfor_up (body : Z -> P unit) :
  (forall x, frame_safe (body x)) -> forall n x, frame_safe (pfor_up n x body).
Proof.
  intros Hbody. induction n as [|n IH]; intros x.
  - apply frame_safe_pret.
  - rewrite pfor_up_S. apply frame_safe_pbind; [apply Hbody | intros _; apply IH].
Qed.

Lemma frame_safe_prepeat (c : P unit) :
  frame_safe c -> forall n, frame_safe (prepeat n c).
Proof.
  intros Hc. induction n as [|n IH]; [apply frame_safe_pret|].
  cbn [prepeat]. apply frame_safe_pbind; [exact Hc | intros _; exact IH].
Qed.

Lemma frame_safe_io (f : panel -> panel) :
  (forall p, core (f p) = core p) -> frame_safe (pmodify f).
Proof. intros Hf p. rewrite pexec_pmodify, Hf. apply same_frame_refl. Qed.

Lemma frame_safe_write_led (led_number onoff : Z) :
  frame_safe (write_led led_number onoff).
Proof.
  intros p. destruct (write_led_keeps led_number onoff p) as [Hc _].
  rewrite Hc. apply same_frame_refl.
Qed.

Lemma frame_safe_check_button (env : port_oracle) (b : Z) :
  frame_safe (lift (check_button env b)).
Proof.
  intros p. rewrite pexec_lift. cbn [core set_core]. rewrite check_button_exec.
  destruct ((1 <=? b) && (b <=? 16)); repeat split.
Qed.

Lemma frame_safe_get_terminated : frame_safe (lift get_terminated).
Proof. intros p. repeat split. Qed.

Lemma frame_safe_set_terminated (v : Z) :
  frame_safe (lift (modify (set_terminated v))).
Proof. intros p. repeat split. Qed.

Lemma frame_safe_reset_port_reads : frame_safe (lift (modify reset_port_reads)).
Proof. intros p. repeat split. Qed.

Lemma frame_safe_delay (ms : Z) : frame_safe (delay ms).
Proof. apply frame_safe_io. reflexivity. Qed.

Lemma frame_safe_set_movement_delay (v : Z) :
  frame_safe (pmodify (set_movement_delay v)).
Proof. apply frame_safe_io. reflexivity. Qed.

Lemma frame_safe_set_led_fn_terminate (v : Z) :
  frame_safe (pmodify (set_led_fn_terminate v)).
Proof. apply frame_safe_io. reflexivity. Qed.

Lemma frame_safe_get_led_fn_terminate : frame_safe get_led_fn_terminate.
Proof. intros p. apply same_frame_refl. Qed.

Lemma frame_safe_get_movement_delay : frame_safe get_movement_delay.
Proof. intros p. apply same_frame_refl. Qed.

Create HintDb frame_safe.

#[local] Hint Resolve frame_safe_pret frame_safe_write_led
  frame_safe_check_button frame_safe_get_terminated frame_safe_set_terminated
  frame_safe_reset_port_reads frame_safe_delay frame_safe_set_movement_delay
  frame_safe_set_led_fn_terminate frame_safe_get_led_fn_terminate
  frame_safe_get_movement_delay : frame_safe.

Lemma frame_safe_write_all_leds (onoff : Z) : frame_safe (write_all_leds onoff).
Proof. apply frame_safe_pfor_up. intros x. apply frame_safe_write_led. Qed.

Lemma frame_safe_led_scan_body (env : port_oracle) (button : Z) :
  frame_safe (led_scan_body env button).
Proof.
  unfold led_scan_body. apply frame_safe_pbind; [auto with frame_safe|].
  intros m. destruct m as [|q|q]; auto with frame_safe;
    do 3 (try destruct q as [q|q|]); auto with frame_safe.
Qed.

Lemma frame_safe_led_scan_round (env : port_oracle) :
  frame_safe (led_scan_round env).
Proof. apply frame_safe_pfor_up. apply frame_safe_led_scan_body. Qed.

Lemma frame_safe_replay_function_body (env : port_oracle) (fe : Z) :
  frame_safe (replay_function_body env fe).
Proof.
  unfold replay_function_body. apply frame_safe_pbind; [auto with frame_safe|].
  intros t. destruct (t =? 0); [|auto with frame_safe].
  apply frame_safe_pbind; [auto with frame_safe|].
  intros m. destruct (m =? 0); [auto with frame_safe|].
  apply frame_safe_pbind; [auto with frame_safe|]. intros _.
  apply frame_safe_pbind; [auto with frame_safe|].
  intros a. destruct (a =? 1); auto with frame_safe.
Qed.

Lemma frame_safe_relight_body (env : port_oracle) (fe : Z) :
  frame_safe (relight_body env fe).
Proof.
  unfold relight_body. apply frame_safe_pbind; [auto with frame_safe|].
  intros m. destruct (m =? 0); auto with frame_safe.
Qed.

Lemma frame_safe_replay_body (env : port_oracle) (button : Z) :
  frame_safe (replay_body env button).
Proof.
  unfold replay_body. apply frame_safe_pbind; [auto with frame_safe|].
  intros t. destruct (t =? 0); [|auto with frame_safe].
  apply frame_safe_pbind; [auto with frame_safe|]. intros m.
  apply frame_safe_pbind;
    [|intros _; apply frame_safe_pbind; [auto with frame_safe|];
      intros d; auto with frame_safe].
  assert (Hmove : forall v, frame_safe
            (pbind (write_led button 0) (fun _ => pmodify (set_movement_delay v)))).
  { intros v. apply frame_safe_pbind; [auto with frame_safe|].
    intros _. auto with frame_safe. }
  assert (Hfun : frame_safe
            (pbind (write_led button 0) (fun _ =>
             pbind (pmodify (set_led_fn_terminate 0)) (fun _ =>
             pbind (pfor_range 1 4 (replay_function_body env)) (fun _ =>
             pbind (pfor_range 1 4 (relight_body env)) (fun _ =>
             pmodify (set_movement_delay 0))))))).
  { apply frame_safe_pbind; [auto with frame_safe|]. intros _.
    apply frame_safe_pbind; [auto with frame_safe|]. intros _.
    apply frame_safe_pbind;
      [apply frame_safe_pfor_up; apply frame_safe_replay_function_body|].
    intros _.
    apply frame_safe_pbind;
      [apply frame_safe_pfor_up; apply frame_safe_relight_body|].
    intros _. auto with frame_safe. }
  destruct m as [|q|q]; auto with frame_safe;
    do 3 (try destruct q as [q|q|]); auto with frame_safe.
Qed.

Lemma frame_safe_replay (env : port_oracle) : frame_safe (replay env).
Proof.
  unfold replay. apply frame_safe_pbind; [auto with frame_safe|]. intros _.
  apply frame_safe_pfor_up. apply frame_safe_replay_body.
Qed.

(** ** The whole pass of loop *)

(** The pass that builds and sends the frame starts from the packet, the
    logs and the acknowledgement counter only: [current_element],
    [terminated] and the count of port reads are set afresh. *)
Lemma loop_from_frame (env : port_oracle) (qs : list irq) (m m' : machine) :
  same_frame m m' -> loop env qs m = loop env qs m'.
Proof.
  intros (Hp & Hs & Hr & Ha & Ho).
  assert (E : exec (bind (modify (set_current_element 8))
                      (fun _ => modify (set_terminated 0))) (reset_port_reads m)
              = exec (bind (modify (set_current_element 8))
                      (fun _ => modify (set_terminated 0))) (reset_port_reads m')).
  { unfold exec, bind, modify, set_terminated, set_current_element, reset_port_reads.
    cbn. rewrite Hp, Hs, Hr, Ha, Ho. reflexivity. }
  unfold loop, loop_pass, calculate_packet.
  rewrite !exec_bind, !exec_modify.
  rewrite exec_bind, !exec_modify in E. rewrite E. reflexivity.
Qed.

Lemma pexec_lift_modify (f : machine -> machine) (p : panel) :
  core (pexec (lift (modify f)) p) = f (core p).
Proof. reflexivity. Qed.

Lemma movement_delay_lift {A : Type} (c : M A) (p : panel) :
  movement_delay (pexec (lift c) p) = movement_delay p.
Proof. reflexivity. Qed.

Lemma io_lift {A : Type} (c : M A) (p : panel) : io (pexec (lift c) p) = io p.
Proof. reflexivity. Qed.

(** ** The delays of the replay *)






Lemma lift_get_terminated (p : panel) : pexec (lift get_terminated) p = p.
Proof. destruct p. reflexivity. Qed.




Lemma prepeat_invariant (Inv : panel -> Prop) (c : P unit) :
  (forall q, Inv q -> Inv (pexec c q)) ->
  forall (n : nat) (p : panel), Inv p -> Inv (pexec (prepeat n c) p).
Proof.
  intros Hc. induction n as [|n IH]; intros p Hp; [exact Hp|].
  cbn [prepeat]. rewrite pexec_pbind. apply IH. apply Hc. exact Hp.
Qed.


(** Once [terminated] is set, the remaining turns of the replay loop do
    nothing. *)
Lemma replay_after_termination (env : port_oracle) :
  forall (n : nat) (x : Z) (p : panel),
    terminated (core p) <> 0 -> pexec (pfor_up n x (replay_body env)) p = p.
Proof.
  induction n as [|n IH]; intros x p Ht; [reflexivity|].
  rewrite pfor_up_S, pexec_pbind.
  assert (E : pexec (replay_body env x) p = p).
  { unfold replay_body. rewrite pexec_pbind, peval_lift, lift_get_terminated.
    change (eval get_terminated (core p)) with (terminated (core p)).
    destruct (Z.eqb_spec (terminated (core p)) 0); [contradiction | reflexivity]. }
  rewrite E. apply IH. exact Ht.
Qed.


(** The phases of [loop_whole], one after the other. *)
Lemma loop_whole_unfold (held : port_oracle) (rounds : nat)
    (env : port_oracle) (qs : list irq) (after : port_oracle) (p : panel) :
  pexec (loop_whole held rounds env qs after) p =
  pexec (write_all_leds 0)
    (pexec (replay after)
       (pexec (lift (modify reset_port_reads))
          (pexec (lift (modify (loop env qs)))
             (pexec (prepeat rounds (led_scan_round held))
                (pexec (lift (modify reset_port_reads))
                   (pexec (write_all_leds 0) p)))))).
Proof. unfold loop_whole. rewrite !pexec_pbind. reflexivity. Qed.

(** What holds when the replay starts. *)
Lemma before_replay (held : port_oracle) (rounds : nat)
    (env : port_oracle) (qs : list irq) (p : panel) :
  let p5 := pexec (lift (modify reset_port_reads))
              (pexec (lift (modify (loop env qs)))
                 (pexec (prepeat rounds (led_scan_round held))
                    (pexec (lift (modify reset_port_reads))
                       (pexec (write_all_leds 0) p)))) in
  core p5 = reset_port_reads (loop env qs (core p)) /\
  movement_delay p5 = movement_delay p /\
  total_delay (io p5) = total_delay (io p).
Proof.
  destruct (write_all_leds_spec 0 p) as (_ & Hc1 & Hm1 & _ & Ht1).
  set (p1 := pexec (write_all_leds 0) p) in *.
  set (p2 := pexec (lift (modify reset_port_reads)) p1).
  pose (Inv := fun q : panel =>
    same_frame (core q) (core p) /\ movement_delay q = movement_delay p /\
    total_delay (io q) = total_delay (io p)).
  assert (H3 : Inv (pexec (prepeat rounds (led_scan_round held)) p2)).
  { apply prepeat_invariant.
    - intros q (Hf & Hm & Ht).
      destruct (led_scan_round_spec held q) as (_ & _ & Hm' & _ & Ht').
      unfold Inv. split; [|split; congruence].
      eapply same_frame_trans; [apply frame_safe_led_scan_round | exact Hf].
    - unfold Inv, p2.
      rewrite pexec_lift_modify, movement_delay_lift, io_lift, Hc1, Hm1, Ht1.
      split; [repeat split | split; reflexivity]. }
  set (p3 := pexec (prepeat rounds (led_scan_round held)) p2) in *.
  destruct H3 as (Hf3 & Hm3 & Ht3).
  cbv zeta.
  rewrite !pexec_lift_modify, !movement_delay_lift, !io_lift.
  rewrite (loop_from_frame env qs _ _ Hf3), Hm3, Ht3. auto.
Qed.

(** X1. Setup and button-scan aside, a whole pass of [loop] leaves the packet,
    the store log, the radio log and the acknowledgement counter exactly as
    the frame-building pass alone does: the LED scan before it and the LED
    replay after it change none of them. *)
Theorem loop_whole_sends_what_loop_sends (held : port_oracle) (rounds : nat)
    (env : port_oracle) (qs : list irq) (after : port_oracle) (p : panel) :
  same_frame (core (pexec (loop_whole held rounds env qs after) p))
             (loop env qs (core p)).
Proof.
  rewrite loop_whole_unfold.
  destruct (before_replay held rounds env qs p) as (Hc & _ & _).
  set (p5 := pexec (lift (modify reset_port_reads)) _) in *.
  eapply same_frame_trans; [apply frame_safe_write_all_leds|].
  eapply same_frame_trans; [apply frame_safe_replay|].
  rewrite Hc. repeat split.
Qed.





(** X4. Whatever the LEDs showed and whatever the ports read, every one of
    the sixteen LEDs is off when a pass of [loop] ends. *)
Theorem loop_whole_ends_dark (held : port_oracle) (rounds : nat)
    (env : port_oracle) (qs : list irq) (after : port_oracle) (p : panel)
    (n : Z) :
  1 <= n <= 16 ->
  led_level (io (pexec (loop_whole held rounds env qs after) p)) n = Some 1.
Proof.
  intros Hn. rewrite loop_whole_unfold.
  set (p6 := pexec (replay after) _).
  destruct (write_all_leds_spec 0 p6) as (Hoff & _).
  exact (Hoff n Hn).
Qed.

Lemma loop_whole_ends_dark_witness :
  1 <= 5 <= 16 /\
  led_level (io (pexec (loop_whole (steady 0x0003 0 0 0) 2 (steady 0x0003 0 0 0) []
                          (steady 0x0003 0 0 0)) (boot 0))) 5 = Some 1.
Proof.
  split; [lia|]. apply loop_whole_ends_dark. lia.
Defined.

(** ** What check_button looks at *)

Lemma three_bit_value (x : Z) :
  0 <= x < 8 ->
  x = Z.b2z (Z.testbit x 0) + 2 * Z.b2z (Z.testbit x 1) + 4 * Z.b2z (Z.testbit x 2).
Proof. intros H. three_bit x H; reflexivity. Qed.

Lemma nibble_bit (h o k : Z) :
  0 <= o <= 12 -> 0 <= k < 3 ->
  Z.testbit (nibble h o mod 8) k = Z.testbit h (o + k).
Proof.
  intros Ho Hk. unfold nibble.
  change 8 with (2 ^ 3). change 16 with (2 ^ 4). change 65536 with (2 ^ 16).
  rewrite Z.mod_pow2_bits_low by lia.
  rewrite Z.mod_pow2_bits_low by lia.
  rewrite Z.div_pow2_bits by lia.
  rewrite Z.mod_pow2_bits_low by lia.
  f_equal. lia.
Qed.

(** The 3-bit code of a nibble is made of the bits [o], [o + 1] and
    [o + 2] of the port value. *)
Lemma nibble_code (h o : Z) :
  0 <= o <= 12 ->
  nibble h o mod 8 =
  Z.b2z (Z.testbit h o) + 2 * Z.b2z (Z.testbit h (o + 1))
  + 4 * Z.b2z (Z.testbit h (o + 2)).
Proof.
  intros Ho.
  rewrite (three_bit_value (nibble h o mod 8)) by (apply Z.mod_pos_bound; lia).
  rewrite !nibble_bit by lia. rewrite Z.add_0_r. reflexivity.
Qed.

Lemma slot_wiring_offset (b : Z) (g : expander) (o : Z) (i t : bool) :
  slot_wiring b = Some (g, o, i, t) -> 0 <= o <= 12.
Proof.
  intros H.
  assert (Hb : 1 <= b <= 16).
  { destruct (Z.le_gt_cases 1 b), (Z.le_gt_cases b 16); try lia;
      rewrite slot_wiring_default in H by lia; discriminate. }
  each_button b Hb; inversion H; lia.
Qed.

Lemma read_slot_three_bits (ports ports' : expander -> Z) (b : Z) :
  (forall g o i t, slot_wiring b = Some (g, o, i, t) ->
     forall k, 0 <= k < 3 ->
       Z.testbit (ports g) (o + k) = Z.testbit (ports' g) (o + k)) ->
  read_slot ports b = read_slot ports' b.
Proof.
  intros H. unfold read_slot, corrected_code.
  destruct (slot_wiring b) as [[[[g o] i] t]|] eqn:Hw; [|reflexivity].
  pose proof (slot_wiring_offset b g o i t Hw) as Ho.
  specialize (H g o i t eq_refl).
  rewrite (nibble_code (ports g)), (nibble_code (ports' g)) by exact Ho.
  pose proof (H 0 ltac:(lia)) as H0. rewrite Z.add_0_r in H0.
  rewrite H0, (H 1), (H 2) by lia. reflexivity.
Qed.

Lemma slot_wiring_offsets (b : Z) (g : expander) (o : Z) (i t : bool) :
  slot_wiring b = Some (g, o, i, t) -> o = 0 \/ o = 4 \/ o = 8 \/ o = 12.
Proof.
  intros H.
  assert (Hb : 1 <= b <= 16).
  { destruct (Z.le_gt_cases 1 b), (Z.le_gt_cases b 16); try lia;
      rewrite slot_wiring_default in H by lia; discriminate. }
  each_button b Hb; inversion H; lia.
Qed.

(** X5. What [check_button] returns for a slot depends on three bits only:
    the bits [o], [o + 1], [o + 2] of the reading of the slot's own
    expander, [o] being the offset of the slot's nibble.  Two readings that
    agree on them decode alike, whatever the other slots, the LED pins and
    the rest of the machine hold. *)
Theorem check_button_reads_three_bits
    (env env' : port_oracle) (button_to_check : Z) (s s' : machine) :
  (forall g o i t, slot_wiring button_to_check = Some (g, o, i, t) ->
     forall k, 0 <= k < 3 ->
       Z.testbit (env (port_reads s) g) (o + k)
       = Z.testbit (env' (port_reads s') g) (o + k)) ->
  eval (check_button env button_to_check) s
  = eval (check_button env' button_to_check) s'.
Proof.
  intros H. rewrite !check_button_eval. apply read_slot_three_bits. exact H.
Qed.

(** Slot 6 with a Left block: the readings 0x0050 and 0xFFDF of its
    expander differ everywhere but in the bits 4, 5 and 6. *)
Lemma check_button_reads_three_bits_witness :
  eval (check_button (steady 0 0x0050 0 0) 6) power_on
  = eval (check_button (steady 0x1234 0xFFDF 0xFFFF 0x8888) 6) (setup 7).
Proof.
  apply check_button_reads_three_bits.
  intros g o i t Hw k Hk. vm_compute in Hw. inversion Hw; subst.
  assert (Hc : k = 0 \/ k = 1 \/ k = 2) by lia.
  destruct Hc as [-> | [-> | ->]]; reflexivity.
Defined.

(** X6. The bits of a port reading outside the mask 0x7777 -- the four LED
    pins 3, 7, 11, 15 that [write_led] drives, and anything above bit 15 --
    never change what [check_button] returns. *)
Theorem check_button_ignores_led_pins
    (env noise : port_oracle) (button_to_check : Z) (s : machine) :
  eval (check_button
          (fun n e => Z.lxor (env n e) (Z.land (noise n e) (Z.lnot 0x7777)))
          button_to_check) s
  = eval (check_button env button_to_check) s.
Proof.
  rewrite !check_button_eval. apply read_slot_three_bits.
  intros g o i t Hw k Hk.
  rewrite Z.lxor_spec, Z.land_spec, Z.lnot_spec by
    (destruct (slot_wiring_offsets _ _ _ _ _ Hw) as [-> | [-> | [-> | ->]]]; lia).
  assert (Hbit : Z.testbit 0x7777 (o + k) = true).
  { assert (Hc : k = 0 \/ k = 1 \/ k = 2) by lia.
    destruct (slot_wiring_offsets _ _ _ _ _ Hw) as [-> | [-> | [-> | ->]]];
      destruct Hc as [-> | [-> | ->]]; reflexivity. }
  rewrite Hbit. cbn [negb]. rewrite andb_false_r, xorb_false_r. reflexivity.
Qed.

(** ** write_led and the LED loops *)

(** X7. [write_led (n, onoff)] makes one write, of [1 - onoff], to bit 3 of
    the nibble of the expander from which [check_button] reads slot [n]
    (the pins 3, 7, 11, 15 of the expander of the slot); for a number
    outside 1..16 it writes nothing.  Nothing else of the panel changes. *)
Theorem write_led_drives_slot_pin (led_number onoff : Z) (p : panel) :
  let p' := pexec (write_led led_number onoff) p in
  io p' = io p ++ match slot_wiring led_number with
                  | Some (group, offset, _, _) =>
                      [DigitalWrite group (offset + 3) (1 - onoff)]
                  | None => []
                  end /\
  core p' = core p /\ movement_delay p' = movement_delay p /\
  led_fn_terminate p' = led_fn_terminate p.
Proof.
  cbv zeta. destruct (write_led_keeps led_number onoff p) as (Hc & Hm & Hl & _).
  split; [|auto]. rewrite write_led_exec. unfold led_pin.
  destruct (slot_wiring led_number) as [[[[g o] i] t]|];
    [reflexivity | symmetry; apply app_nil_r].
Qed.

(** X8. After [write_led (n, onoff)] with [n] in 1..16 the LED [n] has the
    level [1 - onoff] (0 lights it) and every other LED the level it had. *)
Theorem write_led_sets_one_led (led_number onoff : Z) (p : panel) (n : Z) :
  1 <= led_number <= 16 ->
  led_level (io (pexec (write_led led_number onoff) p)) n =
  if n =? led_number then Some (1 - onoff) else led_level (io p) n.
Proof. apply led_level_write_led. Qed.

Lemma write_led_sets_one_led_witness :
  led_level (io (pexec (write_led 8 1) (boot 0))) 8 = Some 0 /\
  led_level (io (pexec (write_led 8 1) (boot 0))) 7 = Some 1.
Proof.
  split.
  - exact (write_led_sets_one_led 8 1 (boot 0) 8 ltac:(lia)).
  - exact (write_led_sets_one_led 8 1 (boot 0) 7 ltac:(lia)).
Defined.

(** X9. The loop [for (i = 1; i <= 16; i++) write_led(i, onoff)] gives every
    LED the level [1 - onoff] whatever it showed before, asks for no delay
    and leaves the machine of the frame as it is. *)
Theorem write_all_leds_sets_every_led (onoff : Z) (p : panel) (n : Z) :
  1 <= n <= 16 ->
  let p' := pexec (write_all_leds onoff) p in
  led_level (io p') n = Some (1 - onoff) /\
  core p' = core p /\ total_delay (io p') = total_delay (io p).
Proof.
  intros Hn. destruct (write_all_leds_spec onoff p) as (Hlev & Hc & _ & _ & Ht).
  cbv zeta. split; [exact (Hlev n Hn) | auto].
Qed.

Lemma write_all_leds_sets_every_led_witness :
  led_level (io (pexec (write_all_leds 1) panel_power_on)) 13 = Some 0.
Proof.
  exact (proj1 (write_all_leds_sets_every_led 1 panel_power_on 13 ltac:(lia))).
Defined.

(** X10. One turn of the scan that runs while the user-button is held reads
    the slots 1 to 16 once each, in that order, and leaves the LED of every
    slot lit (level 0) when the slot decoded to a block and out (level 1)
    when it decoded to None; the packet, the logs of the machine and the
    acknowledgement counter are not touched. *)
Theorem led_scan_round_lights_filled_slots
    (env : port_oracle) (p : panel) (n : Z) :
  1 <= n <= 16 ->
  let r := port_reads (core p) in
  let p' := pexec (led_scan_round env) p in
  led_level (io p') n =
    Some (if read_slot (env (r + Z.to_nat (n - 1))%nat) n =? PRIMO_MAGNET_NONE
          then 1 else 0) /\
  port_reads (core p') = (r + 16)%nat /\
  same_frame (core p') (core p) /\
  total_delay (io p') = total_delay (io p).
Proof.
  intros Hn. cbv zeta.
  destruct (led_scan_round_spec env p) as (Hlev & Hc & _ & _ & Ht).
  split; [exact (Hlev n Hn)|].
  split; [rewrite Hc; apply port_reads_iter|].
  split; [apply frame_safe_led_scan_round | exact Ht].
Qed.

(** A Forward block in slot 2 only. *)
Lemma led_scan_round_lights_filled_slots_witness :
  led_level (io (pexec (led_scan_round (steady 0x0030 0 0 0)) (boot 0))) 2
  = Some 0.
Proof.
  exact (proj1 (led_scan_round_lights_filled_slots
                  (steady 0x0030 0 0 0) (boot 0) 2 ltac:(lia))).
Defined.

(** ** setup *)

Lemma core_log_io (op : io_op) (p : panel) :
  core (pexec (pmodify (log_io op)) p) = core p.
Proof. reflexivity. Qed.

Lemma core_lift {A : Type} (c : M A) (p : panel) :
  core (pexec (lift c) p) = exec c (core p).
Proof. reflexivity. Qed.

Lemma core_write_all_leds (onoff : Z) (p : panel) :
  core (pexec (write_all_leds onoff) p) = core p.
Proof. apply (write_all_leds_spec onoff p). Qed.

Lemma core_blink (p : panel) :
  core (pexec (pfor_range 1 3 led_loop_body) p) = core p.
Proof.
  pose (Inv := fun (j : nat) (q : panel) => core q = core p).
  change (Inv (0 + 3)%nat (pexec (pfor_range 1 3 led_loop_body) p)).
  unfold pfor_range. change (Z.to_nat (3 + 1 - 1)) with 3%nat.
  apply pfor_up_invariant; [|reflexivity].
  intros j q _ Hq. unfold Inv in *. unfold led_loop_body, delay.
  rewrite !pexec_pbind, !core_write_all_leds, !core_log_io,
    !core_write_all_leds, !core_log_io.
  exact Hq.
Qed.

Lemma boot_core (random_value : Z) : core (boot random_value) = setup random_value.
Proof.
  unfold boot, setup_board, pinMode_OUTPUT.
  rewrite !pexec_pbind, core_blink, core_lift, !core_log_io.
  reflexivity.
Qed.

Lemma boot_io (random_value : Z) : io (boot random_value) = io (boot 0).
Proof. vm_compute. reflexivity. Qed.

(** X11. [setup] sets to output exactly the sixteen pins that [write_led]
    drives, no other; it leaves the packet as [initialise_packet] makes it,
    every LED off after three blinks, [movement_delay] at 0, and has waited
    600 milliseconds in all. *)
Theorem setup_configures_led_pins (random_value : Z) (e : expander) (pin : Z) :
  (In (PinModeOutput e pin) (io (boot random_value))
   <-> exists n : Z, led_pin n = Some (e, pin)) /\
  core (boot random_value) = setup random_value /\
  map (led_level (io (boot random_value)))
      [1; 2; 3; 4; 5; 6; 7; 8; 9; 10; 11; 12; 13; 14; 15; 16]
  = replicate 16 (Some 1) /\
  movement_delay (boot random_value) = 0 /\
  total_delay (io (boot random_value)) = 600.
Proof.
  split; [|split; [apply boot_core|]].
  - rewrite boot_io. split.
    + intros H. vm_compute in H.
      repeat (destruct H as [H | H];
              [first [ discriminate H
                     | inversion H; subst;
                       first [ exists 1; reflexivity | exists 2; reflexivity
                             | exists 3; reflexivity | exists 4; reflexivity
                             | exists 5; reflexivity | exists 6; reflexivity
                             | exists 7; reflexivity | exists 8; reflexivity
                             | exists 9; reflexivity | exists 10; reflexivity
                             | exists 11; reflexivity | exists 12; reflexivity
                             | exists 13; reflexivity | exists 14; reflexivity
                             | exists 15; reflexivity | exists 16; reflexivity ] ]
              |]).
      contradiction.
    + intros [n Hn].
      assert (Hr : 1 <= n <= 16).
      { destruct (Z.le_gt_cases 1 n), (Z.le_gt_cases n 16); try lia;
          rewrite led_pin_outside in Hn by lia; discriminate. }
      each_button n Hr; inversion Hn; subst; vm_compute; tauto.
  - rewrite boot_io. vm_compute. auto.
Qed.

(** ** Where a pass leaves the array *)

Lemma read_slot_outside (ports : expander -> Z) (b : Z) :
  ~ (1 <= b <= 16) -> read_slot ports b = PRIMO_MAGNET_NONE.
Proof.
  intros Hb. unfold read_slot, corrected_code, slot_inverted.
  rewrite slot_wiring_default by exact Hb. reflexivity.
Qed.

Lemma check_button_current_element (env : port_oracle) (b : Z) (s : machine) :
  current_element (exec (check_button env b) s) = current_element s.
Proof.
  rewrite check_button_exec. destruct ((1 <=? b) && (b <=? 16)); reflexivity.
Qed.

(** What one turn of the scan loop does to [current_element] and to
    [terminated]. *)
Lemma button_body_progress (env : port_oracle) (s0 : machine) (b button : Z)
    (s : machine) :
  scan_inv s0 b s -> current_element s <= 122 ->
  let s' := exec (button_body env button) s in
  scan_inv s0 0 s' /\
  (terminated s <> 0 ->
     terminated s' <> 0 /\ current_element s' = current_element s + 1) /\
  (terminated s = 0 ->
     (terminated s' = 0 /\ current_element s' <= current_element s + 4 /\
      1 <= button <= 16) \/
     (terminated s' <> 0 /\ current_element s' = current_element s)).
Proof.
  intros H Hcur s'.
  assert (Hlow : 8 <= current_element s).
  { destruct H as (Hb & _). exact (bi_low _ _ Hb). }
  assert (H4 : scan_inv s0 (122 - current_element s + 4) s).
  { destruct H as (Hb & H0 & Hhi & Hterm).
    apply scan_inv_intro; [exact Hb | lia | lia | exact Hterm]. }
  apply (scan_inv_button_body env s0 (122 - current_element s) button) in H4;
    [|lia].
  fold s' in H4.
  assert (Hup : current_element s' <= current_element s + 4).
  { destruct H4 as (_ & _ & Hhi & _). lia. }
  split; [apply (scan_inv_weaken s0 (122 - current_element s)); [exact H4 | lia]|].
  assert (E : s' = exec (button_body env button) s) by reflexivity.
  clearbody s'. rewrite button_body_unfold in E.
  split.
  - intros Ht. destruct (Z.eqb_spec (terminated s) 0) as [Ht0 | _]; [contradiction|].
    subst s'. rewrite append_packet_terminated, append_packet_current_element.
    split; [exact Ht | apply to_char_small; lia].
  - intros Ht. rewrite Ht in E. cbn [Z.eqb] in E.
    pose proof (check_button_terminated env button s) as Ht1. rewrite Ht in Ht1.
    pose proof (check_button_current_element env button s) as Hc1.
    assert (Hin : eval (check_button env button) s <> PRIMO_MAGNET_NONE ->
                  1 <= button <= 16).
    { intros Hne. destruct (Z.le_gt_cases 1 button), (Z.le_gt_cases button 16);
        try lia; exfalso; apply Hne; rewrite check_button_eval;
        apply read_slot_outside; lia. }
    destruct (check_button_range env button s) as [Ev | [Ev | [Ev | [Ev | Ev]]]];
      rewrite Ev in E, Hin; cbv iota in E.
    + right. subst s'. rewrite exec_modify. cbn [terminated current_element set_terminated].
      split; [discriminate | exact Hc1].
    + left. subst s'. rewrite append_packet_terminated in *.
      split; [exact Ht1 | split; [exact Hup | apply Hin; discriminate]].
    + left. subst s'. rewrite append_packet_terminated in *.
      split; [exact Ht1 | split; [exact Hup | apply Hin; discriminate]].
    + left. subst s'. rewrite append_packet_terminated in *.
      split; [exact Ht1 | split; [exact Hup | apply Hin; discriminate]].
    + left. subst s'.
      destruct (scan_inv_expand_function env s0 0 (exec (check_button env button) s))
        as [_ Hte]; [lia | | exact Ht1 |].
      * apply scan_inv_check_button.
        destruct H as (Hb & H0 & Hhi & Hterm).
        apply scan_inv_intro; [exact Hb | lia | lia | exact Hterm].
      * split; [exact Hte | split; [exact Hup | apply Hin; discriminate]].
Qed.

(** The first [n] turns of the scan loop. *)
Lemma scan_prefix (env : port_oracle) (s0 s : machine) (n : nat) :
  (n <= 28)%nat ->
  scan_inv s0 0 s -> current_element s = 8 -> terminated s = 0 ->
  let s' := exec (for_up n 1 (button_body env)) s in
  scan_inv s0 0 s' /\ current_element s' <= scan_reach (Z.of_nat n) /\
  ((17 <= n)%nat -> terminated s' <> 0).
Proof.
  intros Hn H Hc Ht.
  pose (Inv := fun (j : nat) (m : machine) =>
                 scan_inv s0 0 m /\
                 current_element m <= scan_reach (Z.of_nat j) /\
                 (terminated m <> 0 -> (j <= 16)%nat ->
                    current_element m <= 4 + 4 * Z.of_nat j) /\
                 (terminated m = 0 -> (j <= 16)%nat)).
  assert (HI : Inv (0 + n)%nat (exec (for_up n 1 (button_body env)) s)).
  { apply for_up_invariant.
    - intros j m Hj (Hm & Hr & Hte & Hnt). unfold Inv.
      rewrite Nat.add_0_l in *.
      assert (Hr' : current_element m <= 122).
      { unfold scan_reach in Hr. destruct (Z.leb_spec (Z.of_nat j) 16); lia. }
      destruct (button_body_progress env s0 0 (1 + Z.of_nat j) m Hm Hr')
        as (Hm' & Hyes & Hno).
      split; [exact Hm'|].
      unfold scan_reach in *.
      destruct (Z.eq_dec (terminated m) 0) as [Hz | Hnz].
      + specialize (Hnt Hz).
        destruct (Hno Hz) as [(Hz' & Hup & Hb) | (Hnz' & Heq)].
        * destruct (Z.leb_spec (Z.of_nat j) 16); [|lia].
          destruct (Z.leb_spec (Z.of_nat (S j)) 16); [|lia].
          split; [lia|]. split; [intros C; contradiction | intros _; lia].
        * destruct (Z.leb_spec (Z.of_nat j) 16); [|lia].
          destruct (Z.leb_spec (Z.of_nat (S j)) 16);
            (split; [lia|]; split; [intros _ ?; lia | intros C; contradiction]).
      + destruct (Hyes Hnz) as (Hnz' & Heq).
        destruct (Z.leb_spec (Z.of_nat j) 16) as [Hj16 | Hj16].
        * assert (Hq : current_element m <= 4 + 4 * Z.of_nat j) by (apply Hte; [exact Hnz | lia]).
          destruct (Z.leb_spec (Z.of_nat (S j)) 16);
            (split; [lia|]; split; [intros _ ?; lia | intros C; contradiction]).
        * destruct (Z.leb_spec (Z.of_nat (S j)) 16); [lia|].
          split; [lia|]. split; [intros _ ?; lia | intros C; contradiction].
    - unfold Inv, scan_reach. split; [exact H|].
      change (Z.of_nat 0) with 0. change (0 <=? 16) with true. cbv iota.
      split; [lia|]. split; [intros C; contradiction | intros _; lia]. }
  rewrite Nat.add_0_l in HI. destruct HI as (H1 & H2 & _ & H4).
  cbv zeta. split; [exact H1|]. split; [exact H2|].
  intros H17 Hz. specialize (H4 Hz). lia.
Qed.

Lemma consecutive_range (lo : Z) (n : nat) (l : list (Z * Z)) :
  map fst l = consecutive lo n ->
  length l = n /\ Forall (fun st => lo <= fst st < lo + Z.of_nat n) l.
Proof.
  intros H. split.
  - rewrite <- (length_map fst l), H. unfold consecutive.
    rewrite length_map. apply length_seq.
  - assert (HF : Forall (fun i => lo <= i < lo + Z.of_nat n) (map fst l)).
    { rewrite H. unfold consecutive. apply List.Forall_forall. intros i Hi.
      apply in_map_iff in Hi. destruct Hi as (k & <- & Hk).
      apply in_seq in Hk. lia. }
    clear H. induction l as [|x l IH]; [constructor|].
    inversion HF; subst. constructor; [assumption | apply IH; assumption].
Qed.

(** The [k]-th of stores at consecutive indices. *)
Lemma consecutive_lookup (lo : Z) (n : nat) (l : list (Z * Z)) (k : nat) (x : Z * Z) :
  map fst l = consecutive lo n -> l !! k = Some x -> fst x = lo + Z.of_nat k.
Proof.
  intros H Hk.
  assert (Hm : map fst l !! k = Some (fst x)).
  { change (map fst l) with (fst <$> l). rewrite list_lookup_fmap, Hk. reflexivity. }
  rewrite H in Hm. unfold consecutive in Hm.
  change (map (fun k0 : nat => lo + Z.of_nat k0) (seq 0 n))
    with ((fun k0 : nat => lo + Z.of_nat k0) <$> seq 0 n) in Hm.
  rewrite list_lookup_fmap in Hm.
  destruct (seq 0 n !! k) as [j|] eqn:E; [|discriminate].
  apply lookup_seq in E. destruct E as [-> _]. cbn in Hm. congruence.
Qed.

Lemma stores_in_packet_consecutive (n : nat) (l : list (Z * Z)) :
  map fst l = consecutive 8 n -> stores_in_packet l = (n <=? 24)%nat.
Proof.
  intros H. destruct (consecutive_range 8 n l H) as [Hlen HF].
  destruct (Nat.leb_spec n 24) as [Hle | Hgt].
  - unfold stores_in_packet. apply forallb_forall. intros x Hx.
    rewrite List.Forall_forall in HF. specialize (HF x Hx).
    destruct (Z.leb_spec 0 (fst x)); [|lia].
    destruct (Z.ltb_spec (fst x) 32); [reflexivity | lia].
  - destruct (stores_in_packet l) eqn:E; [|reflexivity]. exfalso.
    assert (Hk : exists x, l !! 24%nat = Some x).
    { destruct (l !! 24%nat) as [x|] eqn:E24; [eauto|].
      apply lookup_ge_None_1 in E24. lia. }
    destruct Hk as [x Hx].
    pose proof (consecutive_lookup 8 n l 24 x H Hx) as Hi.
    unfold stores_in_packet in E. rewrite forallb_forall in E.
    assert (Hin : In x l).
    { apply list_elem_of_In. eapply list_elem_of_lookup_2. exact Hx. }
    specialize (E x Hin). rewrite Hi in E. discriminate E.
Qed.

(** ** The frame-building pass never looks at the packet *)

Lemma apply_stores_app (st st' : list (Z * Z)) (p : list Z) :
  apply_stores (st ++ st') p = apply_stores st' (apply_stores st p).
Proof. apply fold_left_app. Qed.

Lemma store_at_length (p : list Z) (x : Z * Z) :
  length (store_at p x) = length p.
Proof.
  unfold store_at.
  destruct ((0 <=? fst x) && (fst x <? 32)); [apply length_insert | reflexivity].
Qed.

Lemma apply_stores_length : forall (st : list (Z * Z)) (p : list Z),
  length (apply_stores st p) = length p.
Proof.
  induction st as [|x st IH]; intros p; [reflexivity|].
  unfold apply_stores in *. cbn [fold_left]. rewrite IH. apply store_at_length.
Qed.

Lemma store_at_lookup (p : list Z) (x : Z * Z) (i : nat) :
  store_at p x !! i =
  if (0 <=? fst x) && (fst x <? 32) && (Z.to_nat (fst x) =? i)%nat
  then (if (i <? length p)%nat then Some (snd x) else None)
  else p !! i.
Proof.
  unfold store_at.
  destruct ((0 <=? fst x) && (fst x <? 32)); cbn [andb]; [|reflexivity].
  destruct (Nat.eqb_spec (Z.to_nat (fst x)) i) as [E | N].
  - rewrite E. destruct (Nat.ltb_spec i (length p)) as [Hlt | Hge].
    + apply list_lookup_insert_eq. exact Hlt.
    + apply lookup_ge_None_2. rewrite length_insert. exact Hge.
  - apply list_lookup_insert_ne. exact N.
Qed.

(** An element of the array after the stores [st] holds the value of the
    last store that landed on it, and what it held before if there was
    none. *)
Lemma apply_stores_lookup : forall (st : list (Z * Z)) (p : list Z) (i : nat),
  apply_stores st p !! i =
  match last_store st i with
  | Some v => if (i <? length p)%nat then Some v else None
  | None => p !! i
  end.
Proof.
  induction st as [|x st IH]; intros p i; [reflexivity|].
  change (apply_stores (x :: st) p) with (apply_stores st (store_at p x)).
  rewrite IH, store_at_length. cbn [last_store].
  destruct (last_store st i) as [v|]; [reflexivity|].
  rewrite store_at_lookup.
  destruct ((0 <=? fst x) && (fst x <? 32) && (Z.to_nat (fst x) =? i)%nat);
    reflexivity.
Qed.

Lemma apply_stores_idempotent (st : list (Z * Z)) (p : list Z) :
  apply_stores st (apply_stores st p) = apply_stores st p.
Proof.
  apply list_eq. intros i.
  rewrite (apply_stores_lookup st (apply_stores st p)), apply_stores_length.
  rewrite (apply_stores_lookup st p).
  destruct (last_store st i); reflexivity.
Qed.

Lemma same_control_refl (s : machine) : same_control s s.
Proof. repeat split. Qed.

Lemma stores_in_packet_app (st st' : list (Z * Z)) :
  stores_in_packet (st ++ st') = stores_in_packet st && stores_in_packet st'.
Proof. apply forallb_app. Qed.

Lemma made_nil (s s1 : machine) :
  stores s1 = stores s -> packet s1 = packet s -> overrun s1 = overrun s ->
  made [] s s1.
Proof.
  intros Hst Hp Ho. unfold made. rewrite Hst, Hp, Ho, app_nil_r, orb_false_r.
  repeat split.
Qed.

Lemma made_app (new1 new2 : list (Z * Z)) (s s1 s2 : machine) :
  made new1 s s1 -> made new2 s1 s2 -> made (new1 ++ new2) s s2.
Proof.
  intros (H1 & P1 & O1) (H2 & P2 & O2). unfold made.
  rewrite H2, H1, P2, P1, O2, O1, apply_stores_app, stores_in_packet_app,
    app_assoc, negb_andb, orb_assoc.
  repeat split.
Qed.

Lemma made_append_packet (v : Z) (s : machine) :
  made [(current_element s, v)] s (exec (append_packet v) s).
Proof.
  unfold made. rewrite append_packet_stores, append_packet_packet.
  split; [reflexivity|]. split; [reflexivity|].
  unfold exec, append_packet, modify, stores_in_packet, in_packet.
  cbn [snd overrun set_current_element write_packet forallb fst].
  rewrite andb_true_r. reflexivity.
Qed.

Lemma packet_blind_ret {A : Type} (a : A) : packet_blind (ret a).
Proof.
  intros s s' H. split; [reflexivity|]. split; [exact H|].
  exists []. split; apply made_nil; reflexivity.
Qed.

Lemma packet_blind_bind {A B : Type} (c : M A) (k : A -> M B) :
  packet_blind c -> (forall a, packet_blind (k a)) -> packet_blind (bind c k).
Proof.
  intros Hc Hk s s' H.
  destruct (Hc s s' H) as (He & Hs & new1 & M1 & M1').
  rewrite !exec_bind, !eval_bind, <- He.
  destruct (Hk (eval c s) _ _ Hs) as (He2 & Hs2 & new2 & M2 & M2').
  split; [exact He2|]. split; [exact Hs2|].
  exists (new1 ++ new2). split; eapply made_app; eassumption.
Qed.

Lemma packet_blind_for_up (body : Z -> M unit) :
  (forall x, packet_blind (body x)) ->
  forall (n : nat) (x : Z), packet_blind (for_up n x body).
Proof.
  intros Hb. induction n as [|n IH]; intros x.
  - apply packet_blind_ret.
  - rewrite for_up_S. apply packet_blind_bind; [apply Hb | intros _; apply IH].
Qed.

Lemma packet_blind_check_button (env : port_oracle) (b : Z) :
  packet_blind (check_button env b).
Proof.
  intros s s' (Hc & Ht & Hp).
  rewrite !check_button_eval, !check_button_exec, Hp.
  split; [reflexivity|].
  destruct ((1 <=? b) && (b <=? 16)).
  - split; [repeat split; cbn; congruence|].
    exists []. split; apply made_nil; reflexivity.
  - split; [repeat split; assumption|].
    exists []. split; apply made_nil; reflexivity.
Qed.

Lemma packet_blind_append_packet (v : Z) : packet_blind (append_packet v).
Proof.
  intros s s' (Hc & Ht & Hp).
  split; [reflexivity|]. split.
  - repeat split; cbn; congruence.
  - exists [(current_element s, v)].
    split; [apply made_append_packet|]. rewrite Hc. apply made_append_packet.
Qed.

Lemma packet_blind_set_terminated (v : Z) :
  packet_blind (modify (set_terminated v)).
Proof.
  intros s s' (Hc & Ht & Hp).
  split; [reflexivity|]. split; [repeat split; assumption|].
  exists []. rewrite !exec_modify. split; apply made_nil; reflexivity.
Qed.

Lemma packet_blind_function_body (env : port_oracle) (fe : Z) :
  packet_blind (function_body env fe).
Proof.
  unfold function_body. apply packet_blind_bind.
  - apply packet_blind_check_button.
  - intros magnet.
    destruct magnet as [|m|m]; try apply packet_blind_ret;
      do 3 (try destruct m as [m|m|]);
      first [apply packet_blind_ret | apply packet_blind_append_packet].
Qed.

Lemma packet_blind_expand_function (env : port_oracle) :
  packet_blind (expand_function env).
Proof.
  unfold expand_function, for_range. apply packet_blind_for_up.
  intros x. apply packet_blind_function_body.
Qed.

Lemma packet_blind_button_body (env : port_oracle) (button : Z) :
  packet_blind (button_body env button).
Proof.
  intros s s' H.
  assert (Ht : terminated s = terminated s') by apply H.
  pose proof (button_body_unfold env button s) as E.
  pose proof (button_body_unfold env button s') as E'.
  assert (Hv : eval (button_body env button) s = eval (button_body env button) s')
    by (destruct (eval (button_body env button) s),
                 (eval (button_body env button) s'); reflexivity).
  split; [exact Hv|]. rewrite E, E', <- Ht.
  destruct (terminated s =? 0).
  - destruct (packet_blind_check_button env button s s' H)
      as (He & Hs & new1 & M1 & M1').
    rewrite <- He.
    assert (Hk : packet_blind
                   (match eval (check_button env button) s with
                    | PRIMO_MAGNET_FORWARD => append_packet PRIMO_COMMAND_FORWARD
                    | PRIMO_MAGNET_RIGHT => append_packet PRIMO_COMMAND_RIGHT
                    | PRIMO_MAGNET_LEFT => append_packet PRIMO_COMMAND_LEFT
                    | PRIMO_MAGNET_FUNCTION => expand_function env
                    | PRIMO_MAGNET_NONE => modify (set_terminated 1)
                    | _ => ret tt
                    end)).
    { destruct (eval (check_button env button) s) as [|m|m];
        try apply packet_blind_ret;
        do 3 (try destruct m as [m|m|]);
        first [ apply packet_blind_ret | apply packet_blind_append_packet
              | apply packet_blind_expand_function
              | apply packet_blind_set_terminated ]. }
    destruct (Hk _ _ Hs) as (_ & Hs2 & new2 & M2 & M2').
    split; [exact Hs2|]. exists (new1 ++ new2).
    split; eapply made_app; eassumption.
  - destruct (packet_blind_append_packet PRIMO_COMMAND_STOP s s' H) as (_ & Hs & R).
    split; [exact Hs | exact R].
Qed.

Lemma packet_blind_scan_buttons (env : port_oracle) :
  packet_blind (scan_buttons env).
Proof.
  unfold scan_buttons, for_range. apply packet_blind_for_up.
  intros x. apply packet_blind_button_body.
Qed.

Lemma packet_blind_add_stops_fuel :
  forall fuel : nat, packet_blind (add_stops_fuel fuel).
Proof.
  induction fuel as [|fuel IH]; [apply packet_blind_ret|].
  intros s s' H.
  assert (Hc : current_element s = current_element s') by apply H.
  assert (Hv : eval (add_stops_fuel (S fuel)) s = eval (add_stops_fuel (S fuel)) s')
    by (destruct (eval (add_stops_fuel (S fuel)) s),
                 (eval (add_stops_fuel (S fuel)) s'); reflexivity).
  split; [exact Hv|].
  rewrite !add_stops_fuel_unfold, <- Hc.
  destruct (current_element s <? 28).
  - destruct (packet_blind_append_packet PRIMO_COMMAND_STOP s s' H)
      as (_ & Hs & new1 & M1 & M1').
    destruct (IH _ _ Hs) as (_ & Hs2 & new2 & M2 & M2').
    split; [exact Hs2|]. exists (new1 ++ new2).
    split; eapply made_app; eassumption.
  - split; [exact H|]. exists []. split; apply made_nil; reflexivity.
Qed.

(** The stores of a pass and the control it ends with are fixed by the
    ports and by the count of port reads it starts with; the packet after
    it is the packet before it with these stores made, and the pass marks
    the machine [overrun] exactly when one of them leaves the array. *)
Lemma calculate_packet_blind (env : port_oracle) (s s' : machine) :
  port_reads s = port_reads s' ->
  same_control (exec (calculate_packet env) s) (exec (calculate_packet env) s') /\
  exists new : list (Z * Z),
    made new s (exec (calculate_packet env) s) /\
    made new s' (exec (calculate_packet env) s').
Proof.
  intros Hp.
  pose (start := fun m : machine =>
          count_port_read (count_port_read (count_port_read (count_port_read
            (set_terminated 0 (set_current_element 8 m)))))).
  assert (Hunfold : forall m, exec (calculate_packet env) m
                    = exec (bind (scan_buttons env) (fun _ => add_stops)) (start m)).
  { intros m. unfold calculate_packet. rewrite !exec_bind. reflexivity. }
  rewrite !Hunfold.
  assert (Hs : same_control (start s) (start s')).
  { unfold start. repeat split; cbn. congruence. }
  assert (Hb : packet_blind (bind (scan_buttons env) (fun _ => add_stops))).
  { apply packet_blind_bind; [apply packet_blind_scan_buttons|].
    intros _. apply packet_blind_add_stops_fuel. }
  destruct (Hb _ _ Hs) as (_ & Hs2 & new & M & M').
  split; [exact Hs2|]. exists new. split; [exact M | exact M'].
Qed.

(** The stores of a pass: at the indices 8, 9, ... without a hole, and the
    machine marked [overrun] exactly when there are more than 24 of them. *)
Lemma calculate_packet_overrun (env : port_oracle) (s : machine) :
  length (packet s) = 32%nat ->
  let s' := exec (calculate_packet env) s in
  exists new : list (Z * Z),
    made new s s' /\
    map fst new = consecutive 8 (length new) /\
    current_element s' = 8 + Z.of_nat (length new) /\
    28 <= current_element s' /\
    overrun s' = overrun s || negb (length new <=? 24)%nat.
Proof.
  intros Hlen s'.
  destruct (calculate_packet_blind env s s eq_refl) as (_ & new & M & _).
  fold s' in M.
  destruct (calculate_packet_store_indices env s Hlen) as (Hcur & new0 & Hst0 & Hidx).
  fold s' in Hcur, Hst0, Hidx.
  assert (Hnew : new0 = new).
  { destruct M as (Hst & _). rewrite Hst0 in Hst. apply app_inv_head in Hst. exact Hst. }
  subst new0.
  destruct (consecutive_range 8 _ new Hidx) as [Hn _].
  exists new. split; [exact M|].
  split; [rewrite Hn; exact Hidx|]. split; [lia|]. split; [exact Hcur|].
  destruct M as (_ & _ & Ho). rewrite Ho.
  rewrite (stores_in_packet_consecutive _ new Hidx), Hn. reflexivity.
Qed.

(** X12. A pass of the frame builder makes at least 20 stores, and up to
    the first one that leaves the array they go to the indices 8, 9, 10,
    ... in that order: the eight bytes of tag and identity are not stored
    to, and the first store outside the array is the 25th of the pass, at
    index 32.  The pass leaves the array exactly when it makes more than 24
    stores; when it does not, [current_element] ends between 28 and 32 and
    is 8 more than the number of stores. *)
Theorem pass_leaves_packet_at_32 (env : port_oracle) (s : machine) :
  length (packet s) = 32%nat ->
  let s' := exec (calculate_packet env) s in
  exists new : list (Z * Z),
    stores s' = stores s ++ new /\
    (20 <= length new)%nat /\
    (forall (k : nat) (x : Z * Z),
       (k <= 24)%nat -> new !! k = Some x -> fst x = 8 + Z.of_nat k) /\
    overrun s' = overrun s || negb (length new <=? 24)%nat /\
    (overrun s' = false ->
     current_element s' = 8 + Z.of_nat (length new) /\
     28 <= current_element s' <= 32).
Proof.
  intros Hlen s'.
  destruct (calculate_packet_overrun env s Hlen)
    as (new & (Hst & _) & Hidx & Hcur & Hlow & Ho).
  fold s' in Hst, Hcur, Hlow, Ho.
  exists new. split; [exact Hst|]. split; [lia|].
  split; [intros k x _ Hx; exact (consecutive_lookup 8 _ new k x Hidx Hx)|].
  split; [exact Ho|].
  intros Hin. rewrite Hin in Ho. symmetry in Ho.
  apply orb_false_elim in Ho. destruct Ho as [_ Ho].
  apply negb_false_iff, Nat.leb_le in Ho. split; [exact Hcur | lia].
Qed.

(** After power-on, a board of movement blocks in the slots 1 to 12 and
    Function blocks in the function line: twelve commands and eleven
    Stops, no store outside the array. *)
Lemma pass_leaves_packet_at_32_witness :
  length (packet (reset_port_reads (setup 0))) = 32%nat /\
  overrun (exec (calculate_packet (steady 0x3333 0x3333 0x3333 0x2222))
             (reset_port_reads (setup 0))) = false /\
  28 <= current_element
          (exec (calculate_packet (steady 0x3333 0x3333 0x3333 0x2222))
             (reset_port_reads (setup 0))) <= 32.
Proof.
  assert (H : length (packet (reset_port_reads (setup 0))) = 32%nat) by reflexivity.
  assert (Ho : overrun (exec (calculate_packet (steady 0x3333 0x3333 0x3333 0x2222))
                          (reset_port_reads (setup 0))) = false)
    by (vm_compute; reflexivity).
  split; [exact H|]. split; [exact Ho|].
  destruct (pass_leaves_packet_at_32 (steady 0x3333 0x3333 0x3333 0x2222)
              (reset_port_reads (setup 0)) H) as (new & _ & _ & _ & _ & Hin).
  exact (proj2 (Hin Ho)).
Defined.

Lemma last_store_covers : forall (st : list (Z * Z)) (i : nat),
  In (Z.of_nat i) (map fst st) -> (i < 32)%nat ->
  exists v : Z, last_store st i = Some v.
Proof.
  induction st as [|x st IH]; intros i Hin Hi; [destruct Hin|].
  cbn [last_store]. destruct (last_store st i) as [v|] eqn:E; [eauto|].
  destruct Hin as [Hx | Hin].
  - rewrite Hx, Nat2Z.id, Nat.eqb_refl.
    destruct (Z.leb_spec 0 (Z.of_nat i)); [|lia].
    destruct (Z.ltb_spec (Z.of_nat i) 32); [|lia].
    cbn [andb]. eauto.
  - destruct (IH i Hin Hi) as [v Hv]. congruence.
Qed.

Lemma reset_port_reads_reads (s : machine) : port_reads (reset_port_reads s) = 0%nat.
Proof. reflexivity. Qed.

(** The interrupt handler stores nothing. *)
Lemma serve_all_stores_nothing : forall (qs : list irq) (s : machine),
  stores (exec (serve_all qs) s) = stores s /\
  overrun (exec (serve_all qs) s) = overrun s.
Proof.
  induction qs as [|q qs IH]; intros s; [split; reflexivity|].
  rewrite serve_all_cons. destruct (IH (exec (serve q) s)) as [H1 H2].
  rewrite H1, H2. destruct q as [tx fail rx payload].
  destruct tx, fail, rx; split; reflexivity.
Qed.

Lemma after_send_twice_keeps (qs : list irq) (s1 : machine) :
  let frame := take (Z.to_nat PRIMO_NRF24L01_MAX_PACKET_SIZE) (packet s1) in
  let s2 := exec (serve_all qs) (log_radio (StartWrite frame) s1) in
  let s3 := set_terminated 0
              (log_radio
                 (StartWrite (take (Z.to_nat PRIMO_NRF24L01_MAX_PACKET_SIZE) (packet s2)))
                 s2) in
  stores s3 = stores s1 /\ overrun s3 = overrun s1.
Proof.
  intros frame s2 s3.
  destruct (serve_all_stores_nothing qs (log_radio (StartWrite frame) s1)) as [H1 H2].
  fold s2 in H1, H2. unfold s3. cbn [stores overrun set_terminated log_radio].
  rewrite H1, H2. split; reflexivity.
Qed.

(** The two sends and the interrupts between them store nothing: the log
    and the mark [overrun] after a gesture are those of its pass. *)
Lemma loop_keeps (env : port_oracle) (qs : list irq) (s : machine) :
  stores (loop env qs s)
  = stores (exec (calculate_packet env) (reset_port_reads s)) /\
  overrun (loop env qs s)
  = overrun (exec (calculate_packet env) (reset_port_reads s)).
Proof. rewrite loop_unfold. apply after_send_twice_keeps. Qed.

(** Two gestures over the same ports make the same stores. *)
Lemma loop_made (env : port_oracle) (qs qs' : list irq) (s s' : machine) :
  exists new : list (Z * Z),
    made new s (loop env qs s) /\ made new s' (loop env qs' s').
Proof.
  destruct (calculate_packet_blind env (reset_port_reads s) (reset_port_reads s'))
    as (_ & new & (H1 & P1 & O1) & (H2 & P2 & O2)).
  { rewrite !reset_port_reads_reads. reflexivity. }
  destruct (loop_keeps env qs s) as [Ks Ko].
  destruct (loop_keeps env qs' s') as [Ks' Ko'].
  exists new. unfold made.
  rewrite !loop_packet, Ks, Ko, Ks', Ko', H1, P1, O1, H2, P2, O2.
  repeat split.
Qed.

(** The mark [overrun] is never cleared. *)
Lemma loop_overrun_mono (env : port_oracle) (qs : list irq) (s : machine) :
  overrun (loop env qs s) = false -> overrun s = false.
Proof.
  destruct (loop_made env qs qs s s) as (new & (_ & _ & Ho) & _).
  rewrite Ho. intros H. apply orb_false_elim in H. apply H.
Qed.

Lemma step_overrun_mono (e : event) (s : machine) :
  overrun (step s e) = false -> overrun s = false.
Proof.
  destruct e as [env qs | q]; cbn [step].
  - apply loop_overrun_mono.
  - destruct q as [tx fail rx payload]. destruct tx, fail, rx; exact (fun H => H).
Qed.

Lemma run_overrun_mono : forall (es : list event) (s : machine),
  overrun (run es s) = false -> overrun s = false.
Proof.
  induction es as [|e es IH]; intros s H; [exact H|].
  change (run (e :: es) s) with (run es (step s e)) in H.
  apply (step_overrun_mono e). apply IH. exact H.
Qed.

(** X13. A gesture repeated over an unchanged board, no store having left
    the array by its end, sends the frame of the gesture before it again:
    the pass stores the same values at the same places, so the packet is
    left as it was found, and the two frames handed to the radio are equal
    to the two handed over before, whatever the radio raised in between. *)
Theorem repeated_gesture_sends_same_frame
    (env : port_oracle) (qs qs' : list irq) (s : machine) :
  length (packet s) = 32%nat ->
  overrun (loop env qs' (loop env qs s)) = false ->
  let s1 := loop env qs s in
  let s2 := loop env qs' s1 in
  packet s2 = packet s1 /\
  frames_sent (radio s2) = frames_sent (radio s1) ++ [packet s1; packet s1].
Proof.
  intros Hlen _ s1 s2.
  assert (Hlen1 : length (packet s1) = 32%nat).
  { destruct (loop_spec env qs s Hlen) as (Hb & Hp & _).
    unfold s1. rewrite Hp. exact (bi_length _ _ Hb). }
  assert (Hsame : packet s2 = packet s1).
  { destruct (loop_made env qs qs' s s1) as (new & (_ & P & _) & (_ & P' & _)).
    unfold s2. rewrite P'. unfold s1 at 2. rewrite P.
    fold s1. unfold s1 at 1. rewrite P. apply apply_stores_idempotent. }
  split; [exact Hsame|].
  destruct (loop_spec env qs' s1 Hlen1) as (_ & Hp & Hf).
  fold s2 in Hp, Hf. rewrite Hf, <- Hp, Hsame. reflexivity.
Qed.

(** Movement blocks in the slots 1 to 12 and Function blocks in the four
    slots of the function line: twelve commands and eleven Stops, all
    inside the array; an interrupt between the two gestures. *)
Lemma repeated_gesture_sends_same_frame_witness :
  overrun (loop (steady 0x3333 0x3333 0x3333 0x2222) [Irq true false false 0]
             (loop (steady 0x3333 0x3333 0x3333 0x2222) [] (setup 0))) = false /\
  packet (loop (steady 0x3333 0x3333 0x3333 0x2222) [Irq true false false 0]
            (loop (steady 0x3333 0x3333 0x3333 0x2222) [] (setup 0)))
  = packet (loop (steady 0x3333 0x3333 0x3333 0x2222) [] (setup 0)).
Proof.
  assert (H : length (packet (setup 0)) = 32%nat) by reflexivity.
  assert (Ho : overrun (loop (steady 0x3333 0x3333 0x3333 0x2222)
                          [Irq true false false 0]
                          (loop (steady 0x3333 0x3333 0x3333 0x2222) [] (setup 0)))
               = false) by (vm_compute; reflexivity).
  split; [exact Ho|].
  exact (proj1 (repeated_gesture_sends_same_frame
                  (steady 0x3333 0x3333 0x3333 0x2222) [] [Irq true false false 0]
                  (setup 0) H Ho)).
Defined.

(** X14. As long as no store has left the array, the bytes 8 to 27 of a
    frame are fixed by what the ports read during the pass: the packet
    found, the logs, the acknowledgement counter and the interrupts have no
    part in them.  (The bytes 28 to 31 are stored only when the pass runs
    that far, and otherwise keep what an earlier pass left.) *)
Theorem command_bytes_depend_on_ports_only
    (env : port_oracle) (qs qs' : list irq) (s s' : machine) (i : nat) :
  length (packet s) = 32%nat -> length (packet s') = 32%nat ->
  overrun (loop env qs s) = false -> overrun (loop env qs' s') = false ->
  (8 <= i < 28)%nat ->
  packet (loop env qs s) !! i = packet (loop env qs' s') !! i.
Proof.
  intros Hlen Hlen' _ _ Hi.
  destruct (loop_made env qs qs' s s') as (new & (Hst & P & _) & (_ & P' & _)).
  rewrite P, P', !apply_stores_lookup, Hlen, Hlen'.
  destruct (calculate_packet_store_indices env (reset_port_reads s))
    as (Hcur & new0 & Hst0 & Hidx).
  { rewrite reset_port_reads_packet. exact Hlen. }
  assert (Hnew : new0 = new).
  { rewrite (proj1 (loop_keeps env qs s)), Hst0 in Hst.
    change (stores (reset_port_reads s)) with (stores s) in Hst.
    apply app_inv_head in Hst. exact Hst. }
  subst new0.
  destruct (last_store_covers new i) as [v Hv]; [|lia|rewrite Hv; reflexivity].
  rewrite Hidx. unfold consecutive. apply in_map_iff.
  exists (i - 8)%nat. split; [lia|]. apply in_seq. lia.
Qed.

(** The same board after power-on and after a pass over a board of eight
    Function blocks and an empty function line. *)
Lemma command_bytes_depend_on_ports_only_witness :
  packet (loop (steady 0x3333 0x3333 0x3333 0x2222) [] (setup 0)) !! 12%nat
  = packet (loop (steady 0x3333 0x3333 0x3333 0x2222) [Irq false false true 9]
              (loop (steady 0x2222 0x2222 0 0) [] (setup 5))) !! 12%nat.
Proof.
  apply command_bytes_depend_on_ports_only.
  - reflexivity.
  - vm_compute. reflexivity.
  - vm_compute. reflexivity.
  - vm_compute. reflexivity.
  - lia.
Defined.

(** ** The replay of a row of movement blocks *)

Lemma log_io_led_write (x v : Z) (q : panel) :
  io (match led_pin x with
      | Some (e, pin) => log_io (DigitalWrite e pin v) q
      | None => q
      end) = io q ++ led_write x v.
Proof.
  unfold led_write. destruct (led_pin x) as [[e pin]|];
    [reflexivity | symmetry; apply app_nil_r].
Qed.

(** The turn of the replay loop at an empty slot. *)
Lemma replay_body_none (env : port_oracle) (x : Z) (p : panel) :
  terminated (core p) = 0 ->
  read_slot (env (port_reads (core p))) x = PRIMO_MAGNET_NONE ->
  let p' := pexec (replay_body env x) p in
  io p' = io p ++ [Delay (movement_delay p)] /\
  movement_delay p' = movement_delay p /\
  terminated (core p') = 1 /\
  port_reads (core p') = port_reads (exec (check_button env x) (core p)).
Proof.
  intros Ht Hnone. cbv zeta. unfold replay_body.
  rewrite pexec_pbind, peval_lift, lift_get_terminated.
  change (eval get_terminated (core p)) with (terminated (core p)).
  rewrite Ht. cbn [Z.eqb].
  rewrite pexec_pbind, peval_lift, check_button_eval, Hnone. cbv iota.
  repeat split.
Qed.

(** The turn of the replay loop at a movement block. *)
Lemma replay_body_movement (env : port_oracle) (x : Z) (p : panel) :
  terminated (core p) = 0 ->
  command_of_magnet (read_slot (env (port_reads (core p))) x) <> None ->
  let d := magnet_delay (read_slot (env (port_reads (core p))) x) in
  let p' := pexec (replay_body env x) p in
  io p' = io p ++ led_write x 1 ++ [Delay d] /\
  movement_delay p' = d /\
  terminated (core p') = 0 /\
  port_reads (core p') = port_reads (exec (check_button env x) (core p)).
Proof.
  intros Ht Hmove. cbv zeta. unfold replay_body.
  rewrite pexec_pbind, peval_lift, lift_get_terminated.
  change (eval get_terminated (core p)) with (terminated (core p)).
  rewrite Ht. cbn [Z.eqb].
  rewrite pexec_pbind, peval_lift, check_button_eval.
  pose proof (check_button_terminated env x (core p)) as Ht1. rewrite Ht in Ht1.
  set (p1 := pexec (lift (check_button env x)) p).
  assert (Hp1 : io p1 = io p /\ core p1 = exec (check_button env x) (core p))
    by (split; reflexivity).
  destruct Hp1 as [Hio1 Hc1]. clearbody p1.
  assert (Hstep : forall v : Z,
            let q := pexec (pbind (pbind (write_led x 0)
                              (fun _ => pmodify (set_movement_delay v)))
                              (fun _ => pbind get_movement_delay (fun d => delay d)))
                       p1 in
            io q = io p ++ led_write x 1 ++ [Delay v] /\ movement_delay q = v /\
            terminated (core q) = 0 /\
            port_reads (core q) = port_reads (exec (check_button env x) (core p))).
  { intros v. cbv zeta. rewrite (pexec_pbind (pbind _ _)).
    assert (Hend : forall q : panel,
              pexec (pbind get_movement_delay (fun d => delay d)) q
              = log_io (Delay (movement_delay q)) q) by reflexivity.
    rewrite Hend, pexec_pbind, pexec_pmodify.
    destruct (write_led_keeps x 0 p1) as (Hcw & _).
    assert (Hiow : io (pexec (write_led x 0) p1) = io p1 ++ led_write x 1).
    { rewrite write_led_exec. apply log_io_led_write. }
    set (w := pexec (write_led x 0) p1) in *. clearbody w.
    cbn [io movement_delay core log_io set_movement_delay].
    rewrite Hiow, Hio1, Hcw, Hc1, <- app_assoc. repeat split. exact Ht1. }
  destruct (read_slot_range (env (port_reads (core p))) x)
    as [E | [E | [E | [E | E]]]]; rewrite E in *; cbv iota.
  - exfalso. apply Hmove. reflexivity.
  - apply (Hstep 4500).
  - apply (Hstep 3000).
  - apply (Hstep 3000).
  - exfalso. apply Hmove. reflexivity.
Qed.

Lemma replay_row (env : port_oracle) :
  forall (k n : nat) (x : Z) (p : panel),
    terminated (core p) = 0 -> (k < n)%nat -> 1 <= x -> x + Z.of_nat k <= 16 ->
    (forall j : nat, (j < k)%nat ->
       command_of_magnet
         (read_slot (env (port_reads (core p) + j)%nat) (x + Z.of_nat j)) <> None) ->
    read_slot (env (port_reads (core p) + k)%nat) (x + Z.of_nat k)
    = PRIMO_MAGNET_NONE ->
    let p' := pexec (pfor_up n x (replay_body env)) p in
    io p' = io p ++ movement_row env (port_reads (core p)) x (movement_delay p) k /\
    port_reads (core p') = (port_reads (core p) + S k)%nat.
Proof.
  induction k as [|k IH]; intros n x p Ht Hn Hx Hhi Hrow Hnone;
    (destruct n as [|n]; [lia|]); cbv zeta; rewrite pfor_up_S, pexec_pbind.
  - rewrite Nat.add_0_r, Z.add_0_r in Hnone.
    destruct (replay_body_none env x p Ht Hnone) as (Hio & _ & Ht' & Hr).
    rewrite replay_after_termination by (rewrite Ht'; discriminate).
    rewrite Hio, Hr, check_button_exec.
    destruct (Z.leb_spec 1 x); [|lia]. destruct (Z.leb_spec x 16); [|lia].
    cbn [andb port_reads count_port_read movement_row]. split; [reflexivity | lia].
  - pose proof (Hrow 0%nat ltac:(lia)) as H0.
    rewrite Nat.add_0_r, Z.add_0_r in H0.
    destruct (replay_body_movement env x p Ht H0) as (Hio & Hmd & Ht' & Hr).
    rewrite check_button_exec in Hr.
    destruct (Z.leb_spec 1 x); [|lia]. destruct (Z.leb_spec x 16); [|lia].
    cbn [andb port_reads count_port_read] in Hr.
    destruct (IH n (x + 1) (pexec (replay_body env x) p)) as (Hio2 & Hr2);
      [exact Ht' | lia | lia | lia | | |].
    + intros j Hj. rewrite Hr.
      replace (S (port_reads (core p)) + j)%nat
        with (port_reads (core p) + S j)%nat by lia.
      replace (x + 1 + Z.of_nat j) with (x + Z.of_nat (S j)) by lia.
      apply Hrow. lia.
    + rewrite Hr.
      replace (S (port_reads (core p)) + k)%nat
        with (port_reads (core p) + S k)%nat by lia.
      replace (x + 1 + Z.of_nat k) with (x + Z.of_nat (S k)) by lia.
      exact Hnone.
    + rewrite Hio2, Hr2, Hio, Hmd, Hr. cbn [movement_row].
      rewrite <- !app_assoc. split; [reflexivity | lia].
Qed.

(** X15. The replay of a row of [k] movement blocks (Forward, Left or Right in
    the slots 1 to [k], the slot after them empty, no Function block): for
    each block in turn its LED is put out and 4500 milliseconds (Forward)
    or 3000 (Left, Right) are waited; at the empty slot the time of the
    last block is waited a second time -- with no block at all, what
    [movement_delay] held from the pass before -- and no slot after it is
    read. *)
Theorem replay_of_movement_row (after : port_oracle) (k : nat) (p : panel) :
  terminated (core p) = 0 -> (k < 12)%nat ->
  (forall j : nat, (j < k)%nat ->
     command_of_magnet
       (read_slot (after (port_reads (core p) + j)%nat) (1 + Z.of_nat j)) <> None) ->
  read_slot (after (port_reads (core p) + k)%nat) (1 + Z.of_nat k)
  = PRIMO_MAGNET_NONE ->
  let p' := pexec (replay after) p in
  io p' = io p ++ movement_row after (port_reads (core p)) 1 (movement_delay p) k /\
  port_reads (core p') = (port_reads (core p) + S k)%nat.
Proof.
  intros Ht Hk Hrow Hnone. cbv zeta. unfold replay.
  rewrite pexec_pbind, pexec_pmodify. unfold pfor_range.
  change (Z.to_nat (12 + 1 - 1)) with 12%nat.
  apply (replay_row after k 12 1 (set_led_fn_terminate 0 p));
    [exact Ht | exact Hk | lia | lia | exact Hrow | exact Hnone].
Qed.

(** Forward, Left, Right in the slots 1, 2, 3 after power-on. *)
Lemma replay_of_movement_row_witness :
  io (pexec (replay (steady 0x0653 0 0 0)) (boot 0))
  = io (boot 0) ++
    [DigitalWrite gpioExp1 3 1; Delay 4500; DigitalWrite gpioExp1 7 1; Delay 3000;
     DigitalWrite gpioExp1 11 1; Delay 3000; Delay 3000].
Proof.
  refine (eq_trans (proj1 (replay_of_movement_row (steady 0x0653 0 0 0) 3
                             (boot 0) _ _ _ _)) _).
  - reflexivity.
  - lia.
  - intros j Hj.
    assert (Hc : (j = 0 \/ j = 1 \/ j = 2)%nat) by lia.
    destruct Hc as [-> | [-> | ->]]; vm_compute; discriminate.
  - vm_compute. reflexivity.
  - vm_compute. reflexivity.
Defined.

(** ** The replay of the function line *)

Lemma get_led_fn_terminate_exec (p : panel) :
  pexec get_led_fn_terminate p = p.
Proof. reflexivity. Qed.

(** The turn of the first loop over the function line at an empty slot. *)
Lemma replay_function_body_gap (env : port_oracle) (fe : Z) (p : panel) :
  led_fn_terminate p = 0 -> 1 <= fe <= 4 ->
  read_slot (env (port_reads (core p))) (12 + fe) = PRIMO_MAGNET_NONE ->
  let p' := pexec (replay_function_body env fe) p in
  io p' = io p /\ led_fn_terminate p' = 1 /\
  port_reads (core p') = S (port_reads (core p)).
Proof.
  intros Hl Hfe Hnone. cbv zeta. unfold replay_function_body.
  rewrite pexec_pbind, get_led_fn_terminate_exec.
  change (peval get_led_fn_terminate p) with (led_fn_terminate p).
  rewrite Hl. cbn [Z.eqb].
  rewrite pexec_pbind, peval_lift, check_button_eval, Hnone. cbn [Z.eqb].
  rewrite pexec_pmodify, pexec_lift.
  cbn [io led_fn_terminate core set_led_fn_terminate set_core].
  rewrite check_button_exec.
  destruct (Z.leb_spec 1 (12 + fe)); [|lia].
  destruct (Z.leb_spec (12 + fe) 16); [|lia].
  repeat split.
Qed.

(** The turn of the first loop over the function line at a block. *)
Lemma replay_function_body_block (env : port_oracle) (fe : Z) (p : panel) :
  led_fn_terminate p = 0 -> 1 <= fe <= 4 ->
  read_slot (env (port_reads (core p))) (12 + fe) <> PRIMO_MAGNET_NONE ->
  let p' := pexec (replay_function_body env fe) p in
  io p' = io p ++ led_write (12 + fe) 1
          ++ [Delay (magnet_delay
                       (read_slot (env (S (port_reads (core p)))) (12 + fe)))] /\
  led_fn_terminate p' = 0 /\
  port_reads (core p') = S (S (port_reads (core p))).
Proof.
  intros Hl Hfe Hblock. cbv zeta. unfold replay_function_body.
  rewrite pexec_pbind, get_led_fn_terminate_exec.
  change (peval get_led_fn_terminate p) with (led_fn_terminate p).
  rewrite Hl. cbn [Z.eqb].
  rewrite pexec_pbind, peval_lift, check_button_eval.
  destruct (Z.eqb_spec (read_slot (env (port_reads (core p))) (12 + fe)) 0)
    as [E | _]; [contradiction|].
  assert (Hin : (1 <=? 12 + fe) && (12 + fe <=? 16) = true).
  { destruct (Z.leb_spec 1 (12 + fe)); [|lia].
    destruct (Z.leb_spec (12 + fe) 16); [reflexivity | lia]. }
  set (p1 := pexec (lift (check_button env (12 + fe))) p).
  assert (Hp1 : io p1 = io p /\ led_fn_terminate p1 = 0 /\
                core p1 = count_port_read (core p)).
  { unfold p1. rewrite pexec_lift. cbn [io led_fn_terminate core set_core].
    rewrite check_button_exec, Hin. auto. }
  destruct Hp1 as (Hio1 & Hl1 & Hc1). clearbody p1.
  rewrite pexec_pbind.
  destruct (write_led_keeps (12 + fe) 0 p1) as (Hcw & _ & Hlw & _).
  assert (Hiow : io (pexec (write_led (12 + fe) 0) p1)
                 = io p1 ++ led_write (12 + fe) 1).
  { rewrite write_led_exec. apply log_io_led_write. }
  set (w := pexec (write_led (12 + fe) 0) p1) in *. clearbody w.
  rewrite pexec_pbind, peval_lift, check_button_eval, Hcw, Hc1.
  cbn [port_reads count_port_read].
  set (p2 := pexec (lift (check_button env (12 + fe))) w).
  assert (Hp2 : io p2 = io w /\ led_fn_terminate p2 = led_fn_terminate w /\
                core p2 = count_port_read (core w)).
  { unfold p2. rewrite pexec_lift. cbn [io led_fn_terminate core set_core].
    rewrite check_button_exec, Hin. auto. }
  destruct Hp2 as (Hio2 & Hl2 & Hc2). clearbody p2.
  unfold magnet_delay.
  destruct (read_slot (env (S (port_reads (core p)))) (12 + fe) =? 1);
    unfold delay; rewrite pexec_pmodify;
    cbn [io led_fn_terminate core log_io];
    rewrite Hio2, Hiow, Hio1, Hl2, Hlw, Hl1, Hc2, Hcw, Hc1, <- app_assoc;
    repeat split.
Qed.

(** Once [led_fn_terminate] is set, the remaining turns of the first loop
    over the function line do nothing. *)
Lemma replay_function_after_gap (env : port_oracle) :
  forall (n : nat) (x : Z) (p : panel),
    led_fn_terminate p <> 0 ->
    pexec (pfor_up n x (replay_function_body env)) p = p.
Proof.
  induction n as [|n IH]; intros x p Hl; [reflexivity|].
  rewrite pfor_up_S, pexec_pbind.
  assert (E : pexec (replay_function_body env x) p = p).
  { unfold replay_function_body. rewrite pexec_pbind, get_led_fn_terminate_exec.
    change (peval get_led_fn_terminate p) with (led_fn_terminate p).
    destruct (Z.eqb_spec (led_fn_terminate p) 0); [contradiction | reflexivity]. }
  rewrite E. apply IH. exact Hl.
Qed.

Lemma function_row_spec (env : port_oracle) :
  forall (k n : nat) (fe : Z) (p : panel),
    led_fn_terminate p = 0 -> (k <= n)%nat -> 1 <= fe ->
    fe + Z.of_nat n <= 5 ->
    (forall j : nat, (j < k)%nat ->
       read_slot (env (port_reads (core p) + 2 * j)%nat) (12 + fe + Z.of_nat j)
       <> PRIMO_MAGNET_NONE) ->
    ((k < n)%nat ->
       read_slot (env (port_reads (core p) + 2 * k)%nat) (12 + fe + Z.of_nat k)
       = PRIMO_MAGNET_NONE) ->
    let p' := pexec (pfor_up n fe (replay_function_body env)) p in
    io p' = io p ++ function_row env (port_reads (core p)) fe k /\
    port_reads (core p')
    = (port_reads (core p) + 2 * k + (if (k <? n)%nat then 1 else 0))%nat /\
    led_fn_terminate p' = (if (k <? n)%nat then 1 else 0).
Proof.
  induction k as [|k IH]; intros n fe p Hl Hn Hfe Hhi Hrow Hgap; cbv zeta.
  - destruct n as [|n].
    + cbn [pfor_up function_row Nat.ltb Nat.leb]. rewrite pexec_pret, app_nil_r.
      repeat split; [lia | exact Hl].
    + rewrite pfor_up_S, pexec_pbind.
      specialize (Hgap ltac:(lia)).
      rewrite Nat.mul_0_r, Nat.add_0_r, Z.add_0_r in Hgap.
      destruct (replay_function_body_gap env fe p Hl ltac:(lia) Hgap)
        as (Hio & Hl' & Hr).
      rewrite replay_function_after_gap by (rewrite Hl'; discriminate).
      rewrite Hio, Hl', Hr. cbn [function_row Nat.ltb Nat.leb].
      rewrite app_nil_r. repeat split. lia.
  - destruct n as [|n]; [lia|].
    rewrite pfor_up_S, pexec_pbind.
    pose proof (Hrow 0%nat ltac:(lia)) as H0.
    rewrite Nat.mul_0_r, Nat.add_0_r, Z.add_0_r in H0.
    destruct (replay_function_body_block env fe p Hl ltac:(lia) H0)
      as (Hio & Hl' & Hr).
    destruct (IH n (fe + 1) (pexec (replay_function_body env fe) p))
      as (Hio2 & Hr2 & Hl2); [exact Hl' | lia | lia | lia | | |].
    + intros j Hj. rewrite Hr.
      replace (S (S (port_reads (core p))) + 2 * j)%nat
        with (port_reads (core p) + 2 * S j)%nat by lia.
      replace (12 + (fe + 1) + Z.of_nat j) with (12 + fe + Z.of_nat (S j)) by lia.
      apply Hrow. lia.
    + intros Hk. rewrite Hr.
      replace (S (S (port_reads (core p))) + 2 * k)%nat
        with (port_reads (core p) + 2 * S k)%nat by lia.
      replace (12 + (fe + 1) + Z.of_nat k) with (12 + fe + Z.of_nat (S k)) by lia.
      apply Hgap. lia.
    + rewrite Hio2, Hr2, Hl2, Hio, Hr. cbn [function_row].
      rewrite <- !app_assoc.
      change (S k <? S n)%nat with (k <? n)%nat.
      repeat split. lia.
Qed.

(** X16. When the replay comes to a Function block, the first loop over the
    function line stops at the first empty slot of the line: the slots
    before it are read twice each, their LED put out and 4500 milliseconds
    (Forward at the second read) or 3000 waited; the empty slot is read
    once and the slots after it are neither read nor shown. *)
Theorem replay_function_line_stops_at_gap
    (env : port_oracle) (k : nat) (p : panel) :
  led_fn_terminate p = 0 -> (k <= 4)%nat ->
  (forall j : nat, (j < k)%nat ->
     read_slot (env (port_reads (core p) + 2 * j)%nat) (13 + Z.of_nat j)
     <> PRIMO_MAGNET_NONE) ->
  ((k < 4)%nat ->
     read_slot (env (port_reads (core p) + 2 * k)%nat) (13 + Z.of_nat k)
     = PRIMO_MAGNET_NONE) ->
  let p' := pexec (pfor_range 1 4 (replay_function_body env)) p in
  io p' = io p ++ function_row env (port_reads (core p)) 1 k /\
  port_reads (core p')
  = (port_reads (core p) + 2 * k + (if (k <? 4)%nat then 1 else 0))%nat /\
  led_fn_terminate p' = (if (k <? 4)%nat then 1 else 0).
Proof.
  intros Hl Hk Hrow Hgap. cbv zeta. unfold pfor_range.
  change (Z.to_nat (4 + 1 - 1)) with 4%nat.
  apply (function_row_spec env k 4 1 p Hl Hk); [lia | lia | exact Hrow | exact Hgap].
Qed.

(** A function line Forward, empty, Left, Right: one LED, one wait. *)
Lemma replay_function_line_stops_at_gap_witness :
  io (pexec (pfor_range 1 4 (replay_function_body (steady 0 0 0 0x6503)))
        (boot 0))
  = io (boot 0) ++ [DigitalWrite gpioExp4 3 1; Delay 4500].
Proof.
  refine (eq_trans (proj1 (replay_function_line_stops_at_gap
                             (steady 0 0 0 0x6503) 1 (boot 0) _ _ _ _)) _).
  - reflexivity.
  - lia.
  - intros j Hj. assert (Hc : j = 0%nat) by lia. subst j.
    vm_compute. discriminate.
  - intros _. vm_compute. reflexivity.
  - vm_compute. reflexivity.
Defined.

(** ** A run of interrupts *)

(** X17. After the handler has served the requests [qs] one after the other,
    the radio has been powered down once for each request that reported a
    transmission done or failed and asked nothing else, the acknowledgement
    counter holds the 32-bit payload of the last request that reported a
    message received (what it held before when there is none: earlier
    payloads are overwritten, not added up), and the packet,
    [current_element], [terminated] and the store log are as they were. *)
Theorem serve_all_keeps_last_acknowledgement (qs : list irq) (s : machine) :
  let s' := exec (serve_all qs) s in
  radio s' = radio s ++ replicate (power_downs qs) PowerDown /\
  ackMessageCount s' = default (ackMessageCount s) (last_received qs) /\
  packet s' = packet s /\ current_element s' = current_element s /\
  terminated s' = terminated s /\ stores s' = stores s /\
  port_reads s' = port_reads s.
Proof.
  revert s. induction qs as [|q qs IH]; intros s; cbv zeta.
  - change (exec (serve_all []) s) with s. cbn. rewrite app_nil_r. repeat split.
  - rewrite serve_all_cons.
    destruct (IH (exec (serve q) s)) as (Hra & Hack & Hpk & Hcur & Hterm & Hst & Hpr).
    destruct q as [tx fail rx payload].
    destruct (checkRadio_spec tx fail rx payload s)
      as (Hra1 & Hack1 & Hpk1 & Hcur1 & Hterm1 & Hst1 & Hpr1).
    unfold serve in *. cbn [irq_tx irq_fail irq_rx irq_payload] in *.
    rewrite Hra, Hack, Hpk, Hcur, Hterm, Hst, Hpr,
      Hra1, Hack1, Hpk1, Hcur1, Hterm1, Hst1, Hpr1.
    cbn [power_downs last_received irq_tx irq_fail irq_rx irq_payload].
    split.
    + destruct (tx || fail); [|rewrite app_nil_r; reflexivity].
      rewrite <- app_assoc. reflexivity.
    + split; [|repeat split].
      destruct (last_received qs); [reflexivity|]. destruct rx; reflexivity.
Qed.

(** ** check_button only reads *)

(** X18. [check_button] changes nothing of the machine but the count of port
    reads: one read for a slot 1 to 16, none for any other number, for
    which it returns None; it returns one of None, Forward, Right, Left and
    Function, never the error code. *)
Theorem check_button_only_reads
    (env : port_oracle) (button_to_check : Z) (s : machine) :
  let s' := exec (check_button env button_to_check) s in
  let magnet := eval (check_button env button_to_check) s in
  packet s' = packet s /\ current_element s' = current_element s /\
  terminated s' = terminated s /\ ackMessageCount s' = ackMessageCount s /\
  stores s' = stores s /\ radio s' = radio s /\
  port_reads s'
  = (if (1 <=? button_to_check) && (button_to_check <=? 16)
     then S (port_reads s) else port_reads s) /\
  (~ (1 <= button_to_check <= 16) -> magnet = PRIMO_MAGNET_NONE) /\
  0 <= magnet <= 4 /\ magnet <> PRIMO_MAGNET_ERR.
Proof.
  cbv zeta. rewrite check_button_exec.
  assert (Hm : 0 <= eval (check_button env button_to_check) s <= 4).
  { destruct (check_button_range env button_to_check s)
      as [E | [E | [E | [E | E]]]]; rewrite E; lia. }
  destruct ((1 <=? button_to_check) && (button_to_check <=? 16));
    (repeat (split; [reflexivity|]));
    (split; [intros Hout; rewrite check_button_eval; apply read_slot_outside;
             exact Hout|]);
    (split; [exact Hm | lia]).
Qed.

(** Slot 17 does not exist: no read, None. *)
Lemma check_button_only_reads_witness :
  ~ (1 <= 17 <= 16) /\
  eval (check_button (steady 0x3333 0x3333 0x3333 0x3333) 17) power_on
  = PRIMO_MAGNET_NONE.
Proof.
  assert (H : ~ (1 <= 17 <= 16)) by lia.
  split; [exact H|].
  destruct (check_button_only_reads (steady 0x3333 0x3333 0x3333 0x3333) 17
              power_on) as (_ & _ & _ & _ & _ & _ & _ & Hout & _).
  exact (Hout H).
Defined.

(** ** Frames without a stale command *)

Lemma last_store_origin : forall (st : list (Z * Z)) (i : nat) (v : Z),
  last_store st i = Some v ->
  exists x : Z * Z, In x st /\ Z.of_nat i = fst x /\ snd x = v.
Proof.
  induction st as [|x st IH]; intros i v H; [discriminate|].
  cbn [last_store] in H. destruct (last_store st i) as [w|] eqn:E.
  - destruct (IH i w E) as (y & Hy & Hi & Hv).
    exists y. split; [right; exact Hy | split; [exact Hi | congruence]].
  - destruct (Z.leb_spec 0 (fst x)); cbn [andb] in H; [|discriminate].
    destruct (fst x <? 32); cbn [andb] in H; [|discriminate].
    destruct (Nat.eqb_spec (Z.to_nat (fst x)) i) as [Hi | _]; [|discriminate].
    exists x. split; [left; reflexivity | split; [lia | congruence]].
Qed.

Lemma for_up_app (body : Z -> M unit) :
  forall (n m : nat) (x : Z) (s : machine),
    exec (for_up (n + m) x body) s
    = exec (for_up m (x + Z.of_nat n) body) (exec (for_up n x body) s).
Proof.
  induction n as [|n IH]; intros m x s.
  - rewrite Z.add_0_r. reflexivity.
  - change (S n + m)%nat with (S (n + m)). rewrite !for_up_S, !exec_bind, IH.
    replace (x + 1 + Z.of_nat n) with (x + Z.of_nat (S n)) by lia. reflexivity.
Qed.

Lemma place_stops : forall (n : nat) (at_ : Z),
  length (place at_ (replicate n PRIMO_COMMAND_STOP)) = n /\
  Forall (fun x : Z * Z => snd x = PRIMO_COMMAND_STOP)
         (place at_ (replicate n PRIMO_COMMAND_STOP)).
Proof.
  induction n as [|n IH]; intros at_; [split; [reflexivity | constructor]|].
  cbn [replicate place length]. destruct (IH (to_char (at_ + 1))) as [H1 H2].
  split; [rewrite H1; reflexivity | constructor; [reflexivity | exact H2]].
Qed.

(** The stop-filling loop stores nothing but Stops. *)
Lemma add_stops_fuel_stores : forall (fuel : nat) (s : machine),
  exists new : list (Z * Z),
    stores (exec (add_stops_fuel fuel) s) = stores s ++ new /\
    Forall (fun x : Z * Z => snd x = PRIMO_COMMAND_STOP) new.
Proof.
  induction fuel as [|fuel IH]; intros s.
  - exists []. split; [symmetry; apply app_nil_r | constructor].
  - rewrite add_stops_fuel_unfold. destruct (current_element s <? 28).
    + destruct (IH (exec (append_packet 0) s)) as (new & H1 & H2).
      exists ((current_element s, 0) :: new).
      rewrite H1, append_packet_stores, <- app_assoc.
      split; [reflexivity | constructor; [reflexivity | exact H2]].
    + exists []. split; [symmetry; apply app_nil_r | constructor].
Qed.

(** The stores of a pass end with eleven Stops at least: the seventeenth
    turn of the scan loop terminates the sequence at the latest, each of
    the eleven turns after it stores a Stop, and so does the stop-filling
    loop.  What comes before them is stored by the first seventeen
    turns. *)
Lemma pass_ends_in_stops (env : port_oracle) (s : machine) (new : list (Z * Z)) :
  length (packet s) = 32%nat ->
  stores (exec (calculate_packet env) s) = stores s ++ new ->
  exists front back : list (Z * Z),
    new = front ++ back /\ (11 <= length back)%nat /\
    Forall (fun x : Z * Z => snd x = PRIMO_COMMAND_STOP) back.
Proof.
  intros Hlen Hnew.
  set (s1 := count_port_read (count_port_read (count_port_read (count_port_read
               (set_terminated 0 (set_current_element 8 s)))))).
  assert (Hunfold : exec (calculate_packet env) s
                    = exec add_stops (exec (scan_buttons env) s1)).
  { unfold calculate_packet. rewrite !exec_bind. reflexivity. }
  rewrite Hunfold in Hnew. clear Hunfold.
  assert (H1 : scan_inv s1 0 s1).
  { apply scan_inv_intro;
      [apply base_inv_refl; [exact Hlen | reflexivity] | lia | cbn; lia |].
    intros _ i x Hi. cbn in Hi. lia. }
  destruct (scan_prefix env s1 s1 17 ltac:(lia) H1 eq_refl eq_refl)
    as (H17 & _ & Hterm).
  specialize (Hterm ltac:(lia)).
  assert (Hsplit : exec (scan_buttons env) s1
                   = exec (for_up 11 (1 + Z.of_nat 17) (button_body env))
                       (exec (for_up 17 1 (button_body env)) s1)).
  { unfold scan_buttons, for_range. change (Z.to_nat (28 + 1 - 1)) with (17 + 11)%nat.
    apply for_up_app. }
  rewrite Hsplit in Hnew. clear Hsplit.
  set (s17 := exec (for_up 17 1 (button_body env)) s1) in *. clearbody s17.
  rewrite (scan_after_termination env 11 _ s17 Hterm) in Hnew.
  destruct H17 as (Hb & _).
  destruct (bi_stores _ _ Hb) as (front & Hfront & _).
  destruct (append_all_spec (replicate 11 0) s17) as (Hmid & _).
  destruct (place_stops 11 (current_element s17)) as [Hlen11 Hstop11].
  set (s28 := append_all (replicate 11 0) s17) in *. clearbody s28.
  destruct (add_stops_fuel_stores 256 s28) as (tail & Htail & Hstoptail).
  unfold add_stops in Hnew.
  rewrite Htail, Hmid, Hfront in Hnew.
  change (stores s1) with (stores s) in Hnew.
  rewrite <- !app_assoc in Hnew. apply app_inv_head in Hnew.
  exists front, (place (current_element s17) (replicate 11 0) ++ tail).
  split; [symmetry; exact Hnew|].
  split; [rewrite length_app; lia|].
  apply Forall_app. split; assumption.
Qed.

(** A pass that stays inside the array stores nothing but Stops at the
    indices 28 and beyond. *)
Lemma in_bounds_pass_ends_in_stops (env : port_oracle) (s : machine) :
  length (packet s) = 32%nat ->
  overrun (exec (calculate_packet env) s) = false ->
  exists new : list (Z * Z),
    made new s (exec (calculate_packet env) s) /\
    late_stores_are_stops new = true.
Proof.
  intros Hlen Hin.
  destruct (calculate_packet_overrun env s Hlen)
    as (new & M & Hidx & _ & _ & Ho).
  exists new. split; [exact M|].
  rewrite Hin in Ho. symmetry in Ho. apply orb_false_elim in Ho.
  destruct Ho as [_ Ho]. apply negb_false_iff, Nat.leb_le in Ho.
  destruct (pass_ends_in_stops env s new Hlen (proj1 M))
    as (front & back & Hsplit & Hback & Hstops).
  assert (Hfront : (length front <= 13)%nat).
  { rewrite Hsplit, length_app in Ho. lia. }
  unfold late_stores_are_stops. rewrite Hsplit, forallb_app.
  apply andb_true_intro. split; apply forallb_forall; intros x Hx.
  - apply list_elem_of_In, list_elem_of_lookup_1 in Hx. destruct Hx as [k Hk].
    assert (Hklt : (k < length front)%nat) by (eapply lookup_lt_Some; exact Hk).
    assert (Hnewk : new !! k = Some x).
    { rewrite Hsplit. apply lookup_app_l_Some. exact Hk. }
    rewrite (consecutive_lookup 8 _ new k x Hidx Hnewk).
    destruct (Z.ltb_spec (8 + Z.of_nat k) 28); [reflexivity | lia].
  - rewrite List.Forall_forall in Hstops. rewrite (Hstops x Hx).
    apply orb_true_r.
Qed.

(** A gesture that stays inside the array leaves Stop in the last four
    bytes when it found Stop there. *)
Lemma loop_keeps_tail (env : port_oracle) (qs : list irq) (s : machine) :
  length (packet s) = 32%nat -> tail_is_stop (packet s) ->
  overrun (loop env qs s) = false ->
  tail_is_stop (packet (loop env qs s)).
Proof.
  intros Hlen Htail Hin i Hi.
  rewrite (proj2 (loop_keeps env qs s)) in Hin.
  destruct (in_bounds_pass_ends_in_stops env (reset_port_reads s))
    as (new & (_ & P & _) & Hlate); [exact Hlen | exact Hin |].
  rewrite loop_packet, P. change (packet (reset_port_reads s)) with (packet s).
  rewrite apply_stores_lookup, Hlen.
  destruct (last_store new i) as [v|] eqn:E; [|apply Htail; exact Hi].
  destruct (Nat.ltb_spec i 32); [|lia].
  destruct (last_store_origin _ _ _ E) as (x & Hx & Hix & Hv).
  unfold late_stores_are_stops in Hlate.
  rewrite forallb_forall in Hlate. specialize (Hlate x Hx).
  destruct (Z.ltb_spec (fst x) 28); [lia|]. cbn [orb] in Hlate.
  apply Z.eqb_eq in Hlate. congruence.
Qed.

Lemma run_gapless :
  forall (es : list event) (s : machine),
    overrun (run es s) = false ->
    length (packet s) = 32%nat -> tail_is_stop (packet s) ->
    Forall gapless (frames_sent (radio s)) ->
    Forall gapless (frames_sent (radio (run es s))).
Proof.
  induction es as [|e es IH]; intros s Hin Hlen Htail Hsent; [exact Hsent|].
  change (run (e :: es) s) with (run es (step s e)) in *.
  pose proof (run_overrun_mono es _ Hin) as Hstep.
  destruct e as [env qs | q]; cbn [step] in *.
  - destruct (loop_spec env qs s Hlen) as (Hb & Hpk & Hfr).
    assert (Hg : gapless (packet (loop env qs s))).
    { rewrite loop_packet. apply calculate_packet_gapless.
      - rewrite reset_port_reads_packet. exact Hlen.
      - intros i Hi. rewrite reset_port_reads_packet. apply Htail. exact Hi. }
    apply IH; [exact Hin | | |].
    + rewrite Hpk. apply (bi_length _ _ Hb).
    + apply loop_keeps_tail; [exact Hlen | exact Htail | exact Hstep].
    + rewrite Hfr. apply Forall_app. split; [exact Hsent|].
      rewrite <- Hpk. revert Hg. generalize (packet (loop env qs s)). intros f Hf.
      constructor; [exact Hf|]. constructor; [exact Hf|]. constructor.
  - destruct (serve_spec q s) as [Hpk Hfr].
    apply IH; [exact Hin | rewrite Hpk; exact Hlen | rewrite Hpk; exact Htail
              | rewrite Hfr; exact Hsent].
Qed.

(** X19. No frame handed to the radio while every store of the power cycle
    has stayed inside the array has a Stop followed by a movement, whatever
    the gestures and whatever the radio raises: a pass that stays inside
    the array ends with eleven Stops at least, so it stores no movement
    at index 28 or beyond and leaves Stop in the bytes it does not
    reach. *)
Theorem frames_gapless_until_overrun (random_value : Z) (es : list event) :
  overrun (run es (setup random_value)) = false ->
  Forall gapless (frames_sent (radio (run es (setup random_value)))).
Proof.
  intros Hin. apply run_gapless; [exact Hin | | | constructor].
  - destruct (setup_frame_layout random_value) as [Hlen _]. exact Hlen.
  - intros i Hi. rewrite setup_packet.
    generalize (to_long random_value). intros z.
    assert (Hc : i = 28%nat \/ i = 29%nat \/ i = 30%nat \/ i = 31%nat) by lia.
    destruct Hc as [-> | [-> | [-> | ->]]]; reflexivity.
Qed.

(** Twelve movement blocks over a function line of Function blocks, then
    eight Function blocks over an empty function line, an interrupt in
    between. *)
Lemma frames_gapless_until_overrun_witness :
  overrun (run [Gesture (steady 0x3333 0x3333 0x3333 0x2222) [];
                RadioIrq (Irq true false true 1);
                Gesture (steady 0x2222 0x2222 0 0) []] (setup 0)) = false /\
  Forall gapless
    (frames_sent
       (radio (run [Gesture (steady 0x3333 0x3333 0x3333 0x2222) [];
                    RadioIrq (Irq true false true 1);
                    Gesture (steady 0x2222 0x2222 0 0) []] (setup 0)))).
Proof.
  assert (H : overrun (run [Gesture (steady 0x3333 0x3333 0x3333 0x2222) [];
                            RadioIrq (Irq true false true 1);
                            Gesture (steady 0x2222 0x2222 0 0) []] (setup 0))
              = false) by (vm_compute; reflexivity).
  split; [exact H|].
  exact (frames_gapless_until_overrun 0 _ H).
Defined.

(** ** The lights of the function line after a Function block *)

Lemma relight_body_exec (env : port_oracle) (fe : Z) (p : panel) :
  1 <= fe <= 4 ->
  pexec (relight_body env fe) p =
  let q := set_core (count_port_read (core p)) p in
  if read_slot (env (port_reads (core p))) (12 + fe) =? PRIMO_MAGNET_NONE
  then q else pexec (write_led (12 + fe) 1) q.
Proof.
  intros Hfe. unfold relight_body.
  rewrite pexec_pbind, peval_lift, pexec_lift, check_button_eval, check_button_exec.
  destruct (Z.leb_spec 1 (12 + fe)); [|lia].
  destruct (Z.leb_spec (12 + fe) 16); [|lia]. cbn [andb]. cbv zeta.
  destruct (read_slot (env (port_reads (core p))) (12 + fe) =? 0); reflexivity.
Qed.

(** X20. The loop that closes the replay of a Function block ("turn function
    lights back on") reads the four slots of the function line once each
    and lights the LED of every slot that reads a block -- also of a slot
    behind a gap, which the loop before it never put out; the LED of a slot
    that reads None and the LEDs of the slots 1 to 12 keep their level.  It
    asks for no delay and leaves the packet, the logs and the
    acknowledgement counter alone. *)
Theorem relight_lights_function_line
    (env : port_oracle) (p : panel) (n : Z) :
  1 <= n <= 16 ->
  let r := port_reads (core p) in
  let p' := pexec (pfor_range 1 4 (relight_body env)) p in
  led_level (io p') n =
    (if (13 <=? n)
        && negb (read_slot (env (r + Z.to_nat (n - 13))%nat) n =? PRIMO_MAGNET_NONE)
     then Some 0 else led_level (io p) n) /\
  port_reads (core p') = (r + 4)%nat /\
  same_frame (core p') (core p) /\
  total_delay (io p') = total_delay (io p).
Proof.
  intros Hn r.
  pose (Inv := fun (j : nat) (q : panel) =>
    (forall m, 1 <= m <= 16 ->
       led_level (io q) m =
       if (13 <=? m) && (m <? 13 + Z.of_nat j)
          && negb (read_slot (env (r + Z.to_nat (m - 13))%nat) m =? 0)
       then Some 0 else led_level (io p) m) /\
    core q = Nat.iter j count_port_read (core p) /\
    total_delay (io q) = total_delay (io p)).
  assert (HI : Inv (0 + 4)%nat (pexec (pfor_range 1 4 (relight_body env)) p)).
  { unfold pfor_range. change (Z.to_nat (4 + 1 - 1)) with 4%nat.
    apply pfor_up_invariant.
    - intros j q Hj (Hlev & Hc & Ht). rewrite Nat.add_0_l in *.
      rewrite relight_body_exec by lia. cbv zeta.
      assert (Hreads : port_reads (core q) = (r + j)%nat).
      { rewrite Hc, port_reads_iter. reflexivity. }
      rewrite Hreads.
      set (q1 := set_core (count_port_read (core q)) q).
      assert (Hq1 : io q1 = io q /\ core q1 = Nat.iter (S j) count_port_read (core p)).
      { unfold q1. cbn [io core set_core]. rewrite Hc. split; reflexivity. }
      destruct Hq1 as [Hio1 Hc1]. clearbody q1.
      destruct (write_led_keeps (12 + (1 + Z.of_nat j)) 1 q1) as (Hc' & _ & _ & Ht').
      destruct (Z.eqb_spec (read_slot (env (r + j)%nat) (12 + (1 + Z.of_nat j))) 0)
        as [E | E].
      + split; [|split; [exact Hc1 | rewrite Hio1; exact Ht]].
        intros m Hm. rewrite Hio1, (Hlev m Hm).
        destruct (Z.leb_spec 13 m); cbn [andb]; [|reflexivity].
        destruct (Z.ltb_spec m (13 + Z.of_nat j)),
                 (Z.ltb_spec m (13 + Z.of_nat (S j))); try lia; cbn [andb];
          try reflexivity.
        assert (Hm' : m = 12 + (1 + Z.of_nat j)) by lia. subst m.
        replace (Z.to_nat (12 + (1 + Z.of_nat j) - 13)) with j by lia.
        rewrite E. reflexivity.
      + split; [|split; [rewrite Hc'; exact Hc1 | rewrite Ht', Hio1; exact Ht]].
        intros m Hm. rewrite led_level_write_led by lia. change (1 - 1) with 0.
        destruct (Z.eqb_spec m (12 + (1 + Z.of_nat j))) as [-> | Hne].
        * replace (Z.to_nat (12 + (1 + Z.of_nat j) - 13)) with j by lia.
          destruct (Z.leb_spec 13 (12 + (1 + Z.of_nat j))); [|lia].
          destruct (Z.ltb_spec (12 + (1 + Z.of_nat j)) (13 + Z.of_nat (S j))); [|lia].
          destruct (Z.eqb_spec (read_slot (env (r + j)%nat) (12 + (1 + Z.of_nat j))) 0);
            [contradiction | reflexivity].
        * rewrite Hio1, (Hlev m Hm).
          destruct (Z.leb_spec 13 m); cbn [andb]; [|reflexivity].
          destruct (Z.ltb_spec m (13 + Z.of_nat j)),
                   (Z.ltb_spec m (13 + Z.of_nat (S j))); try lia; reflexivity.
    - split; [|split; reflexivity].
      intros m Hm. destruct (Z.leb_spec 13 m); cbn [andb]; [|reflexivity].
      destruct (Z.ltb_spec m (13 + Z.of_nat 0%nat)); [lia | reflexivity]. }
  destruct HI as (Hlev & Hc & Ht). cbv zeta.
  split.
  - rewrite (Hlev n Hn).
    destruct (Z.leb_spec 13 n); cbn [andb]; [|reflexivity].
    destruct (Z.ltb_spec n (13 + Z.of_nat (0 + 4))); [reflexivity | lia].
  - split; [rewrite Hc; apply port_reads_iter|].
    split; [|exact Ht].
    apply frame_safe_pfor_up. intros x. apply frame_safe_relight_body.
Qed.

(** A function line Forward, empty, Left, Right: the LED of slot 15 is lit,
    that of slot 14 keeps its level. *)
Lemma relight_lights_function_line_witness :
  led_level (io (pexec (pfor_range 1 4 (relight_body (steady 0 0 0 0x6503)))
                   (boot 0))) 15 = Some 0 /\
  led_level (io (pexec (pfor_range 1 4 (relight_body (steady 0 0 0 0x6503)))
                   (boot 0))) 14 = Some 1.
Proof.
  split.
  - exact (proj1 (relight_lights_function_line (steady 0 0 0 0x6503) (boot 0) 15
                    ltac:(lia))).
  - refine (eq_trans (proj1 (relight_lights_function_line (steady 0 0 0 0x6503)
                               (boot 0) 14 ltac:(lia))) _).
    vm_compute. reflexivity.
Defined.
